(** * Plex dual subtitles: the bulk wizard, file names and language table

    A shallow embedding of the TypeScript front end of the dual-subtitle
    manager (the bulk wizard's episode statistics, the dual file-name
    parser and the language table), together with models of the back-end
    pipeline written from its specification, and the properties proved
    about them.

    JavaScript objects used as dictionaries are finite maps ([gmap]): a key
    that the object does not own reads as [undefined] (the properties
    inherited from [Object.prototype] are not modelled).  Arrays are lists;
    strings are [string], i.e. sequences of 8-bit code units; numbers that
    count things are integers ([Z]). *)

From Stdlib Require Import ZArith NArith Ascii String List Sorted Permutation Lia.
From stdpp Require Import base gmap strings list.

(** ** The subtitle analysis of a show and the wizard's statistics *)

Module Bulk.

Local Open Scope Z_scope.

(** The declarations of [types/bulk] are not among the sources; the records
    below carry exactly the fields the wizard reads. *)

(** An external subtitle file attached to an episode (see
    [ExternalSubtitle]: [dual_languages?: string[]]). *)
Record DualSub := mkDualSub {
  file_name : string;
  dual_languages : option (list string)
}.

Record EpisodeDetail := mkEpisodeDetail {
  episode_id : string;
  existing_dual_subtitles : option (list DualSub)
}.

Record LanguageAvailability := mkLanguageAvailability {
  episodes_available : Z;
  episode_details : list EpisodeDetail
}.

Record SubtitleAnalysis := mkSubtitleAnalysis {
  total_episodes : Z;
  language_availability : gmap string LanguageAvailability
}.

(** The callback of [existing_dual_subtitles?.some(...)]:
<<
  if (!dualSub.dual_languages || dualSub.dual_languages.length < 2) return false;
  const [lang1, lang2] = dualSub.dual_languages;
  return (lang1 === primaryLanguage && lang2 === secondaryLanguage) ||
         (lang1 === secondaryLanguage && lang2 === primaryLanguage);
>> *)
Definition dual_matches (primaryLanguage secondaryLanguage : string)
    (dualSub : DualSub) : bool :=
  match dual_languages dualSub with
  | None => false
  | Some langs =>
      if (length langs <? 2)%nat then false
      else match langs with
           | lang1 :: lang2 :: _ =>
               (String.eqb lang1 primaryLanguage && String.eqb lang2 secondaryLanguage)
               || (String.eqb lang1 secondaryLanguage && String.eqb lang2 primaryLanguage)
           | _ => false
           end
  end.

(** [ep.existing_dual_subtitles?.some(...)]: an absent list gives
    [undefined], which [filter] treats as false. *)
Definition has_existing_dual (primaryLanguage secondaryLanguage : string)
    (ep : EpisodeDetail) : bool :=
  match existing_dual_subtitles ep with
  | None => false
  | Some subs => existsb (dual_matches primaryLanguage secondaryLanguage) subs
  end.

(** [primaryAvail.episode_details.filter(ep =>
       secondaryAvail.episode_details.some(secEp => secEp.episode_id === ep.episode_id))] *)
Definition episodesWithBoth (primaryAvail secondaryAvail : LanguageAvailability)
    : list EpisodeDetail :=
  List.filter
    (fun ep => existsb (fun secEp => String.eqb (episode_id secEp) (episode_id ep))
                       (episode_details secondaryAvail))
    (episode_details primaryAvail).

Definition episodesWithExistingDual (primaryLanguage secondaryLanguage : string)
    (primaryAvail secondaryAvail : LanguageAvailability) : list EpisodeDetail :=
  List.filter (has_existing_dual primaryLanguage secondaryLanguage)
              (episodesWithBoth primaryAvail secondaryAvail).

Record Stats := mkStats {
  ready : Z;
  needsAttention : Z;
  willSkip : Z;
  alreadyExists : Z
}.

(** [stats] of the episode-configuration step (EpisodePreviewStep). *)
Definition stats (analysis : SubtitleAnalysis)
    (primaryLanguage secondaryLanguage : string) : Stats :=
  match language_availability analysis !! primaryLanguage,
        language_availability analysis !! secondaryLanguage with
  | Some primaryAvail, Some secondaryAvail =>
      let both := episodesWithBoth primaryAvail secondaryAvail in
      let existing :=
        episodesWithExistingDual primaryLanguage secondaryLanguage
                                 primaryAvail secondaryAvail in
      let alreadyExists := Z.of_nat (length existing) in
      let ready := Z.of_nat (length both) - alreadyExists in
      let maxAvailable :=
        Z.max (episodes_available primaryAvail) (episodes_available secondaryAvail) in
      let needsAttention := maxAvailable - Z.of_nat (length both) in
      let willSkip := total_episodes analysis - maxAvailable in
      mkStats ready needsAttention willSkip alreadyExists
  | _, _ => mkStats 0 0 (total_episodes analysis) 0
  end.

(** [readyCount] of the wizard footer (BulkDualSubtitleWizard).  The analysis
    is [null] until it is loaded and an unselected language is the empty
    string; both are falsy. *)
Definition readyCount (analysis : option SubtitleAnalysis)
    (primaryLanguage secondaryLanguage : string) : Z :=
  match analysis with
  | None => 0
  | Some analysis =>
      if String.eqb primaryLanguage "" || String.eqb secondaryLanguage "" then 0
      else
        match language_availability analysis !! primaryLanguage,
              language_availability analysis !! secondaryLanguage with
        | Some primaryAvail, Some secondaryAvail =>
            Z.of_nat (length (episodesWithBoth primaryAvail secondaryAvail))
            - Z.of_nat (length (episodesWithExistingDual
                                  primaryLanguage secondaryLanguage
                                  primaryAvail secondaryAvail))
        | _, _ => 0
        end
  end.

(** [x?.episodes_available || 0] *)
Definition available_or_zero (avail : option LanguageAvailability) : Z :=
  match avail with
  | Some a => episodes_available a
  | None => 0
  end.

(** [previewData.compatible] of the language-discovery step:
<<
  Math.min(analysis.language_availability[primaryLanguage]?.episodes_available || 0,
           analysis.language_availability[secondaryLanguage]?.episodes_available || 0)
>> *)
Definition compatible (analysis : SubtitleAnalysis)
    (primaryLanguage secondaryLanguage : string) : Z :=
  Z.min (available_or_zero (language_availability analysis !! primaryLanguage))
        (available_or_zero (language_availability analysis !! secondaryLanguage)).

(** *** The worklist in the words of the specification

    "episodes that have both requested languages available, excluding
    episodes that already contain a dual track for that exact language
    pair", as sets of episode identifiers. *)

Definition detail_ids (details : list EpisodeDetail) : gset string :=
  list_to_set (map episode_id details).

(** The episodes listed for a language; none when the language is absent. *)
Definition language_details (analysis : SubtitleAnalysis) (lang : string)
    : list EpisodeDetail :=
  match language_availability analysis !! lang with
  | Some avail => episode_details avail
  | None => []
  end.

Definition episodes_of (analysis : SubtitleAnalysis) (lang : string) : gset string :=
  detail_ids (language_details analysis lang).

(** Episodes that appear in both languages' lists. *)
Definition both_languages (analysis : SubtitleAnalysis) (p s : string) : gset string :=
  episodes_of analysis p ∩ episodes_of analysis s.

(** Those of them that already carry a dual subtitle for the pair. *)
Definition already_dual (analysis : SubtitleAnalysis) (p s : string) : gset string :=
  detail_ids (List.filter (has_existing_dual p s) (language_details analysis p))
  ∩ episodes_of analysis s.

(** Input well-formedness: a language lists each episode once, and its
    count is the length of its list. *)
Definition distinct_episodes (analysis : SubtitleAnalysis) (lang : string) : Prop :=
  NoDup (map episode_id (language_details analysis lang)).

Definition counts_agree (analysis : SubtitleAnalysis) (lang : string) : Prop :=
  forall avail, language_availability analysis !! lang = Some avail ->
    episodes_available avail = Z.of_nat (length (episode_details avail)).

(** The two lists of an analysis describe an episode alike: entries with
    the same identifier record the same existing dual subtitles. *)
Definition records_agree (a : SubtitleAnalysis) (p s : string) : Prop :=
  Forall (fun e1 =>
    Forall (fun e2 =>
      episode_id e1 = episode_id e2 ->
      existing_dual_subtitles e1 = existing_dual_subtitles e2)
      (language_details a s))
    (language_details a p).

#[global] Instance DualSub_eq_dec : EqDecision DualSub.
Proof. solve_decision. Defined.

#[global] Instance records_agree_dec a p s : Decision (records_agree a p s).
Proof. unfold records_agree. apply _. Defined.

(** *** Example data *)

Definition plain_episode (id : string) : EpisodeDetail :=
  mkEpisodeDetail id None.

Definition dual_episode (id fname : string) (l1 l2 : string) : EpisodeDetail :=
  mkEpisodeDetail id (Some [mkDualSub fname (Some [l1; l2])]).

(** A show of twelve episodes: English subtitles for e01..e10, Japanese for
    e02..e10 and e12, hence both for the nine episodes e02..e10; e02 and e03
    already have a dual file (one recorded as en-ja, one as ja-en). *)
Definition scenario_en : list EpisodeDetail :=
  [ plain_episode "e01";
    dual_episode "e02" "S01E02.dual.en-ja.srt" "en" "ja";
    dual_episode "e03" "S01E03.dual.ja-en.srt" "ja" "en";
    plain_episode "e04"; plain_episode "e05"; plain_episode "e06";
    plain_episode "e07"; plain_episode "e08"; plain_episode "e09";
    plain_episode "e10" ].

Definition scenario_ja : list EpisodeDetail :=
  [ dual_episode "e02" "S01E02.dual.en-ja.srt" "en" "ja";
    dual_episode "e03" "S01E03.dual.ja-en.srt" "ja" "en";
    plain_episode "e04"; plain_episode "e05"; plain_episode "e06";
    plain_episode "e07"; plain_episode "e08"; plain_episode "e09";
    plain_episode "e10"; plain_episode "e12" ].

Definition scenario12 : SubtitleAnalysis :=
  mkSubtitleAnalysis 12
    (<["en" := mkLanguageAvailability 10 scenario_en]>
       (<["ja" := mkLanguageAvailability 10 scenario_ja]> ∅)).

(** Two languages that never meet in an episode. *)
Definition disjoint_show : SubtitleAnalysis :=
  mkSubtitleAnalysis 4
    (<["en" := mkLanguageAvailability 2 [plain_episode "e01"; plain_episode "e02"]]>
       (<["ja" := mkLanguageAvailability 2 [plain_episode "e03"; plain_episode "e04"]]> ∅)).

(** *** The exclusion in the words of the specification

    "an existing dual file recorded with languages [lang1, lang2] matches
    the request whether (lang1, lang2) equals (p, s) or (s, p)". *)

(** The dual subtitle is recorded with the two languages, in either order
    (the two languages come first in the record). *)
Definition names_pair (p s : string) (dualSub : DualSub) : Prop :=
  match dual_languages dualSub with
  | Some (lang1 :: lang2 :: _) => (lang1 = p /\ lang2 = s) \/ (lang1 = s /\ lang2 = p)
  | _ => False
  end.

(** The episode record "already contains a dual track for that exact
    language pair". *)
Definition dual_for_pair (p s : string) (ep : EpisodeDetail) : Prop :=
  match existing_dual_subtitles ep with
  | Some subs => Exists (names_pair p s) subs
  | None => False
  end.

#[global] Instance names_pair_dec p s dualSub : Decision (names_pair p s dualSub).
Proof.
  unfold names_pair.
  destruct (dual_languages dualSub) as [[|lang1 [|lang2 rest]]|]; apply _.
Defined.

#[global] Instance dual_for_pair_dec p s ep : Decision (dual_for_pair p s ep).
Proof. unfold dual_for_pair. destruct (existing_dual_subtitles ep); apply _. Defined.

(** The episodes of both lists that already have a dual subtitle for the
    pair, as the primary language's list records them. *)
Definition dual_episodes (analysis : SubtitleAnalysis) (p s : string) : gset string :=
  detail_ids (List.filter (fun ep => bool_decide (dual_for_pair p s ep))
                          (language_details analysis p))
  ∩ episodes_of analysis s.

(** The records that a request leaves out of the worklist:
    [episodesWithExistingDual] of the two languages of the analysis. *)
Definition excluded (analysis : SubtitleAnalysis) (p s : string) : list EpisodeDetail :=
  match language_availability analysis !! p, language_availability analysis !! s with
  | Some primaryAvail, Some secondaryAvail =>
      episodesWithExistingDual p s primaryAvail secondaryAvail
  | _, _ => []
  end.

(** The English list names e01 twice. *)
Definition repeated_show : SubtitleAnalysis :=
  mkSubtitleAnalysis 2
    (<["en" := mkLanguageAvailability 2 [plain_episode "e01"; plain_episode "e01"]]>
       (<["ja" := mkLanguageAvailability 1 [plain_episode "e01"]]> ∅)).

(** The two lists describe e01 differently: only the English list records
    its dual file. *)
Definition disagreeing_show : SubtitleAnalysis :=
  mkSubtitleAnalysis 1
    (<["en" := mkLanguageAvailability 1
                 [dual_episode "e01" "S01E01.dual.en-ja.srt" "en" "ja"]]>
       (<["ja" := mkLanguageAvailability 1 [plain_episode "e01"]]> ∅)).

End Bulk.

(** ** JavaScript strings and regular expressions

    The string methods and the fragment of JavaScript's regular expressions
    that the front end uses: literal characters, the classes [[a-zA-Z]],
    [\d] and [[^.]] under greedy bounded or unbounded repetition, greedy
    optional groups, alternation, capture groups and the end anchor.
    Matching is the backtracking search of the language definition: every
    construct tries its preferred choice first and falls back when the rest
    of the pattern fails. *)

Module Regex.

Definition chars := list ascii.

Definition code_unit (c : ascii) : nat := nat_of_ascii c.

Definition between (lo hi : nat) (c : ascii) : bool :=
  ((lo <=? code_unit c) && (code_unit c <=? hi))%nat.

(** [[a-z]], [[A-Z]], [[a-zA-Z]], [\d] *)
Definition is_lower (c : ascii) : bool := between 97 122 c.
Definition is_upper (c : ascii) : bool := between 65 90 c.
Definition is_alpha (c : ascii) : bool := is_lower c || is_upper c.
Definition is_digit (c : ascii) : bool := between 48 57 c.
Definition is_dot (c : ascii) : bool := Ascii.eqb c ".".

Inductive charclass :=
| Alpha      (* [a-zA-Z] *)
| Digit      (* \d *)
| NotDot.    (* [^.] *)

Definition in_class (cl : charclass) (c : ascii) : bool :=
  match cl with
  | Alpha => is_alpha c
  | Digit => is_digit c
  | NotDot => negb (is_dot c)
  end.

Inductive regex :=
| Eps                                               (* the empty pattern *)
| Chr (c : ascii)                                   (* a literal character *)
| Rep (cl : charclass) (lo : nat) (hi : option nat) (* [cl]{lo,hi}, [cl]+ *)
| Seq (r1 r2 : regex)                               (* r1 r2 *)
| Alt (r1 r2 : regex)                               (* r1|r2 *)
| Opt (r : regex)                                   (* (?:r)? *)
| Group (i : nat) (r : regex)                       (* (r), the i-th group *)
| Eoi.                                              (* $ *)

(** A literal word, character after character. *)
Fixpoint word (w : chars) (k : regex) : regex :=
  match w with
  | [] => k
  | c :: w' => Seq (Chr c) (word w' k)
  end.

Definition lit (w : string) (k : regex) : regex := word (list_ascii_of_string w) k.

(** Captured groups, latest first. *)
Definition captures := list (nat * chars).

Fixpoint capture (i : nat) (cs : captures) : option chars :=
  match cs with
  | [] => None
  | (j, w) :: cs' => if (i =? j)%nat then Some w else capture i cs'
  end.

Definition orelse {A : Type} (x y : option A) : option A :=
  match x with
  | Some v => Some v
  | None => y
  end.

Definition within (hi : option nat) (n : nat) : bool :=
  match hi with
  | Some h => (n <=? h)%nat
  | None => true
  end.

Definition decr (hi : option nat) : option nat :=
  match hi with
  | Some h => Some (Nat.pred h)
  | None => None
  end.

(** Greedy repetition of a class: take one more character while allowed,
    and stop here (when [lo] characters have been taken) if the rest of the
    pattern fails further on. *)
Fixpoint rep {R : Type} (p : ascii -> bool) (lo : nat) (hi : option nat)
    (s : chars) (k : chars -> option R) : option R :=
  let stop := match lo with O => k s | S _ => None end in
  match s with
  | c :: s' =>
      if p c && within hi 1
      then orelse (rep p (Nat.pred lo) (decr hi) s' k) stop
      else stop
  | [] => stop
  end.

(** [exec r s cs k]: match [r] at the front of [s], then run the rest of
    the pattern [k] on what is left. *)
Fixpoint exec (r : regex) (s : chars) (cs : captures)
    (k : chars -> captures -> option captures) : option captures :=
  match r with
  | Eps => k s cs
  | Chr c =>
      match s with
      | c' :: s' => if Ascii.eqb c c' then k s' cs else None
      | [] => None
      end
  | Rep cl lo hi => rep (in_class cl) lo hi s (fun s' => k s' cs)
  | Seq r1 r2 => exec r1 s cs (fun s1 cs1 => exec r2 s1 cs1 k)
  | Alt r1 r2 => orelse (exec r1 s cs k) (exec r2 s cs k)
  | Opt r1 => orelse (exec r1 s cs k) (k s cs)
  | Group i r1 =>
      exec r1 s cs
        (fun s' cs' => k s' ((i, take (length s - length s') s) :: cs'))
  | Eoi =>
      match s with
      | [] => k s cs
      | _ :: _ => None
      end
  end.

Definition accept : chars -> captures -> option captures := fun _ cs => Some cs.

(** A match that starts at the first character: a pattern that begins with
    [^] (without the [m] flag) can match nowhere else. *)
Definition match_start (r : regex) (s : chars) : option captures :=
  exec r s [] accept.

(** [str.match(r)] without the [g] flag: the match at the leftmost position
    that admits one. *)
Fixpoint search (r : regex) (s : chars) : option captures :=
  match match_start r s with
  | Some cs => Some cs
  | None =>
      match s with
      | [] => None
      | _ :: s' => search r s'
      end
  end.

(** What a successful match consumes, declaratively: [matches r w rest]
    says that [r] may consume [w] when [rest] follows it. *)
Fixpoint matches (r : regex) (w rest : chars) : Prop :=
  match r with
  | Eps => w = []
  | Chr c => w = [c]
  | Rep cl lo hi =>
      forallb (in_class cl) w = true /\ lo <= length w /\ within hi (length w) = true
  | Seq r1 r2 =>
      exists w1 w2, w = w1 ++ w2 /\ matches r1 w1 (w2 ++ rest) /\ matches r2 w2 rest
  | Alt r1 r2 => matches r1 w rest \/ matches r2 w rest
  | Opt r1 => w = [] \/ matches r1 w rest
  | Group _ r1 => matches r1 w rest
  | Eoi => w = [] /\ rest = []
  end.

(** The next character, if any, is outside the class. *)
Definition stops (p : ascii -> bool) (t : chars) : Prop :=
  match t with
  | [] => True
  | c :: _ => p c = false
  end.

(** The number of dots of a string. *)
Definition dots (w : chars) : nat := length (List.filter is_dot w).

(** [match[i]]; a group that took no part reads as the empty string (it is
    [undefined] in JavaScript). *)
Definition group (i : nat) (cs : captures) : string :=
  match capture i cs with
  | Some w => string_of_list_ascii w
  | None => ""
  end.

(** *** String methods *)

(** [toLowerCase] on one code unit: A-Z move to a-z.  The other code units
    below 256 either stay or move outside the ASCII range; every table this
    development compares against is ASCII, so they are left in place. *)
Definition lower_char (c : ascii) : ascii :=
  if is_upper c then ascii_of_nat (code_unit c + 32) else c.

Fixpoint toLowerCase (s : string) : string :=
  match s with
  | EmptyString => EmptyString
  | String c s' => String (lower_char c) (toLowerCase s')
  end.

(** White space for [trim]: tab, line feed, vertical tab, form feed,
    carriage return, space and no-break space. *)
Definition is_white (c : ascii) : bool :=
  let n := code_unit c in
  ((9 <=? n) && (n <=? 13) || (n =? 32) || (n =? 160))%nat.

Fixpoint trimStart (s : string) : string :=
  match s with
  | EmptyString => EmptyString
  | String c s' => if is_white c then trimStart s' else s
  end.

Fixpoint trimEnd (s : string) : string :=
  match s with
  | EmptyString => EmptyString
  | String c s' =>
      match trimEnd s' with
      | EmptyString => if is_white c then EmptyString else String c EmptyString
      | t => String c t
      end
  end.

Definition trim (s : string) : string := trimEnd (trimStart s).

(** [s.split('.')]: the segments between the dots; never empty. *)
Fixpoint split_dot (s : string) : list string :=
  match s with
  | EmptyString => [EmptyString]
  | String c s' =>
      if is_dot c then EmptyString :: split_dot s'
      else match split_dot s' with
           | seg :: rest => String c seg :: rest
           | [] => [String c EmptyString]
           end
  end.

End Regex.

(** ** Dual subtitle file names *)

Module DualName.
Import Regex.

(** The pattern of [parseDualLanguages], piece by piece:
<<
  /\.dual\.([a-zA-Z]{2,3}(?:-[a-zA-Z]{2,4})?)-([a-zA-Z]{2,3}(?:-[a-zA-Z]{2,4})?)\.[^.]+$/
>> *)

(** [-[a-zA-Z]{2,4}] *)
Definition region_re : regex := Seq (Chr "-") (Rep Alpha 2 (Some 4)).

(** [[a-zA-Z]{2,3}(?:-[a-zA-Z]{2,4})?] *)
Definition code_re : regex := Seq (Rep Alpha 2 (Some 3)) (Opt region_re).

(** [\.[^.]+$] *)
Definition tail_re : regex := Seq (Chr ".") (Seq (Rep NotDot 1 None) Eoi).

(** [-(code)\.[^.]+$] *)
Definition second_re : regex := Seq (Chr "-") (Seq (Group 2 code_re) tail_re).

Definition dual_re : regex := lit ".dual." (Seq (Group 1 code_re) second_re).

(** [parseDualLanguages]:
<<
  const match = fileName.match(/\.dual\.(...)-(...)\.[^.]+$/);
  if (match) { return [match[1], match[2]]; }
  return null;
>> *)
Definition parseDualLanguages (fileName : string) : option (string * string) :=
  match search dual_re (list_ascii_of_string fileName) with
  | Some m => Some (group 1 m, group 2 m)
  | None => None
  end.

(** The naming convention of the output files, as the parser's comment
    gives it: [name.dual.{lang1}-{lang2}.srt]. *)
Definition dual_filename (base primary secondary ext : string) : string :=
  base +:+ ".dual." +:+ primary +:+ "-" +:+ secondary +:+ "." +:+ ext.

(** *** Language codes: two or three letters, optionally a hyphen and a
    region of two to four letters *)

Definition letters (lo hi : nat) (w : chars) : bool :=
  forallb is_alpha w && (lo <=? length w)%nat && (length w <=? hi)%nat.

(** The part before the first hyphen, and the part after it if there is one. *)
Fixpoint split_hyphen (w : chars) : chars * option chars :=
  match w with
  | [] => ([], None)
  | c :: w' =>
      if Ascii.eqb c "-" then ([], Some w')
      else let (b, r) := split_hyphen w' in (c :: b, r)
  end.

Definition code_region (code : string) : option string :=
  match snd (split_hyphen (list_ascii_of_string code)) with
  | Some r => Some (string_of_list_ascii r)
  | None => None
  end.

Definition is_lang_code (code : string) : bool :=
  let (b, r) := split_hyphen (list_ascii_of_string code) in
  letters 2 3 b &&
  match r with
  | Some r => letters 2 4 r
  | None => true
  end.

(** The two shapes of a language code. *)
Inductive code_shape (code : string) : Prop :=
| plain_code (a : chars) :
    list_ascii_of_string code = a -> letters 2 3 a = true ->
    code_region code = None -> code_shape code
| regional_code (a r : chars) :
    list_ascii_of_string code = a ++ "-"%char :: r ->
    letters 2 3 a = true -> letters 2 4 r = true ->
    code_region code = Some (string_of_list_ascii r) -> code_shape code.

(** A file extension: at least one character, none of them a dot. *)
Definition is_extension (ext : string) : bool :=
  let w := list_ascii_of_string ext in
  forallb (fun c => negb (is_dot c)) w && (1 <=? length w)%nat.

(** The pairs of codes whose file name reads back as written: the primary
    code has a region, or the secondary has none, or the secondary's region
    has four letters. *)
Definition unambiguous (primary secondary : string) : bool :=
  match code_region primary, code_region secondary with
  | Some _, _ => true
  | None, None => true
  | None, Some r => (String.length r =? 4)%nat
  end.

(** The file name contains the marker [.dual.] somewhere. *)
Definition has_marker (fileName : string) : Prop :=
  exists pre post : string, fileName = pre +:+ ".dual." +:+ post.

End DualName.

(** ** The language table and language detection from file names *)

Module Lang.
Import Regex.

(** [LanguageInfo]; no entry of the table sets the optional [region] and
    [script] fields, which are left out. *)
Record LanguageInfo := mkLanguageInfo {
  code : string;
  name : string;
  nativeName : string;
  commonCodes : option (list string)   (* alternative codes used in file names *)
}.

Definition COMPREHENSIVE_LANGUAGES : list LanguageInfo :=
  [
    mkLanguageInfo "en" "English" "English" (Some ["en"; "eng"; "english"]);
    mkLanguageInfo "zh" "Chinese (Simplified)" "中文 (简体)" (Some ["zh"; "zh-cn"; "zh-hans"; "zhs"; "chi"; "chinese"; "chs"]);
    mkLanguageInfo "zh-TW" "Chinese (Traditional)" "中文 (繁體)" (Some ["zh-tw"; "zh-hk"; "zh-hant"; "zht"; "cht"; "tc"; "traditional"]);
    mkLanguageInfo "hi" "Hindi" "हिन्दी" (Some ["hi"; "hin"; "hindi"]);
    mkLanguageInfo "es" "Spanish" "Español" (Some ["es"; "spa"; "spanish"; "espanol"]);
    mkLanguageInfo "fr" "French" "Français" (Some ["fr"; "fre"; "fra"; "french"; "francais"]);
    mkLanguageInfo "ar" "Arabic" "العربية" (Some ["ar"; "ara"; "arabic"]);
    mkLanguageInfo "bn" "Bengali" "বাংলা" (Some ["bn"; "ben"; "bengali"]);
    mkLanguageInfo "pt" "Portuguese" "Português" (Some ["pt"; "por"; "portuguese"]);
    mkLanguageInfo "ru" "Russian" "Русский" (Some ["ru"; "rus"; "russian"]);
    mkLanguageInfo "ja" "Japanese" "日本語" (Some ["ja"; "jp"; "jpn"; "japanese"]);
    mkLanguageInfo "de" "German" "Deutsch" (Some ["de"; "ger"; "deu"; "german"; "deutsch"]);
    mkLanguageInfo "ko" "Korean" "한국어" (Some ["ko"; "kr"; "kor"; "korean"]);
    mkLanguageInfo "it" "Italian" "Italiano" (Some ["it"; "ita"; "italian"]);
    mkLanguageInfo "tr" "Turkish" "Türkçe" (Some ["tr"; "tur"; "turkish"]);
    mkLanguageInfo "vi" "Vietnamese" "Tiếng Việt" (Some ["vi"; "vie"; "vietnamese"]);
    mkLanguageInfo "pl" "Polish" "Polski" (Some ["pl"; "pol"; "polish"]);
    mkLanguageInfo "uk" "Ukrainian" "Українська" (Some ["uk"; "ukr"; "ukrainian"]);
    mkLanguageInfo "nl" "Dutch" "Nederlands" (Some ["nl"; "dut"; "nld"; "dutch"]);
    mkLanguageInfo "fa" "Persian" "فارسی" (Some ["fa"; "per"; "fas"; "persian"; "farsi"]);
    mkLanguageInfo "sv" "Swedish" "Svenska" None;
    mkLanguageInfo "no" "Norwegian" "Norsk" None;
    mkLanguageInfo "da" "Danish" "Dansk" None;
    mkLanguageInfo "fi" "Finnish" "Suomi" None;
    mkLanguageInfo "is" "Icelandic" "Íslenska" None;
    mkLanguageInfo "cs" "Czech" "Čeština" None;
    mkLanguageInfo "sk" "Slovak" "Slovenčina" None;
    mkLanguageInfo "hu" "Hungarian" "Magyar" None;
    mkLanguageInfo "ro" "Romanian" "Română" None;
    mkLanguageInfo "bg" "Bulgarian" "Български" None;
    mkLanguageInfo "hr" "Croatian" "Hrvatski" None;
    mkLanguageInfo "sr" "Serbian" "Српски" None;
    mkLanguageInfo "bs" "Bosnian" "Bosanski" None;
    mkLanguageInfo "sl" "Slovenian" "Slovenščina" None;
    mkLanguageInfo "mk" "Macedonian" "Македонски" None;
    mkLanguageInfo "sq" "Albanian" "Shqip" None;
    mkLanguageInfo "et" "Estonian" "Eesti" None;
    mkLanguageInfo "lv" "Latvian" "Latviešu" None;
    mkLanguageInfo "lt" "Lithuanian" "Lietuvių" None;
    mkLanguageInfo "mt" "Maltese" "Malti" None;
    mkLanguageInfo "ga" "Irish" "Gaeilge" None;
    mkLanguageInfo "cy" "Welsh" "Cymraeg" None;
    mkLanguageInfo "eu" "Basque" "Euskera" None;
    mkLanguageInfo "ca" "Catalan" "Català" None;
    mkLanguageInfo "gl" "Galician" "Galego" None;
    mkLanguageInfo "th" "Thai" "ไทย" None;
    mkLanguageInfo "my" "Burmese" "မြန်မာ" None;
    mkLanguageInfo "km" "Khmer" "ភាសាខ្មែរ" None;
    mkLanguageInfo "lo" "Lao" "ພາສາລາວ" None;
    mkLanguageInfo "si" "Sinhala" "සිංහල" None;
    mkLanguageInfo "ta" "Tamil" "தமிழ்" None;
    mkLanguageInfo "te" "Telugu" "తెలుగు" None;
    mkLanguageInfo "kn" "Kannada" "ಕನ್ನಡ" None;
    mkLanguageInfo "ml" "Malayalam" "മലയാളം" None;
    mkLanguageInfo "gu" "Gujarati" "ગુજરાતી" None;
    mkLanguageInfo "pa" "Punjabi" "ਪੰਜਾਬੀ" None;
    mkLanguageInfo "mr" "Marathi" "मराठी" None;
    mkLanguageInfo "ne" "Nepali" "नेपाली" None;
    mkLanguageInfo "ur" "Urdu" "اردو" None;
    mkLanguageInfo "sd" "Sindhi" "سنڌي" None;
    mkLanguageInfo "ps" "Pashto" "پښتو" None;
    mkLanguageInfo "dv" "Maldivian" "ދިވެހި" None;
    mkLanguageInfo "he" "Hebrew" "עברית" None;
    mkLanguageInfo "ku" "Kurdish" "Kurdî" None;
    mkLanguageInfo "az" "Azerbaijani" "Azərbaycan" None;
    mkLanguageInfo "ka" "Georgian" "ქართული" None;
    mkLanguageInfo "hy" "Armenian" "Հայերեն" None;
    mkLanguageInfo "sw" "Swahili" "Kiswahili" None;
    mkLanguageInfo "am" "Amharic" "አማርኛ" None;
    mkLanguageInfo "ti" "Tigrinya" "ትግርኛ" None;
    mkLanguageInfo "om" "Oromo" "Oromoo" None;
    mkLanguageInfo "so" "Somali" "Soomaali" None;
    mkLanguageInfo "ha" "Hausa" "Hausa" None;
    mkLanguageInfo "yo" "Yoruba" "Yorùbá" None;
    mkLanguageInfo "ig" "Igbo" "Igbo" None;
    mkLanguageInfo "zu" "Zulu" "IsiZulu" None;
    mkLanguageInfo "xh" "Xhosa" "IsiXhosa" None;
    mkLanguageInfo "af" "Afrikaans" "Afrikaans" None;
    mkLanguageInfo "es-MX" "Spanish (Mexico)" "Español (México)" None;
    mkLanguageInfo "es-AR" "Spanish (Argentina)" "Español (Argentina)" None;
    mkLanguageInfo "es-CO" "Spanish (Colombia)" "Español (Colombia)" None;
    mkLanguageInfo "es-CL" "Spanish (Chile)" "Español (Chile)" None;
    mkLanguageInfo "es-PE" "Spanish (Peru)" "Español (Perú)" None;
    mkLanguageInfo "es-VE" "Spanish (Venezuela)" "Español (Venezuela)" None;
    mkLanguageInfo "pt-BR" "Portuguese (Brazil)" "Português (Brasil)" None;
    mkLanguageInfo "pt-PT" "Portuguese (Portugal)" "Português (Portugal)" None;
    mkLanguageInfo "en-US" "English (US)" "English (US)" None;
    mkLanguageInfo "en-GB" "English (UK)" "English (UK)" None;
    mkLanguageInfo "en-AU" "English (Australia)" "English (Australia)" None;
    mkLanguageInfo "en-CA" "English (Canada)" "English (Canada)" None;
    mkLanguageInfo "fr-FR" "French (France)" "Français (France)" None;
    mkLanguageInfo "fr-CA" "French (Canada)" "Français (Canada)" None;
    mkLanguageInfo "fr-CH" "French (Switzerland)" "Français (Suisse)" None;
    mkLanguageInfo "fr-BE" "French (Belgium)" "Français (Belgique)" None;
    mkLanguageInfo "de-DE" "German (Germany)" "Deutsch (Deutschland)" None;
    mkLanguageInfo "de-AT" "German (Austria)" "Deutsch (Österreich)" None;
    mkLanguageInfo "de-CH" "German (Switzerland)" "Deutsch (Schweiz)" None;
    mkLanguageInfo "ar-SA" "Arabic (Saudi Arabia)" "العربية (السعودية)" None;
    mkLanguageInfo "ar-EG" "Arabic (Egypt)" "العربية (مصر)" None;
    mkLanguageInfo "ar-AE" "Arabic (UAE)" "العربية (الإمارات)" None;
    mkLanguageInfo "ar-MA" "Arabic (Morocco)" "العربية (المغرب)" None;
    mkLanguageInfo "id" "Indonesian" "Bahasa Indonesia" None;
    mkLanguageInfo "ms" "Malay" "Bahasa Melayu" None;
    mkLanguageInfo "tl" "Filipino" "Filipino" None;
    mkLanguageInfo "ceb" "Cebuano" "Cebuano" None;
    mkLanguageInfo "haw" "Hawaiian" "ʻŌlelo Hawaiʻi" None;
    mkLanguageInfo "mi" "Māori" "Te Reo Māori" None;
    mkLanguageInfo "sm" "Samoan" "Gagana Sāmoa" None;
    mkLanguageInfo "to" "Tongan" "Lea Fakatonga" None;
    mkLanguageInfo "fj" "Fijian" "Na Vosa Vakaviti" None;
    mkLanguageInfo "eo" "Esperanto" "Esperanto" None;
    mkLanguageInfo "ia" "Interlingua" "Interlingua" None;
    mkLanguageInfo "vo" "Volapük" "Volapük" None;
    mkLanguageInfo "asl" "American Sign Language" "ASL" None;
    mkLanguageInfo "bsl" "British Sign Language" "BSL" None;
    mkLanguageInfo "jsl" "Japanese Sign Language" "JSL" None;
    mkLanguageInfo "zxx" "No Linguistic Content" "No Language" None;
    mkLanguageInfo "mul" "Multiple Languages" "Multiple" None;
    mkLanguageInfo "und" "Undetermined" "Unknown" None
  ].

(** The callback of [find] in [getLanguageByCommonCode]:
<<
  lang.code.toLowerCase() === normalizedCode ||
  lang.commonCodes?.some(c => c.toLowerCase() === normalizedCode)
>> *)
Definition matches_code (normalizedCode : string) (lang : LanguageInfo) : bool :=
  String.eqb (toLowerCase (code lang)) normalizedCode
  || match commonCodes lang with
     | Some codes => existsb (fun c => String.eqb (toLowerCase c) normalizedCode) codes
     | None => false
     end.

Definition getLanguageByCommonCode (code : string) : option LanguageInfo :=
  let normalizedCode := trim (toLowerCase code) in
  List.find (matches_code normalizedCode) COMPREHENSIVE_LANGUAGES.

(** [s\d+e\d+] and [\d+x\d+] *)
Definition episode_re : regex :=
  Seq (Chr "s") (Seq (Rep Digit 1 None) (Seq (Chr "e") (Rep Digit 1 None))).
Definition season_re : regex :=
  Seq (Rep Digit 1 None) (Seq (Chr "x") (Rep Digit 1 None)).

(** [/^(srt|ass|vtt|sub|idx|ssa|txt|s\d+e\d+|\d+x\d+)$/] *)
Definition skip_re : regex :=
  Seq (Group 1
         (Alt (lit "srt" Eps)
         (Alt (lit "ass" Eps)
         (Alt (lit "vtt" Eps)
         (Alt (lit "sub" Eps)
         (Alt (lit "idx" Eps)
         (Alt (lit "ssa" Eps)
         (Alt (lit "txt" Eps)
         (Alt episode_re season_re)))))))))
      Eoi.

(** [part.match(/^(...)$/)] as a condition. *)
Definition is_skipped (part : string) : bool :=
  match match_start skip_re (list_ascii_of_string part) with
  | Some _ => true
  | None => false
  end.

(** One turn of the loop of [extractLanguageFromFilename]. *)
Definition visit_part (foundLanguages : list LanguageInfo) (part : string)
    : list LanguageInfo :=
  if is_skipped part then foundLanguages
  else
    match getLanguageByCommonCode part with
    | Some language =>
        if existsb (fun l => String.eqb (code l) (code language)) foundLanguages
        then foundLanguages
        else foundLanguages ++ [language]
    | None => foundLanguages
    end.

(** [extractLanguageFromFilename]:
<<
  const foundLanguages = [];
  const parts = filename.toLowerCase().split('.');
  for (const part of parts) {
    if (part.match(/^(srt|...)$/)) continue;
    const language = getLanguageByCommonCode(part);
    if (language && !foundLanguages.find(l => l.code === language.code))
      foundLanguages.push(language);
  }
  return foundLanguages;
>> *)
Definition extractLanguageFromFilename (filename : string) : list LanguageInfo :=
  fold_left visit_part (split_dot (toLowerCase filename)) [].

(** *** The behaviour in the words of the specification *)

(** The names a table entry answers to: its code and its common codes. *)
Definition keys (lang : LanguageInfo) : list string :=
  code lang :: match commonCodes lang with Some codes => codes | None => [] end.

(** A segment names a language when it equals one of its keys, letter case
    aside. *)
Definition names (segment : string) (lang : LanguageInfo) : Prop :=
  exists key, In key (keys lang) /\ toLowerCase key = toLowerCase segment.

(** The same, after the white space around the segment is dropped. *)
Definition identifies (segment : string) (lang : LanguageInfo) : Prop :=
  exists key, In key (keys lang) /\ toLowerCase key = trim (toLowerCase segment).

(** The segments of a file name that are looked up in the table. *)
Definition candidate_segments (filename : string) : list string :=
  List.filter (fun seg => negb (is_skipped (toLowerCase seg))) (split_dot filename).

(** The language each candidate segment identifies, in segment order. *)
Definition identified (filename : string) : list LanguageInfo :=
  omap getLanguageByCommonCode (candidate_segments filename).

(** Keep the first entry of every code. *)
Fixpoint first_occurrences (l : list LanguageInfo) : list LanguageInfo :=
  match l with
  | [] => []
  | x :: l' =>
      x :: List.filter (fun y => negb (String.eqb (code y) (code x)))
             (first_occurrences l')
  end.

(** The entries of [l] whose code is not yet among [found]. *)
Definition unseen (found l : list LanguageInfo) : list LanguageInfo :=
  List.filter
    (fun y => negb (existsb (fun l => String.eqb (code l) (code y)) found)) l.

#[global] Instance LanguageInfo_eq_dec : EqDecision LanguageInfo.
Proof. solve_decision. Defined.

(** The table answers to each of its keys with the entry that lists it. *)
Definition table_unambiguous : Prop :=
  Forall (fun lang =>
    Forall (fun key =>
      List.find (matches_code (toLowerCase key)) COMPREHENSIVE_LANGUAGES = Some lang)
      (keys lang))
    COMPREHENSIVE_LANGUAGES.

(** The segments that are skipped: the subtitle extensions, and the
    episode numbers [s<digits>e<digits>] and [<digits>x<digits>]. *)
Definition digits (w : chars) : Prop := forallb is_digit w = true /\ 1 <= length w.

Definition skip_words : list string :=
  ["srt"; "ass"; "vtt"; "sub"; "idx"; "ssa"; "txt"].

Definition skippable (part : string) : Prop :=
  In part skip_words
  \/ (exists n m, digits n /\ digits m
        /\ list_ascii_of_string part = "s"%char :: n ++ "e"%char :: m)
  \/ (exists n m, digits n /\ digits m
        /\ list_ascii_of_string part = n ++ "x"%char :: m).

End Lang.

(** ** The synthesis pipeline: synchronize, merge, report

    The back end (subtitle service, synchronizer, job queue, bulk
    processor) is not among the sources: the front end only declares the
    shapes of its answers ([DualSubtitleConfig], [DualSubtitleResult],
    [JobProgress], [Job]).  This module models the pipeline from the
    specification's component design. *)

Module Pipeline.

(** Modelled from the spec: the slot of a cue in the output,
    "primary/secondary"; the back end's tagging is missing. *)
Inductive Slot := Primary | Secondary.

#[global] Instance Slot_eq_dec : EqDecision Slot.
Proof. solve_decision. Defined.

(** Modelled from the spec: the cue of the data model, "start time, end
    time, plain text, optional style hints"; the back end's cue type is
    missing.  Times are in milliseconds; the slot is the tag the merge puts
    on a cue, from which the serializer derives position and colour. *)
Record Cue := mkCue {
  cue_start : N;
  cue_end : N;
  cue_text : string;
  cue_slot : option Slot
}.

(** Modelled from the spec: the track of the data model, "an ordered
    sequence of Cues plus metadata"; the back end's track type is missing. *)
Record Track := mkTrack {
  language : string;
  cues : list Cue
}.

(** [DualSubtitleConfig] of the front end's API types; an absent flag is
    false. *)
Record DualSubtitleConfig := mkConfig {
  primary_language : string;
  secondary_language : string;
  enable_sync : bool;
  enable_language_prefix : bool
}.

(** *** Dual Merge Engine *)

(** Modelled from the spec: the upper case of the prefix "[EN]"; the back
    end's formatting is missing. *)
Definition upper_char (c : ascii) : ascii :=
  if Regex.is_lower c then ascii_of_nat (Regex.code_unit c - 32) else c.

Fixpoint toUpperCase (s : string) : string :=
  match s with
  | EmptyString => EmptyString
  | String c s' => String (upper_char c) (toUpperCase s')
  end.

(** Modelled from the spec: the "bracketed language prefix (e.g., [EN])";
    the back end's formatting is missing. *)
Definition language_prefix (lang : string) : string :=
  "[" +:+ toUpperCase lang +:+ "] ".

(** Modelled from the spec: "tagging each Cue with its slot" and
    "optionally prepend a bracketed language prefix to each Cue's text when
    enabled"; the back end's merge is missing. *)
Definition place (slot : Slot) (prefix : bool) (lang : string) (c : Cue) : Cue :=
  mkCue (cue_start c) (cue_end c)
        (if prefix then language_prefix lang +:+ cue_text c else cue_text c)
        (Some slot).

(** Modelled from the spec: "Output Cues are sorted by start time; stable
    sort preserves primary-before-secondary order for Cues sharing
    identical start times" -- a stable insertion sort. *)
Fixpoint insert_cue (c : Cue) (l : list Cue) : list Cue :=
  match l with
  | [] => [c]
  | d :: l' =>
      if (cue_start d <? cue_start c)%N then d :: insert_cue c l' else c :: l
  end.

(** Modelled from the spec: the sort of the output cues by start time,
    insertion after insertion; the back end's merge is missing. *)
Fixpoint sort_cues (l : list Cue) : list Cue :=
  match l with
  | [] => []
  | c :: l' => insert_cue c (sort_cues l')
  end.

(** Modelled from the spec: [Merge(primaryTrack, secondaryTrack, config)],
    "the merge concatenates the two Cue streams into one output Track";
    the back end's merge is missing. *)
Definition Merge (primaryTrack secondaryTrack : Track) (config : DualSubtitleConfig)
    : Track :=
  let prefix := enable_language_prefix config in
  mkTrack
    (primary_language config +:+ "-" +:+ secondary_language config)
    (sort_cues
       (map (place Primary prefix (primary_language config)) (cues primaryTrack)
        ++ map (place Secondary prefix (secondary_language config))
               (cues secondaryTrack))).

(** *** Synchronizer Adapter *)

(** Modelled from the spec: "Two reference modes: sync-to-media and
    sync-to-track"; the back end's synchronizer is missing. *)
Inductive Reference (Media : Type) :=
| RefMedia (m : Media)       (* sync-to-media *)
| RefTrack (t : Track).      (* sync-to-track *)

Arguments RefMedia {Media}.
Arguments RefTrack {Media}.

(** Modelled from the spec: what one run of the external tool can end in,
    "tool missing, timeout, non-zero exit" or an exit code with the
    synchronized track; the back end's synchronizer is missing. *)
Inductive ToolOutcome :=
| Exited (exit_code : Z) (output : Track)
| TimedOut
| ToolMissing.

(** Modelled from the spec: "any non-zero exit or timeout is treated as
    sync unavailable"; the back end's synchronizer is missing. *)
Definition tool_failed (o : ToolOutcome) : Prop :=
  match o with
  | Exited 0 _ => False
  | _ => True
  end.

(** Modelled from the spec: one invocation of [Synchronize], target and
    reference; the back end's synchronizer is missing. *)
Record SyncCall (Media : Type) := mkSyncCall {
  call_target : Track;
  call_reference : Reference Media
}.

Arguments mkSyncCall {Media}.
Arguments call_target {Media}.
Arguments call_reference {Media}.

(** What a computation of the pipeline leaves behind: the adapter calls it
    made, in order, and the warnings it collected. *)
Record Trace (Media : Type) := mkTrace {
  trace_calls : list (SyncCall Media);
  trace_warnings : list string
}.

Arguments mkTrace {Media}.
Arguments trace_calls {Media}.
Arguments trace_warnings {Media}.

(** A value together with the trace of computing it. *)
Definition Logged (Media A : Type) : Type := A * Trace Media.

Definition ret {Media A : Type} (x : A) : Logged Media A := (x, mkTrace [] []).

Definition bind {Media A B : Type} (m : Logged Media A) (f : A -> Logged Media B)
    : Logged Media B :=
  let (x, t1) := m in
  let (y, t2) := f x in
  (y, mkTrace (trace_calls t1 ++ trace_calls t2)
              (trace_warnings t1 ++ trace_warnings t2)).

Notation "'do' x <- m ;; k" := (bind m (fun x => k))
  (at level 10, x name, m at level 99, k at level 200,
   format "'[v' 'do'  x  <-  m  ;;  '/' k ']'").

Section Synchronizer.

(** The media file the subtitles belong to. *)
Variable Media : Type.

(** The external synchronization tool, run under the configured timeout:
    [sync(inputPath, referencePath, outputPath) -> exitCode]. *)
Variable tool : Track -> Reference Media -> ToolOutcome.

(** Modelled from the spec: [Synchronize(targetTrack, reference,
    timeoutSeconds)], "On timeout or tool failure, the adapter returns the
    original, unsynchronized Track plus a warning rather than failing";
    the back end's synchronizer is missing.  Every invocation is logged. *)
Definition Synchronize (target : Track) (reference : Reference Media)
    : Logged Media Track :=
  let call := mkSyncCall target reference in
  match tool target reference with
  | Exited 0 output => (output, mkTrace [call] [])
  | Exited _ _ =>
      (target,
       mkTrace [call]
         ["sync unavailable: tool exited with an error; original timing kept"])
  | TimedOut =>
      (target,
       mkTrace [call] ["sync unavailable: tool timed out; original timing kept"])
  | ToolMissing =>
      (target,
       mkTrace [call] ["sync unavailable: tool not found; original timing kept"])
  end.

(** Modelled from the spec: the hybrid sync policy, "the primary Track is
    always synced to media; the secondary Track is synced to the
    now-aligned primary Track"; the back end's pipeline is missing. *)
Definition hybrid_sync (media : Media) (primaryTrack secondaryTrack : Track)
    : Logged Media (Track * Track) :=
  do syncedPrimary <- Synchronize primaryTrack (RefMedia media) ;;
  do syncedSecondary <- Synchronize secondaryTrack (RefTrack syncedPrimary) ;;
  ret (syncedPrimary, syncedSecondary).

(** *** One dual-subtitle creation *)

(** The [details] of [DualSubtitleResult], as the front end declares them. *)
Record Details := mkDetails {
  primary_lines : nat;
  secondary_lines : nat;
  total_lines : nat;
  format : string;
  sync_warnings : list string
}.

(** Modelled from the spec: the answer of a creation -- the output track
    (the file written), the declared details, and the adapter calls that
    were made; the back end's subtitle service is missing. *)
Record DualSubtitleResult := mkResult {
  output : Track;
  details : Details;
  sync_calls : list (SyncCall Media)
}.

(** Modelled from the spec: the error taxonomy, "Input errors" and
    "Orchestration errors (invalid configuration, e.g., primary equals
    secondary)"; the back end's errors are missing. *)
Inductive PipelineError :=
| InvalidConfiguration (message : string)    (* orchestration error *)
| InputError (message : string).             (* input error *)

(** Modelled from the spec: "primary and secondary must reference distinct
    Tracks; both Tracks must have at least one Cue", the control flow
    "Synchronize (if enabled) -> Merge -> write output" and the result
    details; the back end's subtitle service is missing. *)
Definition create_dual_subtitle (config : DualSubtitleConfig) (media : Media)
    (primaryTrack secondaryTrack : Track)
    : PipelineError + DualSubtitleResult :=
  if String.eqb (primary_language config) (secondary_language config)
  then inl (InvalidConfiguration "primary and secondary language are the same")
  else
    match cues primaryTrack, cues secondaryTrack with
    | [], _ => inl (InputError "primary subtitle has no cues")
    | _, [] => inl (InputError "secondary subtitle has no cues")
    | _, _ =>
        let '(p, s, trace) :=
          if enable_sync config
          then hybrid_sync media primaryTrack secondaryTrack
          else ret (primaryTrack, secondaryTrack) in
        let merged := Merge p s config in
        inr (mkResult merged
               (mkDetails (length (cues p)) (length (cues s))
                          (length (cues merged)) "srt" (trace_warnings trace))
               (trace_calls trace))
    end.

End Synchronizer.

Arguments mkResult {Media}.
Arguments output {Media}.
Arguments details {Media}.
Arguments sync_calls {Media}.

(** Modelled from the spec: a request the pipeline accepts, "primary and
    secondary must reference distinct Tracks; both Tracks must have at
    least one Cue". *)
Definition valid_request (config : DualSubtitleConfig)
    (primaryTrack secondaryTrack : Track) : Prop :=
  primary_language config <> secondary_language config
  /\ cues primaryTrack <> [] /\ cues secondaryTrack <> [].

(** Start times never decrease along the list. *)
Definition by_start (c d : Cue) : Prop := (cue_start c <= cue_start d)%N.

(** *** Example tracks *)

(** [n] cues, one every two seconds, starting at [offset] milliseconds. *)
Definition sample_cues (offset : N) (n : nat) (text : string) : list Cue :=
  map (fun i => mkCue (offset + 2000 * N.of_nat i) (offset + 2000 * N.of_nat i + 1500)
                      text None)
      (seq 0 n).

Definition english_120 : Track := mkTrack "en" (sample_cues 0 120 "Hello").
Definition japanese_118 : Track := mkTrack "ja" (sample_cues 500 118 "Konnichiwa").

Definition prefixed_config : DualSubtitleConfig := mkConfig "en" "ja" false true.
Definition synced_config : DualSubtitleConfig := mkConfig "en" "ja" true true.



(** A tool that always runs out of time. *)
Definition stuck_tool (t : Track) (r : Reference string) : ToolOutcome := TimedOut.

End Pipeline.

(** ** Job records, the job store and the bulk orchestrator

    The job queue and the bulk processor are not among the sources either;
    the front end declares what a job looks like ([JobStatus],
    [JobProgress], [JobResultItem], [JobResult], [Job]).  The store and the
    orchestrator are modelled from the specification. *)

Module Jobs.

(** [JobStatus] *)
Inductive JobStatus := pending | running | completed | failed | cancelled.

#[global] Instance JobStatus_eq_dec : EqDecision JobStatus.
Proof. solve_decision. Defined.

(** Modelled from the spec: the terminal states, "exactly one terminal
    state" among completed, failed and cancelled. *)
Definition terminal (s : JobStatus) : bool :=
  match s with
  | completed | failed | cancelled => true
  | pending | running => false
  end.

(** Modelled from the spec: "kind (single dual-create | bulk
    dual-create)"; the job queue is missing. *)
Inductive JobKind := SingleDualCreate | BulkDualCreate.

(** [JobProgress]; the free-form [details] record is left out. *)
Record JobProgress := mkProgress {
  current_step : string;
  current_item : string;
  processed : nat;
  total : nat;
  percentage : nat;
  estimated_time_remaining : string
}.

(** [JobResultItem] *)
Record JobResultItem := mkItem {
  episode_id : string;
  episode_title : string;
  output_path : option string;
  error : option string;
  reason : option string
}.

(** [JobResult] *)
Record JobResult := mkJobResult {
  successful : list JobResultItem;
  failed_items : list JobResultItem;
  skipped : list JobResultItem
}.

(** [Job], with two fields that the specification implies: the
    cancellation request that the orchestrator polls, and the sequence of
    progress updates committed so far, oldest first. *)
Record Job := mkJob {
  kind : JobKind;
  status : JobStatus;
  progress : JobProgress;
  result : option JobResult;
  job_error : option string;
  cancel_requested : bool;
  updates : list JobProgress
}.

Definition no_progress : JobProgress := mkProgress "" "" 0 0 0 "".

(** *** Job Record & Store *)

(** Modelled from the spec: [Create(kind, payload) -> JobId], "A Job is
    created in pending"; the job queue is missing.  The identifier is the
    caller's. *)
Definition Create (id : string) (k : JobKind) (store : gmap string Job) : gmap string Job :=
  <[id := mkJob k pending no_progress None None false []]> store.

(** Modelled from the spec: [Get(JobId) -> Job]. *)
Definition Get (id : string) (store : gmap string Job) : option Job := store !! id.

Definition set_status (s : JobStatus) (j : Job) : Job :=
  mkJob (kind j) s (progress j) (result j) (job_error j) (cancel_requested j) (updates j).

(** Modelled from the spec: "pending -> running: scheduler dequeues and
    begins execution". *)
Definition Start (id : string) (store : gmap string Job) : gmap string Job :=
  alter (fun j => if decide (status j = pending) then set_status running j else j)
        id store.

(** Modelled from the spec: [UpdateProgress(JobId, progress)], "Once
    terminal, a Job is immutable"; the update is committed on a running job
    and joins its sequence of updates. *)
Definition UpdateProgress (id : string) (p : JobProgress) (store : gmap string Job) : gmap string Job :=
  alter (fun j =>
           if decide (status j = running)
           then mkJob (kind j) (status j) p (result j) (job_error j)
                      (cancel_requested j) (updates j ++ [p])
           else j)
        id store.

(** Modelled from the spec: [Complete(JobId, result)], "running ->
    completed: result recorded". *)
Definition Complete (id : string) (r : JobResult) (store : gmap string Job) : gmap string Job :=
  alter (fun j =>
           if decide (status j = running)
           then mkJob (kind j) completed (progress j) (Some r) (job_error j)
                      (cancel_requested j) (updates j)
           else j)
        id store.

(** Modelled from the spec: [Fail(JobId, error)], "running -> failed: error
    text recorded". *)
Definition Fail (id : string) (e : string) (store : gmap string Job) : gmap string Job :=
  alter (fun j =>
           if decide (status j = running)
           then mkJob (kind j) failed (progress j) (result j) (Some e)
                      (cancel_requested j) (updates j)
           else j)
        id store.

(** Modelled from the spec: [Cancel(JobId) -> bool], "requests cooperative
    termination; it is a no-op returning false on an already-terminal
    Job". *)
Definition Cancel (id : string) (store : gmap string Job) : bool * gmap string Job :=
  match store !! id with
  | Some j =>
      if terminal (status j) then (false, store)
      else (true,
            <[id := mkJob (kind j) (status j) (progress j) (result j) (job_error j)
                          true (updates j)]> store)
  | None => (false, store)
  end.

(** Modelled from the spec: "running -> cancelled: a cancellation request
    was observed at the next cooperative checkpoint", "partial result
    preserved". *)
Definition ObserveCancel (id : string) (partial : JobResult) (store : gmap string Job) : gmap string Job :=
  alter (fun j =>
           if decide (status j = running)
           then mkJob (kind j) cancelled (progress j) (Some partial) (job_error j)
                      (cancel_requested j) (updates j)
           else j)
        id store.

(** Modelled from the spec: the poll of the cancellation request at a
    cooperative checkpoint; the bulk processor is missing. *)
Definition cancellation_pending (id : string) (store : gmap string Job) : bool :=
  match store !! id with
  | Some j => cancel_requested j
  | None => false
  end.

(** *** Job Scheduler/Orchestrator *)

(** Modelled from the spec: an episode of the worklist, identifier and
    label; the bulk processor is missing. *)
Record Episode := mkEpisode {
  ep_id : string;
  ep_title : string
}.

(** Modelled from the spec: how one episode ends, "successful, failed (with
    reason), or skipped"; the bulk processor is missing. *)
Inductive Outcome :=
| Succeeded (path : string)
| FailedWith (err : string)
| SkippedFor (why : string).

(** Modelled from the spec: the result's "lists of successful/failed/skipped
    items, each carrying an identifier and either output-path or
    error/reason text"; the bulk processor is missing. *)
Definition record_outcome (ep : Episode) (o : Outcome) (r : JobResult) : JobResult :=
  match o with
  | Succeeded path =>
      mkJobResult
        (successful r ++ [mkItem (ep_id ep) (ep_title ep) (Some path) None None])
        (failed_items r) (skipped r)
  | FailedWith err =>
      mkJobResult (successful r)
        (failed_items r ++ [mkItem (ep_id ep) (ep_title ep) None (Some err) None])
        (skipped r)
  | SkippedFor why =>
      mkJobResult (successful r) (failed_items r)
        (skipped r ++ [mkItem (ep_id ep) (ep_title ep) None None (Some why)])
  end.

(** Modelled from the spec: "classify the episode outcome as successful,
    failed (with reason), or skipped" -- how the orchestrator reads the
    answer of one creation that writes to [path]; the bulk processor is
    missing. *)
Definition outcome_of_creation {Media : Type} (path : string)
    (answer : Pipeline.PipelineError + Pipeline.DualSubtitleResult Media) : Outcome :=
  match answer with
  | inr _ => Succeeded path
  | inl (Pipeline.InvalidConfiguration message) => FailedWith message
  | inl (Pipeline.InputError message) => FailedWith message
  end.

(** Modelled from the spec: the progress written after [done] of [all]
    items, "processed count, total count, percentage"; the bulk processor
    is missing. *)
Definition progress_after (item : string) (done all : nat) : JobProgress :=
  mkProgress "Processing episodes" item done all (done * 100 / all) "".

Section Orchestrator.

(** The pipeline run on one episode (identify, synchronize, merge, write),
    reduced to its outcome. *)
Variable process : Episode -> Outcome.

(** Whether a cancellation request reaches the store before the
    orchestrator arrives at the checkpoint in front of item [i]. *)
Variable cancel_arrives : nat -> bool.

(** Modelled from the spec: the bulk execution algorithm, "for each
    worklist episode ... classify the episode outcome ...; update progress
    after each episode", with cancellation "polled at episode
    boundaries"; the bulk processor is missing.  [i] items are done,
    [all] is the size of the worklist. *)
Fixpoint bulk_loop (id : string) (all i : nat) (worklist : list Episode)
    (acc : JobResult) (store : gmap string Job) : gmap string Job :=
  match worklist with
  | [] => Complete id acc store
  | ep :: rest =>
      let store := if cancel_arrives i then snd (Cancel id store) else store in
      if cancellation_pending id store then ObserveCancel id acc store
      else
        let acc := record_outcome ep (process ep) acc in
        let store := UpdateProgress id (progress_after (ep_title ep) (S i) all) store in
        bulk_loop id all (S i) rest acc store
  end.

Definition empty_result : JobResult := mkJobResult [] [] [].

(** Modelled from the spec: a bulk job from creation to its terminal
    state. *)
Definition run_bulk (id : string) (worklist : list Episode) (store : gmap string Job) : gmap string Job :=
  let store := Create id BulkDualCreate store in
  let store := Start id store in
  let store :=
    UpdateProgress id (progress_after "" 0 (length worklist)) store in
  bulk_loop id (length worklist) 0 worklist empty_result store.

(** Modelled from the spec: a single dual-subtitle job; "running ->
    failed" when the one item fails, "running -> completed" when it
    succeeds. *)
Definition run_single (id : string) (ep : Episode) (store : gmap string Job) : gmap string Job :=
  let store := Create id SingleDualCreate store in
  let store := Start id store in
  let store := UpdateProgress id (progress_after (ep_title ep) 0 1) store in
  match process ep with
  | FailedWith err => Fail id err store
  | o =>
      let store := UpdateProgress id (progress_after (ep_title ep) 1 1) store in
      Complete id (record_outcome ep o empty_result) store
  end.

End Orchestrator.

(** The property of the specification: the processed counts of a sequence
    of updates never decrease and never exceed the total. *)
Definition monotone_progress (l : list JobProgress) : Prop :=
  StronglySorted (fun p q => processed p <= processed q) l
  /\ Forall (fun p => processed p <= total p) l.

(** [i] items are done: every committed update counts at most [i] items
    out of [all]. *)
Definition counted (all i : nat) (l : list JobProgress) : Prop :=
  StronglySorted (fun p q => processed p <= processed q) l
  /\ Forall (fun p => processed p <= i /\ total p = all) l.

(** *** Example run *)

Definition three_episodes : list Episode :=
  [mkEpisode "e01" "Pilot"; mkEpisode "e02" "Second"; mkEpisode "e03" "Third"].

Definition sample_process (ep : Episode) : Outcome :=
  if String.eqb (ep_id ep) "e02" then FailedWith "no Japanese subtitle"
  else Succeeded (ep_id ep +:+ ".dual.en-ja.srt").

Definition cancel_before_third (i : nat) : bool := (i =? 2).

End Jobs.

(** ** More of the language table: exact lookup and the file-name test *)

Module LangLookup.
Import Regex Lang.

(** [getLanguageByCode]:
<<
  return COMPREHENSIVE_LANGUAGES.find(lang => lang.code === code);
>> *)
Definition getLanguageByCode (c : string) : option LanguageInfo :=
  List.find (fun lang => String.eqb (code lang) c) COMPREHENSIVE_LANGUAGES.

(** [lang.commonCodes?.includes(c)]: an entry without common codes gives
    [undefined], which [some] treats as false. *)
Definition common_includes (c : string) (lang : LanguageInfo) : bool :=
  match commonCodes lang with
  | Some codes => existsb (String.eqb c) codes
  | None => false
  end.

(** [filenameContainsLanguages]:
<<
  const detectedLanguages = extractLanguageFromFilename(filename);
  const detectedCodes = detectedLanguages.map(l => l.code);
  return languageCodes.every(code =>
    detectedCodes.includes(code) ||
    detectedLanguages.some(lang => lang.commonCodes?.includes(code.toLowerCase())));
>> *)
Definition filenameContainsLanguages (filename : string)
    (languageCodes : list string) : bool :=
  let detectedLanguages := extractLanguageFromFilename filename in
  let detectedCodes := map code detectedLanguages in
  forallb (fun c =>
             existsb (String.eqb c) detectedCodes
             || existsb (common_includes (toLowerCase c)) detectedLanguages)
          languageCodes.

(** A string of white space only (possibly empty). *)
Definition all_white (s : string) : Prop :=
  forallb is_white (list_ascii_of_string s) = true.

(** No key of the table changes under [trim]. *)
Definition keys_trimmed : Prop :=
  Forall (fun lang => Forall (fun key => trim (toLowerCase key) = toLowerCase key) (keys lang))
         COMPREHENSIVE_LANGUAGES.

(** No key of the table is one of the skipped segments. *)
Definition keys_kept : Prop :=
  Forall (fun lang => Forall (fun key => is_skipped (toLowerCase key) = false) (keys lang))
         COMPREHENSIVE_LANGUAGES.

End LangLookup.

(** ** The language-discovery step of the bulk wizard *)

Module Discovery.
Import Bulk.

Local Open Scope Z_scope.

(** The comparator of the sort,
    [([, a], [, b]) => b.episodes_available - a.episodes_available]:
    a negative value puts the first argument first. *)
Definition by_availability (a b : string * LanguageAvailability) : Z :=
  episodes_available (snd b) - episodes_available (snd a).

(** [Array.prototype.sort] is stable: an entry goes before the entries
    that the comparator does not put strictly before it. *)
Fixpoint insert_entry (x : string * LanguageAvailability)
    (l : list (string * LanguageAvailability)) : list (string * LanguageAvailability) :=
  match l with
  | [] => [x]
  | y :: l' => if by_availability y x <? 0 then y :: insert_entry x l' else x :: l
  end.

Definition sort_entries (l : list (string * LanguageAvailability))
    : list (string * LanguageAvailability) :=
  foldr insert_entry [] l.

(** The local state of the step: the two selected languages, the empty
    string when none is selected. *)
Record Selection := mkSelection {
  primaryLanguage : string;
  secondaryLanguage : string
}.

(** [analysis?.language_availability[language]] as a condition. *)
Definition available (analysis : option SubtitleAnalysis) (language : string) : bool :=
  match analysis with
  | Some a => bool_decide (is_Some (language_availability a !! language))
  | None => false
  end.

(** [canContinue], the condition under which the CONTINUE button is
    enabled:
<<
  primaryLanguage && secondaryLanguage && primaryLanguage !== secondaryLanguage &&
  analysis?.language_availability[primaryLanguage] &&
  analysis?.language_availability[secondaryLanguage]
>> *)
Definition canContinue (analysis : option SubtitleAnalysis) (st : Selection) : bool :=
  negb (String.eqb (primaryLanguage st) "")
  && negb (String.eqb (secondaryLanguage st) "")
  && negb (String.eqb (primaryLanguage st) (secondaryLanguage st))
  && available analysis (primaryLanguage st)
  && available analysis (secondaryLanguage st).

(** [handleContinue]: the languages handed to [onLanguageSelect], if any.
<<
  if (primaryLanguage && secondaryLanguage && primaryLanguage !== secondaryLanguage) {
    onLanguageSelect(primaryLanguage, secondaryLanguage);
  }
>> *)
Definition handleContinue (st : Selection) : option (string * string) :=
  if negb (String.eqb (primaryLanguage st) "")
     && negb (String.eqb (secondaryLanguage st) "")
     && negb (String.eqb (primaryLanguage st) (secondaryLanguage st))
  then Some (primaryLanguage st, secondaryLanguage st)
  else None.

(** The click on the chip of a language:
<<
  if (!primaryLanguage) { setPrimaryLanguage(languageCode); }
  else if (!secondaryLanguage && languageCode !== primaryLanguage) { setSecondaryLanguage(languageCode); }
  else if (languageCode === primaryLanguage) { setPrimaryLanguage(''); }
  else if (languageCode === secondaryLanguage) { setSecondaryLanguage(''); }
>> *)
Definition clickChip (languageCode : string) (st : Selection) : Selection :=
  if String.eqb (primaryLanguage st) "" then
    mkSelection languageCode (secondaryLanguage st)
  else if String.eqb (secondaryLanguage st) ""
          && negb (String.eqb languageCode (primaryLanguage st)) then
    mkSelection (primaryLanguage st) languageCode
  else if String.eqb languageCode (primaryLanguage st) then
    mkSelection "" (secondaryLanguage st)
  else if String.eqb languageCode (secondaryLanguage st) then
    mkSelection (primaryLanguage st) ""
  else st.

(** [previewData]: present once both languages are selected.
<<
  primaryLanguage && secondaryLanguage ? {
    primary: analysis.language_availability[primaryLanguage],
    secondary: analysis.language_availability[secondaryLanguage],
    compatible: Math.min(...)
  } : null
>> *)
Record PreviewData := mkPreviewData {
  primary : option LanguageAvailability;
  secondary : option LanguageAvailability;
  compatible_count : Z
}.

Definition previewData (analysis : SubtitleAnalysis) (st : Selection) : option PreviewData :=
  if negb (String.eqb (primaryLanguage st) "") && negb (String.eqb (secondaryLanguage st) "")
  then Some (mkPreviewData
               (language_availability analysis !! primaryLanguage st)
               (language_availability analysis !! secondaryLanguage st)
               (compatible analysis (primaryLanguage st) (secondaryLanguage st)))
  else None.

(** The PARTIAL and SKIP figures of the preview.  They read
    [previewData.primary.episodes_available], which throws when the
    language is not in the analysis: the figure is then [None].
<<
  Math.max(previewData.primary.episodes_available,
           previewData.secondary.episodes_available) - previewData.compatible
  analysis.total_episodes - Math.max(previewData.primary.episodes_available,
                                     previewData.secondary.episodes_available)
>> *)
Definition partial_figure (d : PreviewData) : option Z :=
  match primary d, secondary d with
  | Some pa, Some sa =>
      Some (Z.max (episodes_available pa) (episodes_available sa) - compatible_count d)
  | _, _ => None
  end.

Definition skip_figure (analysis : SubtitleAnalysis) (d : PreviewData) : option Z :=
  match primary d, secondary d with
  | Some pa, Some sa =>
      Some (total_episodes analysis - Z.max (episodes_available pa) (episodes_available sa))
  | _, _ => None
  end.

Section Entries.

(** [Object.entries] lists the own properties of an object in the order of
    their creation (keys that look like array indices first), which the
    finite map does not record: the enumeration is a parameter. *)
Variable Object_entries :
  gmap string LanguageAvailability -> list (string * LanguageAvailability).

(** [sortedLanguages]:
<<
  analysis ?
    Object.entries(analysis.language_availability)
      .sort(([, a], [, b]) => b.episodes_available - a.episodes_available)
      .slice(0, 6)
    : []
>> *)
Definition sortedLanguages (analysis : option SubtitleAnalysis)
    : list (string * LanguageAvailability) :=
  match analysis with
  | Some a => take 6 (sort_entries (Object_entries (language_availability a)))
  | None => []
  end.

(** The effect that selects the two most available languages:
<<
  if (sortedLanguages.length >= 2 && !primaryLanguage && !secondaryLanguage) {
    const [firstLang] = sortedLanguages[0];
    const [secondLang] = sortedLanguages[1];
    setPrimaryLanguage(firstLang);
    setSecondaryLanguage(secondLang);
  }
>> *)
Definition autoSelect (analysis : option SubtitleAnalysis) (st : Selection) : Selection :=
  match sortedLanguages analysis with
  | (firstLang, _) :: (secondLang, _) :: _ =>
      if String.eqb (primaryLanguage st) "" && String.eqb (secondaryLanguage st) ""
      then mkSelection firstLang secondLang
      else st
  | _ => st
  end.

End Entries.

(** An enumeration lists the properties of the object, each once. *)
Definition enumerates
    (Object_entries : gmap string LanguageAvailability -> list (string * LanguageAvailability))
    : Prop :=
  forall m, Object_entries m ≡ₚ map_to_list m.

(** Entries in the order of the sort: no later entry is available in more
    episodes. *)
Definition descending (l : list (string * LanguageAvailability)) : Prop :=
  StronglySorted (fun x y => episodes_available (snd y) <= episodes_available (snd x)) l.

End Discovery.

(** ** The bulk wizard: its steps and the events that move it

    The wizard ([BulkDualSubtitleWizard]) is a state machine: its state
    lives in [useState] hooks, its handlers are the transitions, and the
    buttons that call them are rendered or enabled under conditions on the
    state.  The styling options and the per-episode configurations are
    left out: no handler or condition below reads them.  Closing the
    wizard ends a run. *)

Module Wizard.
Import Bulk.

Inductive WizardStep := discovery | preview | processing | results.

#[global] Instance WizardStep_eq_dec : EqDecision WizardStep.
Proof. solve_decision. Defined.

(** [JobStatus['results']]: the episodes of a finished job. *)
Record JobResults := mkJobResults {
  successful : list string;
  failed : list string;
  skipped : list string
}.

(** The state of [BulkDualSubtitleWizard], the local state of the
    discovery step while it is mounted, and the requests that the
    processing step has sent: the languages of every
    [POST /api/jobs/bulk-dual-subtitle], the number of them that are not
    answered yet, and the number of jobs whose progress is polled. *)
Record State := mkState {
  currentStep : WizardStep;
  analysis : option SubtitleAnalysis;
  primaryLanguage : string;
  secondaryLanguage : string;
  jobId : string;
  job_results : option JobResults;
  selection : Discovery.Selection;
  requests : list (string * string);
  unanswered : nat;
  polled : nat
}.

(** The initial values of the [useState] hooks. *)
Definition initial : State :=
  mkState discovery None "" "" "" None (Discovery.mkSelection "" "") [] 0 0.

Definition with_step (w : State) (step : WizardStep) : State :=
  mkState step (analysis w) (primaryLanguage w) (secondaryLanguage w) (jobId w)
          (job_results w) (selection w) (requests w) (unanswered w) (polled w).

Definition with_selection (w : State) (sel : Discovery.Selection) : State :=
  mkState (currentStep w) (analysis w) (primaryLanguage w) (secondaryLanguage w) (jobId w)
          (job_results w) sel (requests w) (unanswered w) (polled w).

(** [onAnalysisLoad={setAnalysis}] *)
Definition setAnalysis (a : SubtitleAnalysis) (w : State) : State :=
  mkState (currentStep w) (Some a) (primaryLanguage w) (secondaryLanguage w) (jobId w)
          (job_results w) (selection w) (requests w) (unanswered w) (polled w).

(** [handleLanguageSelect]:
<<
  setPrimaryLanguage(primary);
  setSecondaryLanguage(secondary);
  ...
  setCurrentStep('preview');
>> *)
Definition handleLanguageSelect (primary secondary : string) (w : State) : State :=
  mkState preview (analysis w) primary secondary (jobId w)
          (job_results w) (selection w) (requests w) (unanswered w) (polled w).

(** [handleStartProcessing] sets the step to ['processing']; the
    processing step is mounted and its effect posts the request with the
    wizard's two languages. *)
Definition handleStartProcessing (w : State) : State :=
  mkState processing (analysis w) (primaryLanguage w) (secondaryLanguage w) (jobId w)
          (job_results w) (selection w)
          ((primaryLanguage w, secondaryLanguage w) :: requests w)
          (S (unanswered w)) (polled w).

(** [handleJobStarted], called with the identifier in the answer to a
    request; the job is polled from then on.
<<
  setJobId(startedJobId);
  setCurrentStep('results');
>> *)
Definition handleJobStarted (startedJobId : string) (w : State) : State :=
  mkState results (analysis w) (primaryLanguage w) (secondaryLanguage w) startedJobId
          (job_results w) (selection w) (requests w) (pred (unanswered w)) (S (polled w)).

(** A request that fails is answered without a job. *)
Definition request_failed (w : State) : State :=
  mkState (currentStep w) (analysis w) (primaryLanguage w) (secondaryLanguage w) (jobId w)
          (job_results w) (selection w) (requests w) (pred (unanswered w)) (polled w).

(** [handleProcessingComplete]: [setResults(jobResults)] *)
Definition handleProcessingComplete (jobResults : JobResults) (w : State) : State :=
  mkState (currentStep w) (analysis w) (primaryLanguage w) (secondaryLanguage w) (jobId w)
          (Some jobResults) (selection w) (requests w) (unanswered w) (polled w).

(** [handleBack].  Going back to the discovery step mounts it again: its
    local state starts from the wizard's languages
    ([useState(selectedPrimary)], [useState(selectedSecondary)]).
<<
  switch (currentStep) {
    case 'preview': setCurrentStep('discovery'); break;
    case 'processing': setCurrentStep('preview'); break;
    case 'results': break;
    default: break;
  }
>> *)
Definition handleBack (w : State) : State :=
  match currentStep w with
  | preview =>
      with_selection (with_step w discovery)
        (Discovery.mkSelection (primaryLanguage w) (secondaryLanguage w))
  | processing => with_step w preview
  | results => w
  | discovery => w
  end.

(** [canGoBack]:
    [currentStep === 'preview' || (currentStep === 'processing' && !jobId)] *)
Definition canGoBack (w : State) : bool :=
  bool_decide (currentStep w = preview)
  || (bool_decide (currentStep w = processing) && String.eqb (jobId w) "").

(** [showFooter]: [currentStep === 'preview'] *)
Definition showFooter (w : State) : bool := bool_decide (currentStep w = preview).

(** The footer's count, [readyCount] of the wizard's state. *)
Definition footer_count (w : State) : Z :=
  readyCount (analysis w) (primaryLanguage w) (secondaryLanguage w).

(** What happens to the wizard: the effects of the discovery step, the
    user's actions and the answers of the server. *)
Inductive Event :=
| AnalysisLoaded (a : SubtitleAnalysis)
| AutoSelect
| SelectPrimary (value : string)
| SelectSecondary (value : string)
| ClickChip (languageCode : string)
| Continue
| Back
| StartProcessing
| JobIdReceived (id : string)
| RequestFailed
| ProcessingComplete (jobResults : JobResults)
| RetryFailed.

Section Entries.

Variable Object_entries :
  gmap string LanguageAvailability -> list (string * LanguageAvailability).

(** When an event can happen.
    - The discovery step is rendered in the step ['discovery']; its effect
      calls [onAnalysisLoad] only while the wizard has no analysis, and
      it shows its controls only once there is one.
    - A [select] offers the empty value and the languages of the analysis,
      the secondary one without the primary language
      ([.filter(([code]) => code !== primaryLanguage)]); the chips are the
      [sortedLanguages].
    - CONTINUE is [disabled={!canContinue}], the back arrow is rendered
      under [canGoBack], START PROCESSING is in the footer
      ([showFooter]) and [disabled={readyCount === 0}].
    - An identifier or a failure answers a request that was sent; a result
      comes from polling a started job.
    - The results step with [onRetryFailed] is rendered under
      [currentStep === 'results' && !jobId && results]. *)
Definition enabled (w : State) (e : Event) : bool :=
  match e with
  | AnalysisLoaded _ =>
      bool_decide (currentStep w = discovery) && bool_decide (analysis w = None)
  | AutoSelect => bool_decide (currentStep w = discovery)
  | SelectPrimary value =>
      bool_decide (currentStep w = discovery)
      && bool_decide (is_Some (analysis w))
      && (String.eqb value "" || Discovery.available (analysis w) value)
  | SelectSecondary value =>
      bool_decide (currentStep w = discovery)
      && bool_decide (is_Some (analysis w))
      && (String.eqb value ""
          || (Discovery.available (analysis w) value
              && negb (String.eqb value (Discovery.primaryLanguage (selection w)))))
  | ClickChip languageCode =>
      bool_decide (currentStep w = discovery)
      && existsb (String.eqb languageCode)
                 (map fst (Discovery.sortedLanguages Object_entries (analysis w)))
  | Continue =>
      bool_decide (currentStep w = discovery)
      && Discovery.canContinue (analysis w) (selection w)
  | Back => canGoBack w
  | StartProcessing => showFooter w && negb (footer_count w =? 0)%Z
  | JobIdReceived _ => (0 <? unanswered w)%nat
  | RequestFailed => (0 <? unanswered w)%nat
  | ProcessingComplete _ => (0 <? polled w)%nat
  | RetryFailed =>
      bool_decide (currentStep w = results) && String.eqb (jobId w) ""
      && bool_decide (is_Some (job_results w))
  end.

(** What an event does: the handler that it calls. *)
Definition handle (w : State) (e : Event) : State :=
  match e with
  | AnalysisLoaded a => setAnalysis a w
  | AutoSelect =>
      with_selection w (Discovery.autoSelect Object_entries (analysis w) (selection w))
  | SelectPrimary value =>
      with_selection w
        (Discovery.mkSelection value (Discovery.secondaryLanguage (selection w)))
  | SelectSecondary value =>
      with_selection w
        (Discovery.mkSelection (Discovery.primaryLanguage (selection w)) value)
  | ClickChip languageCode =>
      with_selection w (Discovery.clickChip languageCode (selection w))
  | Continue =>
      match Discovery.handleContinue (selection w) with
      | Some (primary, secondary) => handleLanguageSelect primary secondary w
      | None => w
      end
  | Back => handleBack w
  | StartProcessing => handleStartProcessing w
  | JobIdReceived id => handleJobStarted id w
  | RequestFailed => request_failed w
  | ProcessingComplete jobResults => handleProcessingComplete jobResults w
  | RetryFailed => with_step w preview
  end.

(** A run of the wizard: the events in order, each enabled when it
    happens. *)
Fixpoint run (w : State) (events : list Event) : option State :=
  match events with
  | [] => Some w
  | e :: events' => if enabled w e then run (handle w e) events' else None
  end.

End Entries.

(** The wizard's two languages are chosen: different, not empty, and
    languages of the loaded analysis. *)
Definition chosen (w : State) : Prop :=
  exists a, analysis w = Some a
    /\ primaryLanguage w <> "" /\ secondaryLanguage w <> ""
    /\ primaryLanguage w <> secondaryLanguage w
    /\ is_Some (language_availability a !! primaryLanguage w)
    /\ is_Some (language_availability a !! secondaryLanguage w).

(** A language of the local selection is none or one of the analysis. *)
Definition selectable (w : State) (language : string) : Prop :=
  language = "" \/ Discovery.available (analysis w) language = true.

(** *** Example runs *)

(** The analysis arrives, the two languages are selected by the effect,
    the user continues, starts the processing and the job is created. *)
Definition started_run : list Event :=
  [AnalysisLoaded scenario12; AutoSelect; Continue; StartProcessing;
   JobIdReceived "0b5c2f6e-job"].

(** The user selects Japanese over English, continues, comes back to the
    discovery step and clicks the chips of the two languages: the first
    click deselects the primary language, the second makes English the
    primary language while it still is the secondary one. *)
Definition revised_run : list Event :=
  [AnalysisLoaded scenario12; SelectPrimary "ja"; SelectSecondary "en"; Continue;
   Back; ClickChip "ja"; ClickChip "en"].

(** What holds of the wizard at every moment of a run. *)
Record consistent (w : State) : Prop := mkConsistent {
  (* before the first CONTINUE nothing has been sent *)
  languages_chosen :
    chosen w
    \/ (currentStep w = discovery /\ requests w = [] /\ unanswered w = 0%nat
        /\ polled w = 0%nat);
  (* every request was worth sending *)
  requests_ready :
    Forall (fun r => exists a, analysis w = Some a /\ r.1 <> r.2
                               /\ (0 < readyCount (Some a) r.1 r.2)%Z)
           (requests w);
  (* a job identifier is only known in the last step *)
  job_in_results : jobId w <> "" -> currentStep w = results;
  (* the discovery step selects languages of the analysis only *)
  selection_selectable :
    selectable w (Discovery.primaryLanguage (selection w))
    /\ selectable w (Discovery.secondaryLanguage (selection w))
}.

End Wizard.

(** ** The subtitle list of the subtitle manager *)

Module Manager.
Import Regex DualName.

(** An external subtitle file as the API reports it ([ExternalSubtitle] of
    [types/api]). *)
Record ExternalSubtitle := mkExternalSubtitle {
  file_path : string;
  file_name : string;
  language_code : option string;
  format : string;
  is_dual_subtitle : option bool;
  dual_languages : option (list string)
}.

(** A subtitle stream of the media file ([EmbeddedSubtitle]). *)
Record EmbeddedSubtitle := mkEmbeddedSubtitle {
  language : option string;
  languageCode : option string;
  codec : string;
  forced : bool;
  title : option string;
  stream_index : nat;
  id : string;
  display_name : string
}.

(** [String.prototype.includes]: the needle starts at some position. *)
Fixpoint includes (s needle : string) : bool :=
  String.prefix needle s
  || match s with
     | EmptyString => false
     | String _ s' => includes s' needle
     end.

(** [const isDual = sub.file_name.includes('.dual.')] *)
Definition isDual (sub : ExternalSubtitle) : bool := includes (file_name sub) ".dual.".

(** [const dualLanguages = isDual ? parseDualLanguages(sub.file_name) : null] *)
Definition dualLanguages (sub : ExternalSubtitle) : option (string * string) :=
  if isDual sub then parseDualLanguages (file_name sub) else None.

(** [sub.language_code || 'unknown']: an absent and an empty code are
    both falsy. *)
Definition language_or_unknown (sub : ExternalSubtitle) : string :=
  match language_code sub with
  | Some c => if String.eqb c "" then "unknown" else c
  | None => "unknown"
  end.

(** The caption under the file name:
<<
  isDual && dualLanguages
    ? `${dualLanguages[0]} + ${dualLanguages[1]}`
    : (sub.language_code || 'unknown')
>> *)
Definition caption (sub : ExternalSubtitle) : string :=
  match isDual sub, dualLanguages sub with
  | true, Some (first, second) => first +:+ " + " +:+ second
  | _, _ => language_or_unknown sub
  end.

(** A pattern without capture groups. *)
Fixpoint groupless (r : regex) : bool :=
  match r with
  | Eps | Chr _ | Rep _ _ _ | Eoi => true
  | Seq r1 r2 | Alt r1 r2 => groupless r1 && groupless r2
  | Opt r1 => groupless r1
  | Group _ _ => false
  end.

End Manager.

From Stdlib Require Import DecimalString DecimalNat.

(** ** The form that creates one dual subtitle *)

Module Creator.

(** A number in a template literal: the decimal digits of an index. *)
Definition Number_toString (n : nat) : string :=
  NilEmpty.string_of_uint (Nat.to_uint n).

(** [a || b] on strings that may be absent: the empty string is falsy. *)
Definition or_string (a : option string) (b : string) : string :=
  match a with
  | Some x => if String.eqb x "" then b else x
  | None => b
  end.

Definition or_option (a b : option string) : option string :=
  match a with
  | Some x => if String.eqb x "" then b else a
  | None => b
  end.

Inductive SourceType := external | embedded.

(** [SubtitleOption], one entry of the two [select] lists. *)
Record SubtitleOption := mkSubtitleOption {
  id : string;
  label : string;
  language_code : option string;
  type : SourceType;
  file_path : option string;
  stream_index : option nat;
  codec : option string
}.

(** The option of the external file at [index]:
<<
  { id: `external_${index}`, label: sub.file_name, language_code: sub.language_code,
    type: 'external', file_path: sub.file_path }
>> *)
Definition external_option (index : nat) (sub : Manager.ExternalSubtitle)
    : SubtitleOption :=
  mkSubtitleOption ("external_" +:+ Number_toString index)
                   (Manager.file_name sub)
                   (Manager.language_code sub)
                   external
                   (Some (Manager.file_path sub))
                   None None.

(** The option of an embedded stream:
<<
  { id: `embedded_${sub.stream_index}`,
    label: sub.display_name || sub.title || `Stream ${sub.stream_index}`,
    language_code: sub.languageCode || sub.language,
    type: 'embedded', stream_index: sub.stream_index, codec: sub.codec }
>> *)
Definition embedded_option (sub : Manager.EmbeddedSubtitle) : SubtitleOption :=
  mkSubtitleOption ("embedded_" +:+ Number_toString (Manager.stream_index sub))
                   (or_string (Some (Manager.display_name sub))
                      (or_string (Manager.title sub)
                         ("Stream " +:+ Number_toString (Manager.stream_index sub))))
                   (or_option (Manager.languageCode sub) (Manager.language sub))
                   embedded
                   None
                   (Some (Manager.stream_index sub))
                   (Some (Manager.codec sub)).

(** [subtitleOptions]: the external files, then the embedded streams. *)
Definition subtitleOptions (externalSubtitles : list Manager.ExternalSubtitle)
    (embeddedSubtitles : list Manager.EmbeddedSubtitle) : list SubtitleOption :=
  imap external_option externalSubtitles ++ map embedded_option embeddedSubtitles.

(** The state of the form: the two selected option identifiers and the
    [DualSubtitleConfig]. *)
Record Config := mkConfig {
  primary_subtitle : string;
  secondary_subtitle : string;
  primary_language : string;
  secondary_language : string;
  enable_sync : option bool;
  enable_language_prefix : option bool
}.

(** [subtitleOptions.find(s => s.id === selected)] *)
Definition find_option (options : list SubtitleOption) (selected : string)
    : option SubtitleOption :=
  List.find (fun s => String.eqb (id s) selected) options.

(** One source of the request built by [buildRequestData]. *)
Record Source := mkSource {
  subtitle : string;
  source_type : SourceType;
  source_stream_index : option nat;
  source_codec : option string;
  source_language : string
}.

(** The fields of one source:
<<
  primary_subtitle: primarySubtitle?.file_path || config.primary_subtitle,
  primary_source_type: primarySubtitle?.type || 'external',
  primary_stream_index: primarySubtitle?.stream_index,
  primary_codec: primarySubtitle?.codec,
  primary_language: primarySubtitle?.language_code || config.primary_language,
>> *)
Definition source_of (chosen : option SubtitleOption) (selected language : string)
    : Source :=
  mkSource (or_string (chosen ≫= file_path) selected)
           (match chosen with Some s => type s | None => external end)
           (chosen ≫= stream_index)
           (chosen ≫= codec)
           (or_string (chosen ≫= language_code) language).

Record RequestData := mkRequestData {
  primary : Source;
  secondary : Source;
  request_enable_sync : option bool;
  request_enable_language_prefix : option bool
}.

Definition buildRequestData (options : list SubtitleOption) (config : Config)
    : RequestData :=
  mkRequestData
    (source_of (find_option options (primary_subtitle config))
               (primary_subtitle config) (primary_language config))
    (source_of (find_option options (secondary_subtitle config))
               (secondary_subtitle config) (secondary_language config))
    (enable_sync config)
    (enable_language_prefix config).

(** [canProceed], under which the buttons are rendered:
<<
  config.primary_subtitle && config.secondary_subtitle &&
  config.primary_subtitle !== config.secondary_subtitle
>> *)
Definition canProceed (config : Config) : bool :=
  negb (String.eqb (primary_subtitle config) "")
  && negb (String.eqb (secondary_subtitle config) "")
  && negb (String.eqb (primary_subtitle config) (secondary_subtitle config)).

(** What identifies the subtitle that a source of the request names. *)
Definition source_key (s : Source) : SourceType * string * option nat :=
  (source_type s, subtitle s, source_stream_index s).

(** The files have paths, each its own, and the streams their own
    indices. *)
Definition well_listed (externalSubtitles : list Manager.ExternalSubtitle)
    (embeddedSubtitles : list Manager.EmbeddedSubtitle) : Prop :=
  NoDup (map Manager.file_path externalSubtitles)
  /\ Forall (fun sub => Manager.file_path sub <> "") externalSubtitles
  /\ NoDup (map Manager.stream_index embeddedSubtitles).

(** *** Example data: two files next to an episode and two streams in it *)

Definition episode_files : list Manager.ExternalSubtitle :=
  [ Manager.mkExternalSubtitle "/tv/Show/S01E02.en.srt" "S01E02.en.srt" (Some "en") "srt"
      None None;
    Manager.mkExternalSubtitle "/tv/Show/S01E02.ja.ass" "S01E02.ja.ass" (Some "ja") "ass"
      None None ].

Definition episode_streams : list Manager.EmbeddedSubtitle :=
  [ Manager.mkEmbeddedSubtitle (Some "English") (Some "en") "subrip" false None 2
      "stream-2" "English (SRT)";
    Manager.mkEmbeddedSubtitle (Some "Japanese") None "ass" false (Some "Signs") 3
      "stream-3" "" ].

(** The second file above the first stream. *)
Definition file_over_stream : Config :=
  mkConfig "external_1" "embedded_2" "" "" (Some false) (Some true).

End Creator.

(** ** Facts about the wizard's statistics *)

Module BulkFacts.
Import Bulk.

Local Open Scope Z_scope.

Section Lists.
Context {A : Type} (key : A -> string).

Lemma NoDup_map_filter (g : A -> bool) (l : list A) :
  NoDup (map key l) -> NoDup (map key (List.filter g l)).
Proof.
  induction l as [|x l IH]; simpl; intros Hnd; [constructor|].
  apply NoDup_cons in Hnd as [Hx Hl].
  destruct (g x); simpl; auto.
  apply NoDup_cons; split; auto.
  intros Hin. apply Hx.
  apply list_elem_of_In, in_map_iff in Hin as (y & Hy & Hyin).
  apply list_elem_of_In, in_map_iff. exists y. split; [done|].
  apply filter_In in Hyin. tauto.
Qed.

Lemma filter_filter_comm (g h : A -> bool) (l : list A) :
  List.filter g (List.filter h l) = List.filter h (List.filter g l).
Proof.
  induction l as [|x l IH]; simpl; [done|].
  destruct (h x) eqn:Hh, (g x) eqn:Hg; simpl; rewrite ?Hh, ?Hg, ?IH; done.
Qed.
End Lists.

Lemma elem_of_detail_ids (id : string) (l : list EpisodeDetail) :
  id ∈ detail_ids l <-> exists ep, In ep l /\ episode_id ep = id.
Proof.
  unfold detail_ids. rewrite elem_of_list_to_set, list_elem_of_In, in_map_iff.
  split; intros (ep & H1 & H2); exists ep; auto.
Qed.

(** The [some] test of [episodesWithBoth] is membership of the identifier. *)
Lemma listed_in_secondary (S : list EpisodeDetail) (ep : EpisodeDetail) :
  existsb (fun secEp => String.eqb (episode_id secEp) (episode_id ep)) S = true
  <-> episode_id ep ∈ detail_ids S.
Proof.
  rewrite existsb_exists, elem_of_detail_ids.
  split; intros (x & Hx & He); exists x; split; auto.
  - by apply String.eqb_eq.
  - by apply String.eqb_eq.
Qed.

(** Counting a filtered list of distinct episodes is measuring a set. *)
Lemma length_listed_in (L S : list EpisodeDetail) :
  NoDup (map episode_id L) ->
  length (List.filter
            (fun ep => existsb (fun secEp => String.eqb (episode_id secEp) (episode_id ep)) S)
            L)
  = size (detail_ids L ∩ detail_ids S).
Proof.
  intros Hnd.
  set (inS := fun ep => existsb _ S).
  assert (Hset : detail_ids (List.filter inS L) = detail_ids L ∩ detail_ids S).
  { apply set_eq. intros id. rewrite elem_of_intersection. split.
    - intros (ep & Hin & <-)%elem_of_detail_ids.
      apply filter_In in Hin as [Hin Hs]. split.
      + apply elem_of_detail_ids. by exists ep.
      + by apply (proj1 (listed_in_secondary S ep)).
    - intros [(ep & Hin & <-)%elem_of_detail_ids Hs].
      apply elem_of_detail_ids. exists ep. split; [|done].
      apply filter_In. split; [done|].
      by apply (proj2 (listed_in_secondary S ep)). }
  rewrite <- Hset. unfold detail_ids.
  rewrite size_list_to_set, length_map; [done|].
  by apply NoDup_map_filter.
Qed.

Lemma length_both (pa sa : LanguageAvailability) :
  NoDup (map episode_id (episode_details pa)) ->
  length (episodesWithBoth pa sa)
  = size (detail_ids (episode_details pa) ∩ detail_ids (episode_details sa)).
Proof. apply length_listed_in. Qed.

Lemma length_existing (p s : string) (pa sa : LanguageAvailability) :
  NoDup (map episode_id (episode_details pa)) ->
  length (episodesWithExistingDual p s pa sa)
  = size (detail_ids (List.filter (has_existing_dual p s) (episode_details pa))
          ∩ detail_ids (episode_details sa)).
Proof.
  intros Hnd. unfold episodesWithExistingDual, episodesWithBoth.
  rewrite filter_filter_comm. apply length_listed_in.
  by apply NoDup_map_filter.
Qed.

Lemma existing_le_both (p s : string) (pa sa : LanguageAvailability) :
  (length (episodesWithExistingDual p s pa sa) <= length (episodesWithBoth pa sa))%nat.
Proof. apply filter_length_le. Qed.

(** The footer and the configuration step compute the same number. *)
Lemma readyCount_stats (a : SubtitleAnalysis) (p s : string) :
  p <> "" -> s <> "" -> readyCount (Some a) p s = ready (stats a p s).
Proof.
  intros Hp Hs. unfold readyCount, stats.
  apply String.eqb_neq in Hp, Hs. rewrite Hp, Hs. simpl.
  destruct (language_availability a !! p), (language_availability a !! s); done.
Qed.

Lemma stats_ready_sets (a : SubtitleAnalysis) (p s : string) :
  distinct_episodes a p ->
  ready (stats a p s)
  = Z.of_nat (size (both_languages a p s)) - Z.of_nat (size (already_dual a p s)).
Proof.
  unfold distinct_episodes, both_languages, already_dual, episodes_of,
    language_details, stats.
  intros Hnd.
  destruct (language_availability a !! p) as [pa|] eqn:Hpa.
  - destruct (language_availability a !! s) as [sa|] eqn:Hsa; simpl.
    + by rewrite length_both, length_existing.
    + replace (detail_ids []) with (∅ : gset string) by done.
      by rewrite !intersection_empty_r_L, size_empty.
  - simpl. replace (detail_ids []) with (∅ : gset string) by done.
    by rewrite !intersection_empty_l_L, size_empty.
Qed.

(** *** The code's test against the words of the specification *)

Lemma dual_matches_spec (p s : string) (d : DualSub) :
  dual_matches p s d = true <-> names_pair p s d.
Proof.
  unfold dual_matches, names_pair.
  destruct (dual_languages d) as [[|lang1 [|lang2 rest]]|]; simpl; try done.
  rewrite orb_true_iff, !andb_true_iff, !String.eqb_eq. done.
Qed.

Lemma has_existing_dual_spec (p s : string) (ep : EpisodeDetail) :
  has_existing_dual p s ep = true <-> dual_for_pair p s ep.
Proof.
  unfold has_existing_dual, dual_for_pair.
  destruct (existing_dual_subtitles ep) as [subs|]; [|done].
  rewrite existsb_exists, Exists_exists. split.
  - intros (d & Hin & Hd). exists d. split; [by apply list_elem_of_In|].
    by apply dual_matches_spec.
  - intros (d & Hin & Hd). exists d. split; [by apply list_elem_of_In|].
    by apply dual_matches_spec.
Qed.

Lemma has_existing_dual_decide (p s : string) (ep : EpisodeDetail) :
  has_existing_dual p s ep = bool_decide (dual_for_pair p s ep).
Proof.
  destruct (has_existing_dual p s ep) eqn:H; symmetry.
  - by apply bool_decide_eq_true, has_existing_dual_spec.
  - apply bool_decide_eq_false. intros Hd%has_existing_dual_spec. congruence.
Qed.

(** The set that the code subtracts is the set that the specification
    names. *)
Lemma already_dual_spec (a : SubtitleAnalysis) (p s : string) :
  already_dual a p s = dual_episodes a p s.
Proof.
  unfold already_dual, dual_episodes. f_equal. f_equal.
  apply filter_ext. intros ep. apply has_existing_dual_decide.
Qed.

(** C1, as amended: for a pair of selected (non-empty) languages of an
    analysis whose primary language's list names each episode once, the
    ready count of the episode-configuration step, and with it the ready
    count of the wizard footer, is the number of episodes present in both
    languages' lists minus the number of those that the primary language's
    list records with a dual subtitle for the pair, in either order; it is
    7 when 9 episodes have both languages and 2 of them have the dual
    file. *)
Theorem ready_is_both_minus_existing (a : SubtitleAnalysis) (p s : string) :
  p <> "" -> s <> "" -> distinct_episodes a p ->
  ready (stats a p s)
    = Z.of_nat (size (both_languages a p s)) - Z.of_nat (size (dual_episodes a p s))
  /\ readyCount (Some a) p s = ready (stats a p s)
  /\ (size (both_languages a p s) = 9%nat -> size (dual_episodes a p s) = 2%nat ->
      ready (stats a p s) = 7 /\ readyCount (Some a) p s = 7).
Proof.
  intros Hp Hs Hnd.
  pose proof (stats_ready_sets a p s Hnd) as Hr.
  rewrite already_dual_spec in Hr.
  pose proof (readyCount_stats a p s Hp Hs) as Hc.
  split; [exact Hr|]. split; [exact Hc|].
  intros H9 H2. rewrite Hc, Hr, H9, H2. split; reflexivity.
Qed.

(** The twelve-episode scenario: nine episodes with both languages, two of
    them with the dual file, seven ready. *)
Lemma ready_is_both_minus_existing_witness :
  total_episodes scenario12 = 12
  /\ size (both_languages scenario12 "en" "ja") = 9%nat
  /\ size (dual_episodes scenario12 "en" "ja") = 2%nat
  /\ ready (stats scenario12 "en" "ja") = 7
  /\ readyCount (Some scenario12) "en" "ja" = 7.
Proof.
  split; [reflexivity|]. split; [vm_compute; reflexivity|].
  split; [vm_compute; reflexivity|].
  apply (ready_is_both_minus_existing scenario12 "en" "ja").
  - discriminate.
  - discriminate.
  - unfold distinct_episodes. apply (bool_decide_unpack _). vm_compute. reflexivity.
  - vm_compute. reflexivity.
  - vm_compute. reflexivity.
Defined.

(** An analysis whose English list names e01 twice: one episode has both
    languages and none has a dual file, yet two episodes are ready. *)
Lemma ready_counts_list_entries :
  "en" <> "ja"
  /\ size (both_languages repeated_show "en" "ja") = 1%nat
  /\ size (dual_episodes repeated_show "en" "ja") = 0%nat
  /\ ready (stats repeated_show "en" "ja") = 2
  /\ readyCount (Some repeated_show) "en" "ja" = 2
  /\ ready (stats repeated_show "en" "ja")
     <> Z.of_nat (size (both_languages repeated_show "en" "ja"))
        - Z.of_nat (size (dual_episodes repeated_show "en" "ja")).
Proof.
  split; [discriminate|]. repeat split; try (vm_compute; reflexivity).
  vm_compute. discriminate.
Qed.

(** *** The exclusion test is blind to the order of the two languages *)

Lemma dual_matches_swap (p s : string) (d : DualSub) :
  dual_matches p s d = dual_matches s p d.
Proof.
  unfold dual_matches. destruct (dual_languages d) as [langs|]; [|done].
  destruct (length langs <? 2)%nat; [done|].
  destruct langs as [|l1 [|l2 rest]]; [done..|].
  apply orb_comm.
Qed.

Lemma has_existing_dual_swap (p s : string) (ep : EpisodeDetail) :
  has_existing_dual p s ep = has_existing_dual s p ep.
Proof.
  unfold has_existing_dual. destruct (existing_dual_subtitles ep) as [subs|]; [|done].
  induction subs as [|d subs IH]; simpl; [done|].
  by rewrite IH, dual_matches_swap.
Qed.

Lemma dual_matches_pair (p s fname lang1 lang2 : string) (rest : list string) :
  dual_matches p s (mkDualSub fname (Some (lang1 :: lang2 :: rest))) = true
  <-> (lang1 = p /\ lang2 = s) \/ (lang1 = s /\ lang2 = p).
Proof.
  unfold dual_matches. simpl.
  rewrite orb_true_iff, !andb_true_iff, !String.eqb_eq. done.
Qed.

Lemma has_existing_dual_ext (p s : string) (e1 e2 : EpisodeDetail) :
  existing_dual_subtitles e1 = existing_dual_subtitles e2 ->
  has_existing_dual p s e1 = has_existing_dual p s e2.
Proof. unfold has_existing_dual. by intros ->. Qed.

Lemma already_dual_swap (a : SubtitleAnalysis) (p s : string) :
  records_agree a p s -> already_dual a p s = already_dual a s p.
Proof.
  intros Hagree. unfold already_dual, episodes_of.
  apply set_eq. intros id. rewrite !elem_of_intersection.
  unfold records_agree in Hagree. rewrite Forall_forall in Hagree.
  split.
  - intros [(e1 & Hin1 & <-)%elem_of_detail_ids (e2 & Hin2 & Hid)%elem_of_detail_ids].
    apply filter_In in Hin1 as [Hin1 Hdual].
    specialize (Hagree e1 (proj2 (list_elem_of_In _ _) Hin1)).
    rewrite Forall_forall in Hagree.
    specialize (Hagree e2 (proj2 (list_elem_of_In _ _) Hin2) (eq_sym Hid)).
    split.
    + apply elem_of_detail_ids. exists e2. split; [|done].
      apply filter_In. split; [done|].
      by rewrite <- (has_existing_dual_ext s p e1 e2 Hagree), <- has_existing_dual_swap.
    + apply elem_of_detail_ids. by exists e1.
  - intros [(e2 & Hin2 & <-)%elem_of_detail_ids (e1 & Hin1 & Hid)%elem_of_detail_ids].
    apply filter_In in Hin2 as [Hin2 Hdual].
    specialize (Hagree e1 (proj2 (list_elem_of_In _ _) Hin1)).
    rewrite Forall_forall in Hagree.
    specialize (Hagree e2 (proj2 (list_elem_of_In _ _) Hin2) Hid).
    split.
    + apply elem_of_detail_ids. exists e1. split; [|done].
      apply filter_In. split; [done|].
      by rewrite (has_existing_dual_ext p s e1 e2 Hagree), has_existing_dual_swap.
    + apply elem_of_detail_ids. by exists e2.
Qed.

(** *** The worklist's exclusion *)

(** The records left out: those of the primary language's list that the
    secondary language lists too and that have a dual subtitle for the
    pair. *)
Lemma in_excluded (a : SubtitleAnalysis) (p s : string) (ep : EpisodeDetail) :
  In ep (excluded a p s)
  <-> In ep (language_details a p) /\ episode_id ep ∈ episodes_of a s
      /\ dual_for_pair p s ep.
Proof.
  unfold excluded, episodes_of, language_details.
  destruct (language_availability a !! p) as [pa|];
    destruct (language_availability a !! s) as [sa|]; simpl.
  - unfold episodesWithExistingDual, episodesWithBoth.
    rewrite !filter_In, listed_in_secondary, has_existing_dual_spec. tauto.
  - split; [done|]. intros (_ & Hs & _).
    by apply elem_of_detail_ids in Hs as (e & [] & _).
  - split; [done|tauto].
  - split; [done|tauto].
Qed.

Lemma stats_excluded (a : SubtitleAnalysis) (p s : string) :
  alreadyExists (stats a p s) = Z.of_nat (length (excluded a p s)).
Proof.
  unfold stats, excluded.
  by destruct (language_availability a !! p), (language_availability a !! s).
Qed.

Lemma stats_existing_sets (a : SubtitleAnalysis) (p s : string) :
  distinct_episodes a p ->
  alreadyExists (stats a p s) = Z.of_nat (size (already_dual a p s)).
Proof.
  unfold distinct_episodes, already_dual, episodes_of, language_details, stats.
  intros Hnd.
  destruct (language_availability a !! p) as [pa|] eqn:Hpa.
  - destruct (language_availability a !! s) as [sa|] eqn:Hsa; simpl.
    + by rewrite length_existing.
    + replace (detail_ids []) with (∅ : gset string) by done.
      by rewrite !intersection_empty_r_L, size_empty.
  - simpl. replace (detail_ids []) with (∅ : gset string) by done.
    by rewrite !intersection_empty_l_L, size_empty.
Qed.

Lemma dual_for_pair_swap (p s : string) (ep : EpisodeDetail) :
  dual_for_pair p s ep <-> dual_for_pair s p ep.
Proof. by rewrite <- !has_existing_dual_spec, has_existing_dual_swap. Qed.

(** With lists that describe an episode alike, an episode left out by one
    request is left out by the other. *)
Lemma excluded_swap (a : SubtitleAnalysis) (p s : string) (id : string) :
  records_agree a p s ->
  In id (map episode_id (excluded a p s)) -> In id (map episode_id (excluded a s p)).
Proof.
  intros Hagree (e1 & <- & (Hin1 & Hs & Hd)%in_excluded)%in_map_iff.
  apply elem_of_detail_ids in Hs as (e2 & Hin2 & Hid).
  unfold records_agree in Hagree. rewrite Forall_forall in Hagree.
  specialize (Hagree e1 (proj2 (list_elem_of_In _ _) Hin1)).
  rewrite Forall_forall in Hagree.
  specialize (Hagree e2 (proj2 (list_elem_of_In _ _) Hin2) (eq_sym Hid)).
  apply in_map_iff. exists e2. split; [done|].
  apply in_excluded. split; [done|]. split.
  - rewrite Hid. apply elem_of_detail_ids. by exists e1.
  - apply dual_for_pair_swap. unfold dual_for_pair in *. by rewrite <- Hagree.
Qed.

Lemma records_agree_swap (a : SubtitleAnalysis) (p s : string) :
  records_agree a p s -> records_agree a s p.
Proof.
  unfold records_agree. rewrite !Forall_forall. intros H e2 Hin2.
  rewrite Forall_forall. intros e1 Hin1 Hid.
  specialize (H e1 Hin1). rewrite Forall_forall in H.
  symmetry. by apply H.
Qed.

Lemma stats_counts_swap (a : SubtitleAnalysis) (p s : string) :
  distinct_episodes a p -> distinct_episodes a s -> records_agree a p s ->
  alreadyExists (stats a p s) = alreadyExists (stats a s p)
  /\ ready (stats a p s) = ready (stats a s p).
Proof.
  intros Hdp Hds Hagree.
  rewrite (stats_existing_sets a p s Hdp), (stats_existing_sets a s p Hds).
  rewrite (stats_ready_sets a p s Hdp), (stats_ready_sets a s p Hds).
  rewrite <- (already_dual_swap a p s Hagree).
  unfold both_languages. by rewrite (comm_L (∩) (episodes_of a s)).
Qed.

Lemma readyCount_swap (a : SubtitleAnalysis) (p s : string) :
  ready (stats a p s) = ready (stats a s p) ->
  readyCount (Some a) p s = readyCount (Some a) s p.
Proof.
  intros Hready.
  destruct (String.eqb_spec p "") as [->|Hp].
  { unfold readyCount. simpl. by rewrite orb_true_r. }
  destruct (String.eqb_spec s "") as [->|Hs].
  { unfold readyCount. simpl. by rewrite orb_true_r. }
  by rewrite !readyCount_stats.
Qed.

(** C2, as amended: the test that excludes an episode because of an
    existing dual subtitle does not depend on the order of the two selected
    languages: a record passes the test for (p, s) exactly when it passes
    it for (s, p), which is when one of its dual files is recorded with the
    two languages in either order; a dual file recorded as [lang1, lang2]
    matches exactly when (lang1, lang2) is (p, s) or (s, p).  The worklist
    leaves out the records of the primary language's list that the
    secondary language lists too and that pass the test, and counts them
    as already existing.  When the two language lists describe an episode
    alike, an episode is left out by the request (p, s) exactly when it is
    left out by the request (s, p); when they moreover name each episode
    once, the two requests have the same already-existing and ready
    counts. *)
Theorem exclusion_is_order_insensitive (a : SubtitleAnalysis) (p s : string) :
  (forall ep, has_existing_dual p s ep = has_existing_dual s p ep)
  /\ (forall ep, has_existing_dual p s ep = true <-> dual_for_pair p s ep)
  /\ (forall fname lang1 lang2 rest,
        dual_matches p s (mkDualSub fname (Some (lang1 :: lang2 :: rest))) = true
        <-> (lang1 = p /\ lang2 = s) \/ (lang1 = s /\ lang2 = p))
  /\ (forall ep,
        In ep (excluded a p s)
        <-> In ep (language_details a p) /\ episode_id ep ∈ episodes_of a s
            /\ dual_for_pair p s ep)
  /\ alreadyExists (stats a p s) = Z.of_nat (length (excluded a p s))
  /\ (records_agree a p s ->
      forall id,
        In id (map episode_id (excluded a p s))
        <-> In id (map episode_id (excluded a s p)))
  /\ (distinct_episodes a p -> distinct_episodes a s -> records_agree a p s ->
      alreadyExists (stats a p s) = alreadyExists (stats a s p)
      /\ ready (stats a p s) = ready (stats a s p)
      /\ readyCount (Some a) p s = readyCount (Some a) s p).
Proof.
  split; [apply has_existing_dual_swap|].
  split; [apply has_existing_dual_spec|].
  split; [intros; apply dual_matches_pair|].
  split; [apply in_excluded|].
  split; [apply stats_excluded|].
  split.
  - intros Hagree id. split; apply excluded_swap; [done|].
    by apply records_agree_swap.
  - intros Hdp Hds Hagree.
    destruct (stats_counts_swap a p s Hdp Hds Hagree) as [He Hr].
    split; [exact He|]. split; [exact Hr|]. by apply readyCount_swap.
Qed.

(** In the twelve-episode show, e02 (recorded en-ja) and e03 (recorded
    ja-en) are excluded whichever language is chosen as primary, and seven
    episodes are ready either way. *)
Lemma exclusion_is_order_insensitive_witness :
  map episode_id (excluded scenario12 "en" "ja") = ["e02"; "e03"]
  /\ map episode_id (excluded scenario12 "ja" "en") = ["e02"; "e03"]
  /\ alreadyExists (stats scenario12 "en" "ja") = alreadyExists (stats scenario12 "ja" "en")
  /\ ready (stats scenario12 "en" "ja") = ready (stats scenario12 "ja" "en")
  /\ readyCount (Some scenario12) "en" "ja" = readyCount (Some scenario12) "ja" "en".
Proof.
  split; [vm_compute; reflexivity|]. split; [vm_compute; reflexivity|].
  apply (exclusion_is_order_insensitive scenario12 "en" "ja").
  - unfold distinct_episodes. apply (bool_decide_unpack _). vm_compute. reflexivity.
  - unfold distinct_episodes. apply (bool_decide_unpack _). vm_compute. reflexivity.
  - apply (bool_decide_unpack _). vm_compute. reflexivity.
Defined.

(** A show whose English list records the dual file of e01 and whose
    Japanese list does not: with English as primary language e01 is left
    out of the worklist, with Japanese as primary language it is not. *)
Lemma exclusion_reads_primary_record :
  In "e01" (map episode_id (excluded disagreeing_show "en" "ja"))
  /\ ~ In "e01" (map episode_id (excluded disagreeing_show "ja" "en"))
  /\ ready (stats disagreeing_show "en" "ja") = 0
  /\ ready (stats disagreeing_show "ja" "en") = 1
  /\ readyCount (Some disagreeing_show) "en" "ja" = 0
  /\ readyCount (Some disagreeing_show) "ja" "en" = 1.
Proof.
  split; [vm_compute; tauto|]. split; [vm_compute; tauto|].
  repeat split; vm_compute; reflexivity.
Qed.

(** *** The discovery step's count against the configuration step's *)

Lemma size_details (l : list EpisodeDetail) :
  NoDup (map episode_id l) -> size (detail_ids l) = length l.
Proof. intros H. unfold detail_ids. by rewrite size_list_to_set, length_map. Qed.

Lemma compatible_sets (a : SubtitleAnalysis) (p s : string) :
  distinct_episodes a p -> distinct_episodes a s ->
  counts_agree a p -> counts_agree a s ->
  compatible a p s
  = Z.min (Z.of_nat (size (episodes_of a p))) (Z.of_nat (size (episodes_of a s))).
Proof.
  unfold distinct_episodes, counts_agree, compatible, episodes_of, language_details.
  intros Hdp Hds Hcp Hcs.
  destruct (language_availability a !! p) as [pa|];
    destruct (language_availability a !! s) as [sa|]; simpl;
    rewrite ?size_details by done; simpl;
    rewrite ?(Hcp _ eq_refl), ?(Hcs _ eq_refl); done.
Qed.

Lemma already_dual_subseteq (a : SubtitleAnalysis) (p s : string) :
  already_dual a p s ⊆ both_languages a p s.
Proof.
  unfold already_dual, both_languages, episodes_of.
  intros id [(e & Hin & <-)%elem_of_detail_ids Hs]%elem_of_intersection.
  apply elem_of_intersection. split; [|done].
  apply filter_In in Hin as [Hin _].
  apply elem_of_detail_ids. by exists e.
Qed.

(** C10, as amended: for an analysis that lists each episode once per
    language and whose counts are the lengths of its lists, the ready count
    of the episode-configuration step (and of the footer) never exceeds the
    count shown in the language-discovery step, and the two are equal
    exactly when no episode with both languages already has the dual
    subtitle and one language's episodes include the other's. *)
Theorem ready_at_most_compatible (a : SubtitleAnalysis) (p s : string) :
  distinct_episodes a p -> distinct_episodes a s ->
  counts_agree a p -> counts_agree a s ->
  ready (stats a p s) <= compatible a p s
  /\ (ready (stats a p s) = compatible a p s
      <-> already_dual a p s = ∅
          /\ (episodes_of a p ⊆ episodes_of a s \/ episodes_of a s ⊆ episodes_of a p)).
Proof.
  intros Hdp Hds Hcp Hcs.
  rewrite (compatible_sets a p s Hdp Hds Hcp Hcs), (stats_ready_sets a p s Hdp).
  pose proof (already_dual_subseteq a p s) as Hsub.
  pose proof (subseteq_size _ _ Hsub) as Hle.
  unfold both_languages in *.
  set (P := episodes_of a p) in *. set (Q := episodes_of a s) in *.
  set (D := already_dual a p s) in *.
  assert (HlP : P ∩ Q ⊆ P) by apply intersection_subseteq_l.
  assert (HlQ : P ∩ Q ⊆ Q) by apply intersection_subseteq_r.
  pose proof (subseteq_size _ _ HlP) as HP.
  pose proof (subseteq_size _ _ HlQ) as HQ.
  split; [lia|]. split.
  - intros Heq.
    assert (HD : size D = 0%nat) by lia.
    split; [by apply leibniz_equiv, size_empty_inv|].
    destruct (Z.min_spec (Z.of_nat (size P)) (Z.of_nat (size Q))) as [[_ Hm]|[_ Hm]].
    + left. rewrite <- (set_subseteq_size_eq (P ∩ Q) P HlP); [done|lia].
    + right. rewrite <- (set_subseteq_size_eq (P ∩ Q) Q HlQ); [done|lia].
  - intros [HD Hincl]. rewrite HD, size_empty.
    destruct Hincl as [Hincl|Hincl]; pose proof (subseteq_size _ _ Hincl).
    + rewrite (subseteq_intersection_1_L _ _ Hincl). lia.
    + rewrite (comm_L (∩) P Q), (subseteq_intersection_1_L _ _ Hincl). lia.
Qed.

Lemma ready_at_most_compatible_witness :
  ready (stats scenario12 "en" "ja") <= compatible scenario12 "en" "ja".
Proof.
  apply (ready_at_most_compatible scenario12 "en" "ja").
  - unfold distinct_episodes. apply (bool_decide_unpack _). vm_compute. reflexivity.
  - unfold distinct_episodes. apply (bool_decide_unpack _). vm_compute. reflexivity.
  - intros avail Hav. vm_compute in Hav. injection Hav as <-. reflexivity.
  - intros avail Hav. vm_compute in Hav. injection Hav as <-. reflexivity.
Defined.

(** Two languages with two episodes each and no episode in common: the
    discovery step announces 2 ready episodes, the configuration step and
    the footer 0. *)
Lemma compatible_differs_from_ready :
  distinct_episodes disjoint_show "en" /\ distinct_episodes disjoint_show "ja"
  /\ compatible disjoint_show "en" "ja" = 2
  /\ ready (stats disjoint_show "en" "ja") = 0
  /\ readyCount (Some disjoint_show) "en" "ja" = 0
  /\ compatible disjoint_show "en" "ja" <> ready (stats disjoint_show "en" "ja").
Proof.
  split; [unfold distinct_episodes; apply (bool_decide_unpack _); by vm_compute|].
  split; [unfold distinct_episodes; apply (bool_decide_unpack _); by vm_compute|].
  repeat split; try by vm_compute.
Qed.

End BulkFacts.

(** ** Facts about the matcher *)

Module RegexFacts.
Import Regex.

Lemma orelse_none_r {A : Type} (x : option A) : orelse x None = x.
Proof. by destruct x. Qed.

Lemma list_ascii_of_string_app (a b : string) :
  list_ascii_of_string (a +:+ b) = list_ascii_of_string a ++ list_ascii_of_string b.
Proof. induction a as [|c a IH]; [done|]. cbn. by rewrite <- IH. Qed.

Lemma string_of_list_ascii_app (a b : chars) :
  string_of_list_ascii (a ++ b) = string_of_list_ascii a +:+ string_of_list_ascii b.
Proof. induction a as [|c a IH]; [done|]. cbn. by rewrite IH. Qed.

(** *** Characters *)

Lemma alpha_not_hyphen (c : ascii) : is_alpha c = true -> Ascii.eqb "-" c = false.
Proof. destruct c as [[] [] [] [] [] [] [] []]; vm_compute; congruence. Qed.

Lemma alpha_not_dot (c : ascii) : is_alpha c = true -> Ascii.eqb "." c = false.
Proof. destruct c as [[] [] [] [] [] [] [] []]; vm_compute; congruence. Qed.

Lemma alpha_is_not_dot (c : ascii) : is_alpha c = true -> is_dot c = false.
Proof. destruct c as [[] [] [] [] [] [] [] []]; vm_compute; congruence. Qed.

Lemma digit_not_alpha (c : ascii) : is_digit c = true -> is_alpha c = false.
Proof. destruct c as [[] [] [] [] [] [] [] []]; vm_compute; congruence. Qed.

(** *** Soundness: a successful run consumed a word of the pattern *)

Lemma rep_sound {R : Type} (p : ascii -> bool) (s : chars) :
  forall lo hi (k : chars -> option R) res,
  rep p lo hi s k = Some res ->
  exists w s', s = w ++ s' /\ forallb p w = true /\ lo <= length w
               /\ within hi (length w) = true /\ k s' = Some res.
Proof.
  induction s as [|c s IH]; intros lo hi k res H; simpl in H.
  - destruct lo; [|done]. exists [], []. repeat split; auto. by destruct hi.
  - assert (Hstop : match lo with 0 => k (c :: s) | S _ => None end = Some res ->
                    exists w s', c :: s = w ++ s' /\ forallb p w = true /\ lo <= length w
                                 /\ within hi (length w) = true /\ k s' = Some res).
    { destruct lo; [|done]. intros Hk. exists [], (c :: s).
      repeat split; auto. by destruct hi. }
    destruct (p c && within hi 1) eqn:Hc; [|auto].
    apply andb_true_iff in Hc as [Hp Hw].
    destruct (rep p (Nat.pred lo) (decr hi) s k) as [res'|] eqn:Hrec; simpl in H; [|auto].
    injection H as ->.
    destruct (IH _ _ _ _ Hrec) as (w & s' & -> & Hall & Hlo & Hhi & Hk).
    exists (c :: w), s'. simpl. rewrite Hp, Hall. repeat split; auto; [lia|].
    destruct hi as [h|]; [|done]. unfold within, decr in *.
    apply Nat.leb_le in Hw, Hhi. apply Nat.leb_le. lia.
Qed.

Lemma exec_sound (r : regex) :
  forall s cs k res,
  exec r s cs k = Some res ->
  exists w s' cs', s = w ++ s' /\ matches r w s' /\ k s' cs' = Some res.
Proof.
  induction r as [|c|cl lo hi|r1 IH1 r2 IH2|r1 IH1 r2 IH2|r1 IH1|i r1 IH1|];
    intros s cs k res H; simpl in H.
  - by exists [], s, cs.
  - destruct s as [|c' s]; [done|].
    destruct (Ascii.eqb c c') eqn:Hc; [|done]. apply Ascii.eqb_eq in Hc as <-.
    by exists [c], s, cs.
  - apply rep_sound in H as (w & s' & -> & Hall & Hlo & Hhi & Hk).
    exists w, s', cs. simpl. auto.
  - apply IH1 in H as (w1 & s1 & cs1 & -> & Hm1 & H).
    apply IH2 in H as (w2 & s2 & cs2 & -> & Hm2 & H).
    exists (w1 ++ w2), s2, cs2. rewrite <- app_assoc. split; [done|]. split; [|done].
    simpl. by exists w1, w2.
  - destruct (exec r1 s cs k) as [res'|] eqn:H1; simpl in H.
    + injection H as ->. apply IH1 in H1 as (w & s' & cs' & -> & Hm & Hk).
      exists w, s', cs'. simpl. auto.
    + apply IH2 in H as (w & s' & cs' & -> & Hm & Hk).
      exists w, s', cs'. simpl. auto.
  - destruct (exec r1 s cs k) as [res'|] eqn:H1; simpl in H.
    + injection H as ->. apply IH1 in H1 as (w & s' & cs' & -> & Hm & Hk).
      exists w, s', cs'. simpl. auto.
    + exists [], s, cs. simpl. auto.
  - apply IH1 in H as (w & s' & cs' & -> & Hm & Hk).
    eexists w, s', _. simpl. eauto.
  - destruct s; [|done]. exists [], [], cs. simpl. auto.
Qed.

Lemma matches_word (w0 : chars) (k : regex) :
  forall w rest, matches (word w0 k) w rest ->
  exists w', w = w0 ++ w' /\ matches k w' rest.
Proof.
  induction w0 as [|c w0 IH]; intros w rest H; simpl in H.
  - by exists w.
  - destruct H as (w1 & w2 & -> & -> & H2).
    apply IH in H2 as (w' & -> & Hk). by exists w'.
Qed.

(** *** Greedy repetition over a maximal run *)

(** When the rest of the pattern cannot start with a character of the
    class, a repetition in front of a maximal run [w] of the class either
    takes the whole run or fails. *)
Lemma rep_run {R : Type} (p : ascii -> bool) (k : chars -> option R) (t : chars) :
  (forall c s, p c = true -> k (c :: s) = None) ->
  stops p t ->
  forall w lo hi,
  forallb p w = true ->
  rep p lo hi (w ++ t) k
  = if (lo <=? length w) && within hi (length w) then k t else None.
Proof.
  intros Hk Ht. induction w as [|c w IH]; intros lo hi Hw; simpl.
  - assert (Hhi : within hi 0 = true) by (by destruct hi).
    rewrite Hhi, andb_true_r.
    destruct t as [|c t]; simpl.
    + by destruct lo.
    + simpl in Ht. rewrite Ht. simpl. by destruct lo.
  - simpl in Hw. apply andb_true_iff in Hw as [Hc Hw]. rewrite Hc. simpl.
    assert (Hstop : match lo with 0 => k (c :: w ++ t) | S _ => None end = None).
    { destruct lo; [|done]. by apply Hk. }
    rewrite Hstop.
    destruct hi as [h|]; simpl.
    + destruct h as [|h]; simpl; [by rewrite andb_false_r|].
      rewrite orelse_none_r, IH by done. simpl.
      by destruct lo.
    + rewrite orelse_none_r, IH by done. simpl. by destruct lo.
Qed.

(** *** Searching *)

Lemma search_found (r : regex) (s : chars) (m : captures) :
  match_start r s = Some m -> search r s = Some m.
Proof. intros H. destruct s; cbn [search]; by rewrite H. Qed.

Lemma search_skip (r : regex) (t : chars) :
  (forall b, b <> [] -> match_start r (b ++ t) = None) ->
  forall pre, search r (pre ++ t) = search r t.
Proof.
  intros Hb. induction pre as [|c pre IH]; [done|].
  pose proof (Hb (c :: pre) ltac:(done)) as Hc.
  cbn [app search] in *. rewrite Hc. apply IH.
Qed.

Lemma search_inv (r : regex) (s : chars) (m : captures) :
  search r s = Some m ->
  exists pre t, s = pre ++ t /\ match_start r t = Some m.
Proof.
  induction s as [|c s IH]; cbn [search].
  - destruct (match_start r []) eqn:H; [|done]. intros [= <-]. by exists [], [].
  - destruct (match_start r (c :: s)) eqn:H.
    + intros [= <-]. by exists [], (c :: s).
    + intros (pre & t & -> & Hm)%IH. by exists (c :: pre), t.
Qed.

(** *** Counting dots *)

Lemma dots_app (a b : chars) : dots (a ++ b) = dots a + dots b.
Proof. unfold dots. by rewrite List.filter_app, List.length_app. Qed.

Lemma dots_none (w : chars) :
  forallb (fun c => negb (is_dot c)) w = true -> dots w = 0.
Proof.
  unfold dots. induction w as [|c w IH]; simpl; [done|].
  intros [Hc Hw]%andb_true_iff. apply negb_true_iff in Hc. rewrite Hc. auto.
Qed.

Lemma dots_alpha (w : chars) : forallb is_alpha w = true -> dots w = 0.
Proof.
  unfold dots. induction w as [|c w IH]; simpl; [done|].
  intros [Hc Hw]%andb_true_iff. rewrite (alpha_is_not_dot c Hc). auto.
Qed.

End RegexFacts.

(** ** Facts about dual subtitle file names *)

Module DualNameFacts.
Import Regex RegexFacts DualName.

Lemma take_prefix (w t : chars) : take (length (w ++ t) - length t) (w ++ t) = w.
Proof.
  rewrite List.length_app, Nat.add_sub.
  by rewrite take_app_length.
Qed.

Lemma letters_alpha lo hi w : letters lo hi w = true -> forallb is_alpha w = true.
Proof. unfold letters. by intros [[H _]%andb_true_iff _]%andb_true_iff. Qed.

Lemma letters_range lo hi w :
  letters lo hi w = true -> (lo <=? length w) && (length w <=? hi) = true.
Proof.
  unfold letters. intros [[_ H1]%andb_true_iff H2]%andb_true_iff.
  by rewrite H1, H2.
Qed.

(** *** The end of the pattern: [\.[^.]+$] *)

Lemma exec_tail (ext : chars) (cs : captures) :
  forallb (fun c => negb (is_dot c)) ext = true -> 1 <= length ext ->
  exec tail_re ("."%char :: ext) cs accept = Some cs.
Proof.
  intros Hext Hlen. cbn [exec tail_re]. cbn.
  rewrite <- (app_nil_r ext) at 1.
  rewrite (rep_run (in_class NotDot)); [| |done|done].
  - apply Nat.leb_le in Hlen. by rewrite Hlen.
  - intros c s _. done.
Qed.

Lemma exec_tail_alpha (c : ascii) (s : chars) (cs : captures) :
  is_alpha c = true -> exec tail_re (c :: s) cs accept = None.
Proof. intros Hc. cbn [exec tail_re]. by rewrite (alpha_not_dot c Hc). Qed.

(** *** One language code: [[a-zA-Z]{2,3}(?:-[a-zA-Z]{2,4})?] in a group *)

Lemma exec_region_run (r t : chars) (cs : captures) K :
  forallb is_alpha r = true -> stops is_alpha t ->
  (forall c s cs', is_alpha c = true -> K (c :: s) cs' = None) ->
  exec region_re ("-"%char :: r ++ t) cs K
  = if (2 <=? length r) && (length r <=? 4) then K t cs else None.
Proof.
  intros Hr Ht HK. cbn [exec region_re]. cbn [Ascii.eqb Bool.eqb].
  rewrite (rep_run (in_class Alpha)); [done| |done|done].
  intros c s Hc. by apply HK.
Qed.

Lemma exec_region_other (t : chars) (cs : captures) K :
  match t with c :: _ => Ascii.eqb "-" c = false | [] => True end ->
  exec region_re t cs K = None.
Proof.
  intros Ht. cbn [exec region_re]. destruct t as [|c t]; [done|]. by rewrite Ht.
Qed.

(** The base of a code is a maximal run of letters [a]: the group takes it
    whole when it has two or three letters, then prefers a region. *)
Lemma exec_group_code (i : nat) (a t : chars) (cs : captures) K :
  forallb is_alpha a = true -> stops is_alpha t ->
  (forall c s cs', is_alpha c = true -> K (c :: s) cs' = None) ->
  exec (Group i code_re) (a ++ t) cs K
  = if (2 <=? length a) && (length a <=? 3)
    then orelse
           (exec region_re t cs
              (fun s' cs' =>
                 K s' ((i, take (length (a ++ t) - length s') (a ++ t)) :: cs')))
           (K t ((i, a) :: cs))
    else None.
Proof.
  intros Ha Ht HK. cbn [exec code_re].
  rewrite (rep_run (in_class Alpha)); [| |done|done].
  - cbn [within]. destruct ((2 <=? length a) && (length a <=? 3)); [|done].
    cbn [exec]. by rewrite take_prefix.
  - intros c s Hc. cbn [exec region_re]. cbn [in_class] in Hc.
    rewrite (alpha_not_hyphen c Hc). cbn [orelse]. by apply HK.
Qed.

(** *** Decomposing a language code *)

Lemma split_hyphen_app (w b : chars) (r : option chars) :
  split_hyphen w = (b, r) ->
  w = b ++ match r with Some r => "-"%char :: r | None => [] end.
Proof.
  revert b r. induction w as [|c w IH]; intros b r; simpl.
  - by intros [= <- <-].
  - destruct (Ascii.eqb c "-") eqn:Hc.
    + apply Ascii.eqb_eq in Hc as ->. by intros [= <- <-].
    + destruct (split_hyphen w) as [b' r']. intros [= <- <-].
      simpl. f_equal. by apply IH.
Qed.

Lemma is_lang_code_shape (code : string) :
  is_lang_code code = true -> code_shape code.
Proof.
  unfold is_lang_code.
  destruct (split_hyphen (list_ascii_of_string code)) as [b r] eqn:Hs.
  pose proof (split_hyphen_app _ _ _ Hs) as Happ.
  intros [Hb Hr]%andb_true_iff. destruct r as [r|].
  - apply (regional_code code b r); auto.
    unfold code_region. by rewrite Hs.
  - rewrite app_nil_r in Happ. apply (plain_code code b); auto.
    unfold code_region. by rewrite Hs.
Qed.

(** *** The second code and the extension *)

Lemma stops_hyphen t : stops is_alpha ("-"%char :: t).
Proof. done. Qed.

Lemma stops_dot t : stops is_alpha ("."%char :: t).
Proof. done. Qed.

Lemma exec_second (code : string) (ext : chars) (cs : captures) :
  is_lang_code code = true ->
  forallb (fun c => negb (is_dot c)) ext = true -> 1 <= length ext ->
  exec second_re ("-"%char :: list_ascii_of_string code ++ "."%char :: ext) cs accept
  = Some ((2, list_ascii_of_string code) :: cs).
Proof.
  intros Hcode Hext Hlen.
  change (exec (Group 2 code_re)
            (list_ascii_of_string code ++ "."%char :: ext) cs
            (fun s1 cs1 => exec tail_re s1 cs1 accept)
          = Some ((2, list_ascii_of_string code) :: cs)).
  destruct (is_lang_code_shape code Hcode) as [a Ha Hla _|a r Ha Hla Hlr _]; rewrite Ha.
  - rewrite exec_group_code;
      [|by eapply letters_alpha|apply stops_dot|intros; by apply exec_tail_alpha].
    rewrite (letters_range _ _ _ Hla).
    rewrite exec_region_other by done. cbn [orelse].
    by apply exec_tail.
  - rewrite <- app_assoc. cbn [app].
    rewrite exec_group_code;
      [|by eapply letters_alpha|apply stops_hyphen|intros; by apply exec_tail_alpha].
    rewrite (letters_range _ _ _ Hla).
    rewrite exec_region_run;
      [|by eapply letters_alpha|apply stops_dot|intros; by apply exec_tail_alpha].
    rewrite (letters_range _ _ _ Hlr).
    rewrite exec_tail by done. cbn [orelse].
    do 3 f_equal.
    change ("-"%char :: r ++ "."%char :: ext) with (("-"%char :: r) ++ "."%char :: ext).
    rewrite (app_assoc a). apply take_prefix.
Qed.

Lemma exec_second_alpha (c : ascii) (s : chars) (cs : captures) :
  is_alpha c = true -> exec second_re (c :: s) cs accept = None.
Proof. intros Hc. cbn [exec second_re]. by rewrite (alpha_not_hyphen c Hc). Qed.

Lemma exec_second_dot (s : chars) (cs : captures) :
  exec second_re ("."%char :: s) cs accept = None.
Proof. done. Qed.

(** *** The match at the marker *)

Lemma match_at_marker (u : chars) :
  match_start dual_re (list_ascii_of_string ".dual." ++ u)
  = exec (Group 1 code_re) u [] (fun s1 cs1 => exec second_re s1 cs1 accept).
Proof. reflexivity. Qed.

Lemma length_string_of_list_ascii (w : chars) :
  String.length (string_of_list_ascii w) = length w.
Proof. induction w as [|c w IH]; simpl; auto. Qed.

Section Marker.
Variables (p s : string) (ext : chars).
Hypothesis Hp : is_lang_code p = true.
Hypothesis Hs : is_lang_code s = true.
Hypothesis Hext : forallb (fun c => negb (is_dot c)) ext = true.
Hypothesis Hlen : 1 <= length ext.

Let P := list_ascii_of_string p.
Let S := list_ascii_of_string s.

(** The primary code has a region: the first group takes it. *)
Lemma match_regional_primary :
  code_region p <> None ->
  match_start dual_re
    (list_ascii_of_string ".dual." ++ P ++ "-"%char :: S ++ "."%char :: ext)
  = Some [(2, S); (1, P)].
Proof.
  intros Hreg. rewrite match_at_marker. subst P S.
  destruct (is_lang_code_shape p Hp) as [a Ha Hla Hnone|a r Ha Hla Hlr _];
    [congruence|].
  rewrite Ha, <- app_assoc. cbn [app].
  rewrite exec_group_code;
    [|by eapply letters_alpha|apply stops_hyphen|intros; by apply exec_second_alpha].
  rewrite (letters_range _ _ _ Hla).
  rewrite exec_region_run;
    [|by eapply letters_alpha|apply stops_hyphen|intros; by apply exec_second_alpha].
  rewrite (letters_range _ _ _ Hlr).
  rewrite exec_second by done. cbn [orelse]. do 4 f_equal.
  change ("-"%char :: r ++ "-"%char :: list_ascii_of_string s ++ "."%char :: ext)
    with (("-"%char :: r) ++ "-"%char :: list_ascii_of_string s ++ "."%char :: ext).
  rewrite (app_assoc a). apply take_prefix.
Qed.

(** The primary code has no region and neither has the secondary: the
    first group tries the secondary code as its region, meets the dot
    where it needs a hyphen, and gives it back. *)
Lemma match_plain_plain :
  code_region p = None -> code_region s = None ->
  match_start dual_re
    (list_ascii_of_string ".dual." ++ P ++ "-"%char :: S ++ "."%char :: ext)
  = Some [(2, S); (1, P)].
Proof.
  intros Hpn Hsn. rewrite match_at_marker. subst P S.
  destruct (is_lang_code_shape p Hp) as [a Ha Hla _|a r Ha Hla Hlr Hsome];
    [|congruence].
  pose proof (exec_second s ext [(1, a)] Hs Hext Hlen) as Hsecond.
  destruct (is_lang_code_shape s Hs) as [b Hb Hlb _|b q Hb Hlb Hlq Hsome];
    [|congruence].
  rewrite Ha. rewrite Hb in *.
  rewrite exec_group_code;
    [|by eapply letters_alpha|apply stops_hyphen|intros; by apply exec_second_alpha].
  rewrite (letters_range _ _ _ Hla).
  rewrite exec_region_run;
    [|by eapply letters_alpha|apply stops_dot|intros; by apply exec_second_alpha].
  rewrite exec_second_dot.
  destruct ((2 <=? length b) && (length b <=? 4)); cbn [orelse]; exact Hsecond.
Qed.

(** The primary code has no region and the secondary has one of four
    letters: the first group takes the secondary's base as its region,
    the second group cannot take four letters, and the first group gives
    the region back. *)
Lemma match_plain_long_region :
  code_region p = None ->
  (exists q, code_region s = Some q /\ String.length q = 4) ->
  match_start dual_re
    (list_ascii_of_string ".dual." ++ P ++ "-"%char :: S ++ "."%char :: ext)
  = Some [(2, S); (1, P)].
Proof.
  intros Hpn (q0 & Hsq & Hq4). rewrite match_at_marker. subst P S.
  destruct (is_lang_code_shape p Hp) as [a Ha Hla _|a r Ha Hla Hlr Hsome];
    [|congruence].
  pose proof (exec_second s ext [(1, a)] Hs Hext Hlen) as Hsecond.
  destruct (is_lang_code_shape s Hs) as [b Hb Hlb Hnone|b q Hb Hlb Hlq Hsome];
    [congruence|].
  assert (Hq : length q = 4).
  { rewrite Hsq in Hsome. injection Hsome as ->.
    by rewrite length_string_of_list_ascii in Hq4. }
  rewrite Ha. rewrite Hb in *. rewrite <- app_assoc. cbn [app].
  rewrite <- app_assoc in Hsecond. cbn [app] in Hsecond.
  rewrite exec_group_code;
    [|by eapply letters_alpha|apply stops_hyphen|intros; by apply exec_second_alpha].
  rewrite (letters_range _ _ _ Hla).
  rewrite exec_region_run;
    [|by eapply letters_alpha|apply stops_hyphen|intros; by apply exec_second_alpha].
  assert (Hfail : forall cs,
    exec second_re ("-"%char :: q ++ "."%char :: ext) cs accept = None).
  { intros cs.
    change (exec (Group 2 code_re) (q ++ "."%char :: ext) cs
              (fun s1 cs1 => exec tail_re s1 cs1 accept) = None).
    rewrite exec_group_code;
      [|by eapply letters_alpha|apply stops_dot|intros; by apply exec_tail_alpha].
    by rewrite Hq. }
  rewrite Hfail.
  destruct ((2 <=? length b) && (length b <=? 4)); cbn [orelse]; exact Hsecond.
Qed.

(** The remaining case: the primary code has no region and the secondary
    has one of two or three letters.  The first group keeps the
    secondary's base as its region, and the second group is the
    secondary's region. *)
Lemma match_plain_short_region (b q : chars) :
  code_region p = None ->
  S = b ++ "-"%char :: q -> letters 2 3 b = true -> letters 2 3 q = true ->
  match_start dual_re
    (list_ascii_of_string ".dual." ++ P ++ "-"%char :: S ++ "."%char :: ext)
  = Some [(2, q); (1, P ++ "-"%char :: b)].
Proof.
  intros Hpn Hb Hlb Hlq. rewrite match_at_marker. subst P S.
  destruct (is_lang_code_shape p Hp) as [a Ha Hla _|a r Ha Hla Hlr Hsome];
    [|congruence].
  rewrite Ha, Hb. rewrite <- app_assoc. cbn [app].
  rewrite exec_group_code;
    [|by eapply letters_alpha|apply stops_hyphen|intros; by apply exec_second_alpha].
  rewrite (letters_range _ _ _ Hla).
  rewrite exec_region_run;
    [|by eapply letters_alpha|apply stops_hyphen|intros; by apply exec_second_alpha].
  assert (Hb4 : (2 <=? length b) && (length b <=? 4) = true).
  { apply letters_range in Hlb. apply andb_true_iff in Hlb as [H1 H2].
    apply Nat.leb_le in H2. rewrite H1. apply Nat.leb_le. lia. }
  rewrite Hb4.
  change (exec second_re ("-"%char :: q ++ "."%char :: ext) ?cs accept)
    with (exec (Group 2 code_re) (q ++ "."%char :: ext) cs
            (fun s1 cs1 => exec tail_re s1 cs1 accept)).
  rewrite exec_group_code;
    [|by eapply letters_alpha|apply stops_dot|intros; by apply exec_tail_alpha].
  rewrite (letters_range _ _ _ Hlq).
  rewrite exec_region_other by done. cbn [orelse].
  rewrite exec_tail by done. cbn [orelse]. do 4 f_equal.
  change ("-"%char :: b ++ "-"%char :: q ++ "."%char :: ext)
    with (("-"%char :: b) ++ "-"%char :: q ++ "."%char :: ext).
  rewrite (app_assoc a). apply take_prefix.
Qed.

Lemma match_unambiguous :
  unambiguous p s = true ->
  match_start dual_re
    (list_ascii_of_string ".dual." ++ P ++ "-"%char :: S ++ "."%char :: ext)
  = Some [(2, S); (1, P)].
Proof.
  unfold unambiguous.
  destruct (code_region p) as [r|] eqn:Hrp.
  - intros _. apply match_regional_primary. congruence.
  - destruct (code_region s) as [q|] eqn:Hrs.
    + intros Hq%Nat.eqb_eq. apply match_plain_long_region; eauto.
    + intros _. by apply match_plain_plain.
Qed.
End Marker.

(** *** Nothing matches before the marker *)

Lemma matches_code_dots (g rest : chars) : matches code_re g rest -> dots g = 0.
Proof.
  cbn [matches code_re region_re].
  intros (a & o & -> & (Ha & _) & [->|(h & r & -> & -> & (Hr & _))]).
  - rewrite app_nil_r. by apply dots_alpha.
  - rewrite !dots_app, (dots_alpha a), (dots_alpha r) by done. done.
Qed.

(** A match of the whole pattern starts with the marker and contains
    exactly three dots. *)
Lemma match_start_shape (t : chars) (m : captures) :
  match_start dual_re t = Some m ->
  (exists rest, t = list_ascii_of_string ".dual." ++ rest) /\ dots t = 3.
Proof.
  unfold match_start. intros (w & s' & cs' & -> & Hm & _)%exec_sound.
  unfold dual_re, lit in Hm.
  apply matches_word in Hm as (w' & -> & Hm).
  cbn [matches second_re tail_re] in Hm.
  destruct Hm as (g1 & x & -> & Hg1 & h & y & -> & -> & g2 & z & -> & Hg2
                  & d & e' & -> & -> & e & e0 & -> & (He & _) & -> & ->).
  split.
  - eexists. by rewrite <- app_assoc.
  - rewrite !dots_app, (matches_code_dots _ _ Hg1), (matches_code_dots _ _ Hg2).
    rewrite (dots_none e) by done. reflexivity.
Qed.

Lemma lang_code_dots (code : string) :
  is_lang_code code = true -> dots (list_ascii_of_string code) = 0.
Proof.
  intros [a -> Ha _|a r -> Ha Hr _]%is_lang_code_shape.
  - eapply dots_alpha, letters_alpha. eauto.
  - rewrite dots_app. change ("-"%char :: r) with (["-"%char] ++ r).
    rewrite dots_app, (dots_alpha a), (dots_alpha r) by (by eapply letters_alpha).
    done.
Qed.

Lemma no_match_before (b : chars) (p s : string) (ext : chars) :
  b <> [] -> is_lang_code p = true -> is_lang_code s = true ->
  forallb (fun c => negb (is_dot c)) ext = true ->
  match_start dual_re
    (b ++ list_ascii_of_string ".dual." ++ list_ascii_of_string p
       ++ "-"%char :: list_ascii_of_string s ++ "."%char :: ext) = None.
Proof.
  intros Hb Hp Hs Hext.
  destruct (match_start dual_re _) as [m|] eqn:Hm; [exfalso|done].
  apply match_start_shape in Hm as [[rest Hrest] Hdots].
  change ("-"%char :: list_ascii_of_string s ++ "."%char :: ext)
    with (["-"%char] ++ list_ascii_of_string s ++ ["."%char] ++ ext) in Hdots.
  rewrite !dots_app, (lang_code_dots p), (lang_code_dots s), (dots_none ext) in Hdots
    by done.
  destruct b as [|c b]; [done|].
  injection Hrest as -> _.
  change (("."%char :: b)) with (["."%char] ++ b) in Hdots.
  rewrite dots_app in Hdots. cbn in Hdots. lia.
Qed.

(** *** The parser on composed file names *)

Lemma dual_filename_chars (base p s ext : string) :
  list_ascii_of_string (dual_filename base p s ext)
  = list_ascii_of_string base
    ++ list_ascii_of_string ".dual." ++ list_ascii_of_string p
    ++ "-"%char :: list_ascii_of_string s ++ "."%char :: list_ascii_of_string ext.
Proof.
  unfold dual_filename. by rewrite !list_ascii_of_string_app.
Qed.

Lemma is_extension_chars (ext : string) :
  is_extension ext = true ->
  forallb (fun c => negb (is_dot c)) (list_ascii_of_string ext) = true
  /\ 1 <= length (list_ascii_of_string ext).
Proof.
  unfold is_extension. intros [H1 H2]%andb_true_iff.
  split; [done|]. by apply Nat.leb_le.
Qed.

Lemma search_dual_filename (base p s ext : string) (m : captures) :
  is_lang_code p = true -> is_lang_code s = true -> is_extension ext = true ->
  match_start dual_re
    (list_ascii_of_string ".dual." ++ list_ascii_of_string p
       ++ "-"%char :: list_ascii_of_string s
       ++ "."%char :: list_ascii_of_string ext) = Some m ->
  search dual_re (list_ascii_of_string (dual_filename base p s ext)) = Some m.
Proof.
  intros Hp Hs [Hext Hlen]%is_extension_chars Hm.
  rewrite dual_filename_chars, search_skip.
  - by apply search_found.
  - intros b Hb. by apply no_match_before.
Qed.

Lemma parse_unambiguous (base p s ext : string) :
  is_lang_code p = true -> is_lang_code s = true -> is_extension ext = true ->
  unambiguous p s = true ->
  parseDualLanguages (dual_filename base p s ext) = Some (p, s).
Proof.
  intros Hp Hs Hext Hun. unfold parseDualLanguages.
  pose proof (is_extension_chars ext Hext) as [He Hlen].
  rewrite (search_dual_filename base p s ext _ Hp Hs Hext
             (match_unambiguous p s _ Hp Hs He Hlen Hun)).
  unfold group. cbn [capture Nat.eqb].
  by rewrite !string_of_list_ascii_of_string.
Qed.

(** A file name without the marker does not parse. *)
Lemma parse_needs_marker (fileName : string) :
  ~ has_marker fileName -> parseDualLanguages fileName = None.
Proof.
  intros Hno. unfold parseDualLanguages.
  destruct (search dual_re (list_ascii_of_string fileName)) as [m|] eqn:Hm; [|done].
  exfalso. apply Hno.
  apply search_inv in Hm as (pre & t & Hsplit & Hm).
  apply match_start_shape in Hm as [[rest ->] _].
  exists (string_of_list_ascii pre), (string_of_list_ascii rest).
  rewrite <- (string_of_list_ascii_of_string fileName), Hsplit.
  by rewrite !string_of_list_ascii_app.
Qed.

(** The greedy first group: with a primary code without region and a
    secondary code [b-q] whose region has two or three letters, the parser
    answers ([p-b], [q]). *)
Lemma parse_greedy (base p b q ext : string) :
  is_lang_code p = true -> code_region p = None ->
  letters 2 3 (list_ascii_of_string b) = true ->
  letters 2 3 (list_ascii_of_string q) = true ->
  is_extension ext = true ->
  parseDualLanguages (dual_filename base p (b +:+ "-" +:+ q) ext)
  = Some (p +:+ "-" +:+ b, q).
Proof.
  intros Hp Hpn Hb Hq Hext. unfold parseDualLanguages.
  pose proof (is_extension_chars ext Hext) as [He Hlen].
  assert (Hchars : list_ascii_of_string (b +:+ "-" +:+ q)
                   = list_ascii_of_string b ++ "-"%char :: list_ascii_of_string q)
    by (by rewrite !list_ascii_of_string_app).
  assert (Hs : is_lang_code (b +:+ "-" +:+ q) = true).
  { unfold is_lang_code. rewrite Hchars.
    assert (Hsplit : forall w r, forallb is_alpha w = true ->
              split_hyphen (w ++ "-"%char :: r) = (w, Some r)).
    { induction w as [|c w IH]; intros r Hw; [done|].
      simpl in Hw. apply andb_true_iff in Hw as [Hc Hw]. simpl.
      rewrite Ascii.eqb_sym, (alpha_not_hyphen c Hc). by rewrite IH. }
    rewrite Hsplit by (by eapply letters_alpha). rewrite Hb. simpl.
    unfold letters in *.
    apply andb_true_iff in Hq as [[Hq1 Hq2]%andb_true_iff Hq3].
    rewrite Hq1, Hq2. simpl. apply Nat.leb_le in Hq3. apply Nat.leb_le. lia. }
  rewrite (search_dual_filename base p (b +:+ "-" +:+ q) ext _ Hp Hs Hext
             (match_plain_short_region p _ _ Hp He Hlen _ _ Hpn Hchars Hb Hq)).
  unfold group. cbn [capture Nat.eqb].
  rewrite string_of_list_ascii_app. cbn [string_of_list_ascii].
  by rewrite !string_of_list_ascii_of_string.
Qed.

(** Outside the unambiguous pairs the parser does not read the codes back. *)
Lemma parse_ambiguous (base p s ext : string) :
  is_lang_code p = true -> is_lang_code s = true -> is_extension ext = true ->
  unambiguous p s = false ->
  parseDualLanguages (dual_filename base p s ext) <> Some (p, s).
Proof.
  intros Hp Hs Hext Hun. unfold parseDualLanguages.
  pose proof (is_extension_chars ext Hext) as [He Hlen].
  unfold unambiguous in Hun.
  destruct (code_region p) eqn:Hrp; [done|].
  destruct (is_lang_code_shape s Hs) as [b Hb Hlb Hnone|b q Hb Hlb Hlq Hsome];
    [by rewrite Hnone in Hun|].
  rewrite Hsome in Hun. rewrite length_string_of_list_ascii in Hun.
  apply Nat.eqb_neq in Hun.
  assert (Hq3 : letters 2 3 q = true).
  { unfold letters in *.
    apply andb_true_iff in Hlq as [[Hq1 Hq2]%andb_true_iff Hq3].
    rewrite Hq1, Hq2. simpl. apply Nat.leb_le in Hq3. apply Nat.leb_le. lia. }
  rewrite (search_dual_filename base p s ext _ Hp Hs Hext
             (match_plain_short_region p s _ Hp He Hlen b q Hrp Hb Hlb Hq3)).
  unfold group. cbn [capture Nat.eqb].
  intros [= _ Hsq].
  apply (f_equal list_ascii_of_string) in Hsq.
  rewrite list_ascii_of_string_of_list_ascii, Hb in Hsq.
  apply (f_equal (@length ascii)) in Hsq.
  rewrite List.length_app in Hsq. simpl in Hsq. lia.
Qed.

(** Where the parser reads the codes back: from a file name
    [<base>.dual.<primary>-<secondary>.<ext>] the two language codes come
    back as they were written whenever the primary code has a region
    suffix, or the secondary code has none, or the secondary's region has
    four letters (codes of two or three letters, optionally a hyphen and a
    region of two to four letters; extensions non-empty and without a
    dot); and a file name without the [.dual.] marker gives null. *)
Theorem parseDualLanguages_reads_back (base p s ext fileName : string) :
  is_lang_code p = true -> is_lang_code s = true -> is_extension ext = true ->
  unambiguous p s = true -> ~ has_marker fileName ->
  parseDualLanguages (dual_filename base p s ext) = Some (p, s)
  /\ parseDualLanguages fileName = None.
Proof.
  intros Hp Hs Hext Hun Hno. split.
  - by apply parse_unambiguous.
  - by apply parse_needs_marker.
Qed.

Lemma no_marker_in_plain_name : ~ has_marker "Movie.en.srt".
Proof.
  intros (pre & post & H).
  apply (f_equal list_ascii_of_string) in H.
  rewrite !list_ascii_of_string_app in H.
  remember (list_ascii_of_string post) as t eqn:Ht. clear Ht.
  remember (list_ascii_of_string pre) as w eqn:Hw. clear Hw.
  cbn in H.
  do 12 (destruct w as [|? w]; [discriminate H|injection H as _ H]).
  destruct w; discriminate H.
Qed.

Lemma parseDualLanguages_reads_back_witness :
  parseDualLanguages (dual_filename "Movie Name" "zh-TW" "en" "srt")
    = Some ("zh-TW", "en")
  /\ parseDualLanguages "Movie.en.srt" = None.
Proof.
  apply (parseDualLanguages_reads_back "Movie Name" "zh-TW" "en" "srt" "Movie.en.srt");
    [reflexivity..|apply no_marker_in_plain_name].
Defined.

(** C7: the parser does not read back every pair of codes.  English with
    Traditional Chinese is written as [Movie.dual.en-zh-TW.srt], and the
    parser answers ([en-zh], [TW]) instead of ([en], [zh-TW]): the first
    group takes [-zh] for the region of the primary code. *)
Lemma parseDualLanguages_misreads :
  is_lang_code "en" = true /\ is_lang_code "zh-TW" = true
  /\ is_extension "srt" = true
  /\ dual_filename "Movie" "en" "zh-TW" "srt" = "Movie.dual.en-zh-TW.srt"
  /\ parseDualLanguages (dual_filename "Movie" "en" "zh-TW" "srt")
     = Some ("en-zh", "TW")
  /\ parseDualLanguages (dual_filename "Movie" "en" "zh-TW" "srt")
     <> Some ("en", "zh-TW").
Proof. repeat split; try reflexivity. vm_compute. discriminate. Qed.

(** No parser could do better: two different pairs of codes are written to
    the same file name. *)
Lemma dual_filename_not_injective :
  is_lang_code "en-zh" = true /\ is_lang_code "TW" = true
  /\ dual_filename "Movie" "en" "zh-TW" "srt"
     = dual_filename "Movie" "en-zh" "TW" "srt".
Proof. repeat split; reflexivity. Qed.

End DualNameFacts.

(** ** Facts about language detection from file names *)

Module LangFacts.
Import Regex RegexFacts Lang.

(** *** Lower case *)

Lemma lower_char_idem (c : ascii) : lower_char (lower_char c) = lower_char c.
Proof. destruct c as [[] [] [] [] [] [] [] []]; reflexivity. Qed.

Lemma lower_char_dot (c : ascii) : is_dot (lower_char c) = is_dot c.
Proof. destruct c as [[] [] [] [] [] [] [] []]; reflexivity. Qed.

Lemma toLowerCase_idem (s : string) : toLowerCase (toLowerCase s) = toLowerCase s.
Proof. induction s as [|c s IH]; simpl; [done|]. by rewrite lower_char_idem, IH. Qed.

(** Lowering the file name and splitting it is splitting it and lowering
    the segments. *)
Lemma split_dot_lower (s : string) :
  split_dot (toLowerCase s) = map toLowerCase (split_dot s).
Proof.
  induction s as [|c s IH]; simpl; [done|].
  rewrite lower_char_dot, IH.
  destruct (is_dot c); [done|].
  by destruct (split_dot s).
Qed.

Lemma get_lower (segment : string) :
  getLanguageByCommonCode (toLowerCase segment) = getLanguageByCommonCode segment.
Proof. unfold getLanguageByCommonCode. by rewrite toLowerCase_idem. Qed.

(** *** The table *)

Lemma table_codes_distinct : NoDup (map code COMPREHENSIVE_LANGUAGES).
Proof. apply (bool_decide_unpack _). vm_compute. reflexivity. Qed.

Lemma table_is_unambiguous : table_unambiguous.
Proof. apply (bool_decide_unpack _). vm_compute. reflexivity. Qed.

Lemma matches_code_keys (n : string) (lang : LanguageInfo) :
  matches_code n lang = true <-> exists key, In key (keys lang) /\ toLowerCase key = n.
Proof.
  unfold matches_code, keys. rewrite orb_true_iff, String.eqb_eq. split.
  - intros [H|H].
    + exists (code lang). split; [by left|done].
    + destruct (commonCodes lang) as [codes|]; [|done].
      apply existsb_exists in H as (c & Hin & Hc%String.eqb_eq).
      exists c. split; [by right|done].
  - intros (key & [<-|Hin] & Hkey); [by left|right].
    destruct (commonCodes lang) as [codes|]; [|done].
    apply existsb_exists. exists key. split; [done|]. by apply String.eqb_eq.
Qed.

(** The table lookup finds the one entry that the segment identifies. *)
Lemma get_spec (segment : string) (lang : LanguageInfo) :
  getLanguageByCommonCode segment = Some lang
  <-> In lang COMPREHENSIVE_LANGUAGES /\ identifies segment lang.
Proof.
  unfold getLanguageByCommonCode, identifies. split.
  - intros [Hin Hm]%find_some. split; [done|]. by apply matches_code_keys.
  - intros (Hin & key & Hkey & <-).
    pose proof table_is_unambiguous as Ht. unfold table_unambiguous in Ht.
    rewrite Forall_forall in Ht. specialize (Ht lang (proj2 (list_elem_of_In _ _) Hin)).
    rewrite Forall_forall in Ht. by apply Ht, list_elem_of_In.
Qed.

Lemma get_in_table (segment : string) (lang : LanguageInfo) :
  getLanguageByCommonCode segment = Some lang -> In lang COMPREHENSIVE_LANGUAGES.
Proof. by intros [H _]%get_spec. Qed.

Lemma NoDup_map_inj {A B : Type} (f : A -> B) (l : list A) (x y : A) :
  NoDup (map f l) -> In x l -> In y l -> f x = f y -> x = y.
Proof.
  induction l as [|z l IH]; simpl; [done|].
  intros [Hz Hl]%NoDup_cons [->|Hx] [->|Hy] Hf; auto.
  - exfalso. apply Hz. rewrite Hf. by apply list_elem_of_In, in_map.
  - exfalso. apply Hz. rewrite <- Hf. by apply list_elem_of_In, in_map.
Qed.

Lemma table_code_inj (x y : LanguageInfo) :
  In x COMPREHENSIVE_LANGUAGES -> In y COMPREHENSIVE_LANGUAGES ->
  code x = code y -> x = y.
Proof. apply NoDup_map_inj, table_codes_distinct. Qed.

(** *** The loop *)

Lemma unseen_nil (l : list LanguageInfo) : unseen [] l = l.
Proof. unfold unseen. induction l as [|x l IH]; simpl; [done|]. f_equal. exact IH. Qed.

Lemma unseen_cons_seen (found : list LanguageInfo) (x : LanguageInfo)
    (l : list LanguageInfo) :
  existsb (fun l => String.eqb (code l) (code x)) found = true ->
  unseen found (x :: List.filter (fun y => negb (String.eqb (code y) (code x))) l)
  = unseen found l.
Proof.
  intros Hx. unfold unseen. simpl. rewrite Hx. simpl.
  induction l as [|y l IH]; simpl; [done|].
  destruct (String.eqb (code y) (code x)) eqn:Hyx; simpl.
  - apply String.eqb_eq in Hyx. rewrite Hyx, Hx. simpl. exact IH.
  - destruct (existsb _ found); simpl; by rewrite IH.
Qed.

Lemma unseen_snoc (found : list LanguageInfo) (x : LanguageInfo)
    (l : list LanguageInfo) :
  unseen (found ++ [x]) l
  = unseen found (List.filter (fun y => negb (String.eqb (code y) (code x))) l).
Proof.
  unfold unseen. induction l as [|y l IH]; simpl; [done|].
  rewrite existsb_app. simpl. rewrite orb_false_r.
  rewrite (String.eqb_sym (code x) (code y)).
  destruct (String.eqb (code y) (code x)); simpl.
  - by rewrite orb_true_r.
  - rewrite orb_false_r. destruct (existsb _ found); simpl; by rewrite IH.
Qed.

(** The loop appends to what it has found the first occurrences of the
    languages identified by the remaining segments. *)
Lemma fold_visit (parts : list string) :
  forall found,
  fold_left visit_part (map toLowerCase parts) found
  = found ++ unseen found
      (first_occurrences
         (omap getLanguageByCommonCode
            (List.filter (fun seg => negb (is_skipped (toLowerCase seg))) parts))).
Proof.
  induction parts as [|part parts IH]; intros found; cbn [map fold_left List.filter].
  - cbn. by rewrite app_nil_r.
  - rewrite IH. unfold visit_part. rewrite get_lower.
    destruct (is_skipped (toLowerCase part)); cbn [negb]; [done|].
    cbn [omap list_omap].
    destruct (getLanguageByCommonCode part) as [language|]; [|done].
    cbn [first_occurrences].
    destruct (existsb _ found) eqn:Hseen.
    + by rewrite unseen_cons_seen.
    + rewrite unseen_snoc. unfold unseen at 2. cbn [List.filter].
      rewrite Hseen. cbn [negb]. by rewrite <- app_assoc.
Qed.

Lemma extract_first_occurrences (filename : string) :
  extractLanguageFromFilename filename = first_occurrences (identified filename).
Proof.
  unfold extractLanguageFromFilename, identified, candidate_segments.
  by rewrite split_dot_lower, fold_visit, unseen_nil.
Qed.

(** *** First occurrences *)

Lemma in_first_occurrences (x : LanguageInfo) (l : list LanguageInfo) :
  In x (first_occurrences l) -> In x l.
Proof.
  induction l as [|y l IH]; simpl; [done|].
  intros [->|Hin]; [by left|]. apply filter_In in Hin as [Hin _]. auto.
Qed.

Lemma first_occurrences_keeps (x : LanguageInfo) (l : list LanguageInfo) :
  In x l -> exists y, In y (first_occurrences l) /\ code y = code x.
Proof.
  induction l as [|z l IH]; simpl; [done|].
  intros [->|Hin]; [exists x; auto|].
  destruct (IH Hin) as (y & Hy & Hc).
  destruct (String.eqb (code y) (code z)) eqn:Hyz.
  - apply String.eqb_eq in Hyz. exists z. split; [by left|congruence].
  - exists y. split; [|done]. right. apply filter_In. by rewrite Hyz.
Qed.

Lemma first_occurrences_nodup (l : list LanguageInfo) :
  NoDup (map code (first_occurrences l)).
Proof.
  induction l as [|x l IH]; simpl; [constructor|].
  apply NoDup_cons. split.
  - intros Hin. apply list_elem_of_In, in_map_iff in Hin as (y & Hc & Hy).
    apply filter_In in Hy as [_ Hy]. apply negb_true_iff, String.eqb_neq in Hy.
    done.
  - by apply BulkFacts.NoDup_map_filter.
Qed.

Lemma identified_spec (filename : string) (lang : LanguageInfo) :
  In lang (identified filename)
  <-> In lang COMPREHENSIVE_LANGUAGES
      /\ exists seg, In seg (split_dot filename)
                     /\ is_skipped (toLowerCase seg) = false
                     /\ identifies seg lang.
Proof.
  unfold identified, candidate_segments.
  rewrite <- list_elem_of_In, list_elem_of_omap. split.
  - intros (seg & Hseg & Hget).
    apply list_elem_of_In, filter_In in Hseg as [Hseg Hskip].
    apply negb_true_iff in Hskip. apply get_spec in Hget as [Hin Hid].
    split; [done|]. by exists seg.
  - intros (Hin & seg & Hseg & Hskip & Hid). exists seg. split.
    + apply list_elem_of_In, filter_In. by rewrite Hskip.
    + by apply get_spec.
Qed.

Lemma identified_in_table (filename : string) (lang : LanguageInfo) :
  In lang (identified filename) -> In lang COMPREHENSIVE_LANGUAGES.
Proof. by intros [H _]%identified_spec. Qed.

Lemma extract_spec (filename : string) (lang : LanguageInfo) :
  In lang (extractLanguageFromFilename filename)
  <-> In lang COMPREHENSIVE_LANGUAGES
      /\ exists seg, In seg (split_dot filename)
                     /\ is_skipped (toLowerCase seg) = false
                     /\ identifies seg lang.
Proof.
  rewrite extract_first_occurrences, <- identified_spec. split.
  - apply in_first_occurrences.
  - intros Hin. destruct (first_occurrences_keeps _ _ Hin) as (y & Hy & Hc).
    assert (y = lang) as <-; [|done].
    apply table_code_inj; [|by eapply identified_in_table|done].
    eapply identified_in_table, in_first_occurrences, Hy.
Qed.

(** *** The skipped segments *)

Lemma chars_inj (a b : string) :
  list_ascii_of_string a = list_ascii_of_string b -> a = b.
Proof.
  intros H. rewrite <- (string_of_list_ascii_of_string a), H.
  apply string_of_list_ascii_of_string.
Qed.

Lemma skipped_sound (part : string) : is_skipped part = true -> skippable part.
Proof.
  unfold is_skipped, match_start.
  destruct (exec skip_re _ [] accept) as [m|] eqn:Hm; [intros _|done].
  apply exec_sound in Hm as (w & s' & cs' & Hsplit & Hm & _).
  cbn [matches skip_re] in Hm.
  destruct Hm as (w1 & w2 & -> & Hm & -> & ->).
  rewrite !app_nil_r in *.
  unfold skippable, skip_words.
  destruct Hm as [Hm|[Hm|[Hm|[Hm|[Hm|[Hm|[Hm|[Hm|Hm]]]]]]]].
  1-7: left; unfold lit in Hm; apply matches_word in Hm as (w' & Hw & Hw');
       cbn [matches] in Hw'; subst w'; rewrite Hw, app_nil_r in Hsplit;
       apply chars_inj in Hsplit as ->; simpl; tauto.
  - right. left. cbn [matches episode_re] in Hm.
    destruct Hm as (h & x & Hw & Hh & n & y & Hx & (Hn & Hn1 & _)
                    & e & m' & Hy & He & (Hm' & Hm1 & _)).
    subst. exists n, m'. repeat split; auto.
  - right. right. cbn [matches season_re] in Hm.
    destruct Hm as (n & y & Hw & (Hn & Hn1 & _)
                    & e & m' & Hy & He & (Hm' & Hm1 & _)).
    subst. exists n, m'. repeat split; auto.
Qed.

Lemma digit_not (c d : ascii) :
  is_digit d = true -> is_digit c = false -> Ascii.eqb c d = false.
Proof.
  intros Hd Hc. destruct (Ascii.eqb c d) eqn:H; [|done].
  apply Ascii.eqb_eq in H as ->. congruence.
Qed.

Ltac eval_eqb d Hd :=
  repeat match goal with
  | |- context [Ascii.eqb ?a d] => rewrite (digit_not a d Hd) by reflexivity
  | |- context [Ascii.eqb ?a ?b] =>
      let r := eval vm_compute in (Ascii.eqb a b) in
      change (Ascii.eqb a b) with r
  end.

(** Two runs of digits around a separator that is not a digit. *)
Lemma rep_digits_sep (sep : ascii) (n m : chars) (f : chars -> captures) :
  is_digit sep = false -> digits n -> digits m ->
  rep (in_class Digit) 1 None (n ++ sep :: m)
    (fun s' =>
       match s' with
       | [] => None
       | c' :: s'0 =>
           if Ascii.eqb sep c'
           then rep (in_class Digit) 1 None s'0
                  (fun s'1 => match s'1 with
                              | [] => accept s'1 (f s'1)
                              | _ :: _ => None
                              end)
           else None
       end)
  = Some (f []).
Proof.
  intros Hsep [Hn Hn1] [Hm Hm1].
  rewrite (rep_run (in_class Digit)); [| |done|done].
  - apply Nat.leb_le in Hn1. rewrite Hn1. cbn [andb within].
    rewrite Ascii.eqb_refl. rewrite <- (app_nil_r m) at 1.
    rewrite (rep_run (in_class Digit)); [| |done|done].
    + apply Nat.leb_le in Hm1. by rewrite Hm1.
    + intros c s _. done.
  - intros c s Hc. by rewrite (digit_not sep c Hc Hsep).
Qed.

Lemma skipped_episode (n m : chars) :
  digits n -> digits m ->
  match_start skip_re ("s"%char :: n ++ "e"%char :: m) <> None.
Proof.
  intros Hn Hm. unfold match_start.
  destruct n as [|d n]; [destruct Hn as [_ Hn]; simpl in Hn; lia|].
  assert (Hd : is_digit d = true) by (destruct Hn as [Hn _]; simpl in Hn;
    by apply andb_true_iff in Hn as [Hd _]).
  cbn -[Ascii.eqb rep take length accept].
  eval_eqb d Hd. cbn [orelse].
  match goal with |- orelse ?X _ <> None => assert (HX : exists cs, X = Some cs) end.
  { eexists. by apply (rep_digits_sep "e" (d :: n) m). }
  destruct HX as [cs ->]. done.
Qed.

Lemma skipped_season (n m : chars) :
  digits n -> digits m ->
  match_start skip_re (n ++ "x"%char :: m) <> None.
Proof.
  intros Hn Hm. unfold match_start.
  destruct n as [|d n]; [destruct Hn as [_ Hn]; simpl in Hn; lia|].
  assert (Hd : is_digit d = true) by (destruct Hn as [Hn _]; simpl in Hn;
    by apply andb_true_iff in Hn as [Hd _]).
  cbn -[Ascii.eqb rep take length accept].
  eval_eqb d Hd. cbn [orelse].
  match goal with |- ?X <> None => assert (HX : exists cs, X = Some cs) end.
  { eexists. by apply (rep_digits_sep "x" (d :: n) m). }
  destruct HX as [cs ->]. done.
Qed.

Lemma skipped_complete (part : string) : skippable part -> is_skipped part = true.
Proof.
  unfold is_skipped. intros [Hw|[(n & m & Hn & Hm & ->)|(n & m & Hn & Hm & ->)]].
  - unfold skip_words in Hw. simpl in Hw.
    destruct Hw as [<-|[<-|[<-|[<-|[<-|[<-|[<-|[]]]]]]]]; reflexivity.
  - pose proof (skipped_episode n m Hn Hm). by destruct (match_start _ _).
  - pose proof (skipped_season n m Hn Hm). by destruct (match_start _ _).
Qed.

Lemma skipped_spec (part : string) : is_skipped part = true <-> skippable part.
Proof. split; [apply skipped_sound|apply skipped_complete]. Qed.

(** *** The specification of [extractLanguageFromFilename] *)

(** C8, as amended: [extractLanguageFromFilename] returns, in segment order
    and without duplicate codes, exactly the table entries whose code or
    listed common code equals, letter case aside and after the white space
    around the segment is trimmed, some dot-separated segment of the file
    name that is not skipped; the skipped segments are srt, ass, vtt, sub,
    idx, ssa, txt and the episode numbers s<digits>e<digits> and
    <digits>x<digits> (tested on the lower-cased segment); a segment jp
    gives ja, eng gives en and zh-hant gives zh-TW. *)
Theorem extractLanguageFromFilename_spec (filename : string) :
  extractLanguageFromFilename filename = first_occurrences (identified filename)
  /\ NoDup (map code (extractLanguageFromFilename filename))
  /\ (forall lang,
        In lang (extractLanguageFromFilename filename)
        <-> In lang COMPREHENSIVE_LANGUAGES
            /\ exists seg, In seg (split_dot filename)
                           /\ is_skipped (toLowerCase seg) = false
                           /\ identifies seg lang)
  /\ (forall part, is_skipped part = true <-> skippable part)
  /\ (code <$> getLanguageByCommonCode "jp" = Some "ja"
      /\ code <$> getLanguageByCommonCode "eng" = Some "en"
      /\ code <$> getLanguageByCommonCode "zh-hant" = Some "zh-TW")
  /\ (map code (extractLanguageFromFilename "Movie.JP.srt") = ["ja"]
      /\ map code (extractLanguageFromFilename "Movie.S01E02.eng.srt") = ["en"]
      /\ map code (extractLanguageFromFilename "Movie.zh-Hant.en.ENG.ass")
         = ["zh-TW"; "en"]).
Proof.
  split; [apply extract_first_occurrences|].
  split; [rewrite extract_first_occurrences; apply first_occurrences_nodup|].
  split; [intros lang; apply extract_spec|].
  split; [apply skipped_spec|].
  split; repeat split; reflexivity.
Qed.

(** A segment with a leading space: [" en"] is no key of the table, yet
    the file name yields English, because the lookup trims the segment. *)
Lemma extract_trims_segments :
  split_dot "Show. en.srt" = ["Show"; " en"; "srt"]
  /\ map code (extractLanguageFromFilename "Show. en.srt") = ["en"]
  /\ (forall seg lang,
        In seg (split_dot "Show. en.srt") -> In lang COMPREHENSIVE_LANGUAGES ->
        ~ names seg lang).
Proof.
  split; [reflexivity|]. split; [reflexivity|].
  intros seg lang Hseg Hlang Hnames.
  assert (Hm : matches_code (toLowerCase seg) lang = true)
    by (by apply matches_code_keys).
  assert (Hnone : List.find (matches_code (toLowerCase seg)) COMPREHENSIVE_LANGUAGES
                  = None).
  { simpl in Hseg. destruct Hseg as [<-|[<-|[<-|[]]]]; vm_compute; reflexivity. }
  pose proof (find_none _ _ Hnone lang Hlang) as Hf. congruence.
Qed.

End LangFacts.

(** ** Facts about the synthesis pipeline *)

Module PipelineFacts.
Import Pipeline.

(** *** The stable sort *)

Lemma insert_cue_perm (c : Cue) (l : list Cue) : Permutation (insert_cue c l) (c :: l).
Proof.
  induction l as [|d l IH]; simpl; [done|].
  destruct (cue_start d <? cue_start c)%N; [|done].
  rewrite IH. apply Permutation_swap.
Qed.

Lemma sort_cues_perm (l : list Cue) : Permutation (sort_cues l) l.
Proof.
  induction l as [|c l IH]; simpl; [done|].
  by rewrite insert_cue_perm, IH.
Qed.

Lemma sort_cues_length (l : list Cue) : length (sort_cues l) = length l.
Proof. apply Permutation_length, sort_cues_perm. Qed.

Lemma insert_cue_sorted (c : Cue) (l : list Cue) :
  StronglySorted by_start l -> StronglySorted by_start (insert_cue c l).
Proof.
  induction l as [|d l IH]; simpl; intros Hs.
  - repeat constructor.
  - apply StronglySorted_inv in Hs as [Hl Hd].
    destruct (cue_start d <? cue_start c)%N eqn:Hlt.
    + constructor; [auto|].
      apply N.ltb_lt in Hlt.
      rewrite insert_cue_perm. constructor; [unfold by_start; lia|done].
    + apply N.ltb_ge in Hlt.
      constructor; [by constructor|].
      constructor; [done|].
      eapply Forall_impl; [exact Hd|]. unfold by_start. intros; lia.
Qed.

Lemma sort_cues_sorted (l : list Cue) : StronglySorted by_start (sort_cues l).
Proof.
  induction l as [|c l IH]; simpl; [constructor|]. by apply insert_cue_sorted.
Qed.

(** Stability: the cues that start at a given time keep the order they had
    in the input. *)
Lemma insert_cue_ties (t : N) (c : Cue) (l : list Cue) :
  StronglySorted by_start l ->
  List.filter (fun d => (cue_start d =? t)%N) (insert_cue c l)
  = List.filter (fun d => (cue_start d =? t)%N) (c :: l).
Proof.
  induction l as [|d l IH]; intros Hs; [done|].
  apply StronglySorted_inv in Hs as [Hl Hd].
  cbn [insert_cue].
  destruct (cue_start d <? cue_start c)%N eqn:Hlt; [|done].
  apply N.ltb_lt in Hlt.
  cbn [List.filter] in *. rewrite (IH Hl).
  destruct (cue_start c =? t)%N eqn:Hc; [|done].
  destruct (cue_start d =? t)%N eqn:Hdt; [|done].
  apply N.eqb_eq in Hc, Hdt. lia.
Qed.

Lemma sort_cues_ties (t : N) (l : list Cue) :
  List.filter (fun d => (cue_start d =? t)%N) (sort_cues l)
  = List.filter (fun d => (cue_start d =? t)%N) l.
Proof.
  induction l as [|c l IH]; [done|].
  cbn [sort_cues]. rewrite insert_cue_ties by apply sort_cues_sorted.
  cbn [List.filter]. by rewrite IH.
Qed.

(** *** Merge *)

Lemma Merge_perm (A B : Track) (cfg : DualSubtitleConfig) :
  Permutation (cues (Merge A B cfg))
    (map (place Primary (enable_language_prefix cfg) (primary_language cfg)) (cues A)
     ++ map (place Secondary (enable_language_prefix cfg) (secondary_language cfg))
            (cues B)).
Proof. apply sort_cues_perm. Qed.

Lemma Merge_length (A B : Track) (cfg : DualSubtitleConfig) :
  length (cues (Merge A B cfg)) = length (cues A) + length (cues B).
Proof.
  unfold Merge. cbn [cues].
  by rewrite sort_cues_length, List.length_app, !length_map.
Qed.

Lemma Merge_sorted (A B : Track) (cfg : DualSubtitleConfig) :
  StronglySorted by_start (cues (Merge A B cfg)).
Proof. apply sort_cues_sorted. Qed.

(** Cues that share a start time: the primary track's come first. *)
Lemma Merge_ties (t : N) (A B : Track) (cfg : DualSubtitleConfig) :
  List.filter (fun d => (cue_start d =? t)%N) (cues (Merge A B cfg))
  = List.filter (fun d => (cue_start d =? t)%N)
      (map (place Primary (enable_language_prefix cfg) (primary_language cfg)) (cues A))
    ++ List.filter (fun d => (cue_start d =? t)%N)
         (map (place Secondary (enable_language_prefix cfg) (secondary_language cfg))
              (cues B)).
Proof. unfold Merge. cbn [cues]. by rewrite sort_cues_ties, List.filter_app. Qed.

(** Every cue of the output is a cue of an input, with its own timing. *)
Lemma Merge_timing (A B : Track) (cfg : DualSubtitleConfig) :
  Permutation (map (fun c => (cue_start c, cue_end c)) (cues (Merge A B cfg)))
    (map (fun c => (cue_start c, cue_end c)) (cues A ++ cues B)).
Proof.
  rewrite (Permutation_map _ (Merge_perm A B cfg)).
  rewrite !map_app, !map_map. done.
Qed.

Section Creation.
Variable Media : Type.
Variable tool : Track -> Reference Media -> ToolOutcome.

Lemma create_total_lines (cfg : DualSubtitleConfig) (media : Media)
    (A B : Track) (r : DualSubtitleResult Media) :
  create_dual_subtitle Media tool cfg media A B = inr r ->
  total_lines (details r) = primary_lines (details r) + secondary_lines (details r)
  /\ total_lines (details r) = length (cues (output r)).
Proof.
  unfold create_dual_subtitle.
  destruct (String.eqb _ _); [done|].
  destruct (cues A); [done|]. destruct (cues B); [done|].
  destruct (if enable_sync cfg then _ else _) as [[p s] trace].
  intros [= <-]. cbn. split; [apply Merge_length|done].
Qed.

Lemma create_valid (cfg : DualSubtitleConfig) (media : Media) (A B : Track) :
  valid_request cfg A B ->
  exists r, create_dual_subtitle Media tool cfg media A B = inr r.
Proof.
  intros (Hlang & HA & HB). unfold create_dual_subtitle.
  apply String.eqb_neq in Hlang. rewrite Hlang.
  destruct (cues A); [done|]. destruct (cues B); [done|].
  destruct (if enable_sync cfg then _ else _) as [[p s] trace].
  eauto.
Qed.

(** Every invocation of the adapter logs itself, and nothing else. *)
Lemma Synchronize_calls (target : Track) (ref : Reference Media) :
  trace_calls (snd (Synchronize Media tool target ref)) = [mkSyncCall target ref].
Proof.
  unfold Synchronize. by destruct (tool target ref) as [[|n|n] out| |].
Qed.

(** The run of hybrid synchronization, step by step. *)
Lemma hybrid_sync_run (media : Media) (A B : Track) :
  let first := Synchronize Media tool A (RefMedia media) in
  let second := Synchronize Media tool B (RefTrack (fst first)) in
  hybrid_sync Media tool media A B
  = ((fst first, fst second),
     mkTrace [mkSyncCall A (RefMedia media); mkSyncCall B (RefTrack (fst first))]
             (trace_warnings (snd first) ++ trace_warnings (snd second))).
Proof.
  intros first second. unfold hybrid_sync, bind, ret.
  pose proof (Synchronize_calls A (RefMedia media)) as H1.
  pose proof (Synchronize_calls B (RefTrack (fst first))) as H2.
  fold first in H1. fold second in H2.
  destruct (Synchronize Media tool A (RefMedia media)) as [p t1] eqn:Hp.
  subst first. cbn [fst snd] in *.
  destruct (Synchronize Media tool B (RefTrack p)) as [s t2] eqn:Hs.
  subst second. cbn [fst snd] in *.
  cbn [trace_calls trace_warnings]. rewrite H1, H2, !app_nil_r. done.
Qed.

Lemma create_synced (cfg : DualSubtitleConfig) (media : Media)
    (A B : Track) (r : DualSubtitleResult Media) :
  enable_sync cfg = true ->
  create_dual_subtitle Media tool cfg media A B = inr r ->
  let first := Synchronize Media tool A (RefMedia media) in
  let second := Synchronize Media tool B (RefTrack (fst first)) in
  output r = Merge (fst first) (fst second) cfg
  /\ sync_calls r
     = [mkSyncCall A (RefMedia media); mkSyncCall B (RefTrack (fst first))]
  /\ sync_warnings (details r)
     = trace_warnings (snd first) ++ trace_warnings (snd second).
Proof.
  intros Hsync. unfold create_dual_subtitle. rewrite Hsync.
  destruct (String.eqb _ _); [done|].
  destruct (cues A); [done|]. destruct (cues B); [done|].
  rewrite hybrid_sync_run. intros [= <-]. done.
Qed.


Lemma Synchronize_fallback (target : Track) (ref : Reference Media) :
  tool_failed (tool target ref) ->
  fst (Synchronize Media tool target ref) = target
  /\ trace_warnings (snd (Synchronize Media tool target ref)) <> [].
Proof.
  unfold Synchronize, tool_failed.
  destruct (tool target ref) as [[|n|n] out| |]; done.
Qed.

(** C3: a merge keeps every cue of its two inputs: the output has
    len(A) + len(B) cues, they are the inputs' cues (tagged with their
    slot and optionally prefixed) in another order, each with its own
    timing; the result of a successful creation reports
    total_lines = primary_lines + secondary_lines, the number of cues of
    the output; and 120 and 118 cues give 238. *)
Theorem Merge_preserves_cues (cfg : DualSubtitleConfig) (media : Media)
    (A B : Track) (r : DualSubtitleResult Media) :
  create_dual_subtitle Media tool cfg media A B = inr r ->
  length (cues (Merge A B cfg)) = length (cues A) + length (cues B)
  /\ Permutation (cues (Merge A B cfg))
       (map (place Primary (enable_language_prefix cfg) (primary_language cfg)) (cues A)
        ++ map (place Secondary (enable_language_prefix cfg) (secondary_language cfg))
               (cues B))
  /\ Permutation (map (fun c => (cue_start c, cue_end c)) (cues (Merge A B cfg)))
       (map (fun c => (cue_start c, cue_end c)) (cues A ++ cues B))
  /\ total_lines (details r) = primary_lines (details r) + secondary_lines (details r)
  /\ total_lines (details r) = length (cues (output r))
  /\ (length (cues A) = 120 -> length (cues B) = 118 ->
      length (cues (Merge A B cfg)) = 238).
Proof.
  intros Hr.
  split; [apply Merge_length|].
  split; [apply Merge_perm|].
  split; [apply Merge_timing|].
  destruct (create_total_lines cfg media A B r Hr) as [Ht Ho].
  split; [exact Ht|]. split; [exact Ho|].
  intros HA HB. by rewrite Merge_length, HA, HB.
Qed.


End Creation.

(** 120 English and 118 Japanese cues, prefixes on, sync off: 238 cues. *)
Lemma Merge_preserves_cues_witness :
  exists r,
    create_dual_subtitle string stuck_tool prefixed_config "episode.mkv"
                         english_120 japanese_118 = inr r
    /\ length (cues (Merge english_120 japanese_118 prefixed_config)) = 238
    /\ total_lines (details r) = 238.
Proof.
  eexists. split; [vm_compute; reflexivity|].
  split.
  - eapply (Merge_preserves_cues string stuck_tool prefixed_config "episode.mkv"
              english_120 japanese_118);
      [vm_compute; reflexivity|vm_compute; reflexivity..].
  - vm_compute; reflexivity.
Defined.



End PipelineFacts.

(** ** Facts about the job store and the orchestrator *)

Module JobsFacts.
Import Jobs.

Lemma StronglySorted_snoc {A : Type} (R : A -> A -> Prop) (l : list A) (y : A) :
  StronglySorted R l -> Forall (fun x => R x y) l -> StronglySorted R (l ++ [y]).
Proof.
  induction 1 as [|x l Hs IH Hx]; intros Hy; simpl.
  - repeat constructor.
  - apply Forall_cons in Hy as [Hxy Hy].
    constructor; [auto|].
    apply Forall_app. split; [done|]. by constructor.
Qed.

(** *** What the store's operations do to the job they address *)

Section Operations.
Variables (id : string) (store : gmap string Job) (j : Job).
Hypothesis Hj : store !! id = Some j.

Lemma UpdateProgress_running (p : JobProgress) :
  status j = running ->
  UpdateProgress id p store !! id
  = Some (mkJob (kind j) running p (result j) (job_error j)
                (cancel_requested j) (updates j ++ [p])).
Proof.
  intros Hr. unfold UpdateProgress. rewrite lookup_alter_eq, Hj. simpl.
  rewrite decide_True by done. by rewrite Hr.
Qed.

Lemma Complete_running (r : JobResult) :
  status j = running ->
  Complete id r store !! id
  = Some (mkJob (kind j) completed (progress j) (Some r) (job_error j)
                (cancel_requested j) (updates j)).
Proof.
  intros Hr. unfold Complete. rewrite lookup_alter_eq, Hj. simpl.
  by rewrite decide_True.
Qed.

Lemma Fail_running (e : string) :
  status j = running ->
  Fail id e store !! id
  = Some (mkJob (kind j) failed (progress j) (result j) (Some e)
                (cancel_requested j) (updates j)).
Proof.
  intros Hr. unfold Fail. rewrite lookup_alter_eq, Hj. simpl.
  by rewrite decide_True.
Qed.

Lemma ObserveCancel_running (r : JobResult) :
  status j = running ->
  ObserveCancel id r store !! id
  = Some (mkJob (kind j) cancelled (progress j) (Some r) (job_error j)
                (cancel_requested j) (updates j)).
Proof.
  intros Hr. unfold ObserveCancel. rewrite lookup_alter_eq, Hj. simpl.
  by rewrite decide_True.
Qed.

Lemma Cancel_running :
  status j = running ->
  snd (Cancel id store) !! id
  = Some (mkJob (kind j) running (progress j) (result j) (job_error j)
                true (updates j)).
Proof.
  intros Hr. unfold Cancel. rewrite Hj, Hr. simpl.
  by rewrite lookup_insert_eq.
Qed.
End Operations.

(** *** The invariant of the bulk loop *)

Lemma counted_snoc (all i : nat) (item : string) (l : list JobProgress) :
  counted all i l -> counted all (S i) (l ++ [progress_after item (S i) all]).
Proof.
  intros [Hs Hb]. split.
  - apply StronglySorted_snoc; [done|].
    eapply Forall_impl; [exact Hb|]. simpl. intros p [Hp _]. lia.
  - apply Forall_app. split.
    + eapply Forall_impl; [exact Hb|]. simpl. intros p [Hp Ht]. split; [lia|done].
    + repeat constructor.
Qed.

Lemma counted_monotone (all i : nat) (l : list JobProgress) :
  i <= all -> counted all i l ->
  monotone_progress l /\ Forall (fun p => total p = all) l.
Proof.
  intros Hi [Hs Hb]. repeat split; [done| |].
  - eapply Forall_impl; [exact Hb|]. simpl. intros p [Hp Ht]. lia.
  - eapply Forall_impl; [exact Hb|]. simpl. by intros p [_ Ht].
Qed.

Section Orchestrator.
Variable process : Episode -> Outcome.
Variable cancel_arrives : nat -> bool.

Lemma bulk_loop_counts (id : string) (all : nat) (worklist : list Episode) :
  forall i acc store j,
  store !! id = Some j -> status j = running ->
  i + length worklist = all -> counted all i (updates j) ->
  exists j', bulk_loop process cancel_arrives id all i worklist acc store !! id = Some j'
             /\ terminal (status j') = true
             /\ monotone_progress (updates j')
             /\ Forall (fun p => total p = all) (updates j').
Proof.
  induction worklist as [|ep rest IH]; intros i acc store j Hj Hr Hlen Hc;
    cbn [bulk_loop].
  - eexists. split; [by apply Complete_running|]. split; [done|].
    cbn [updates]. apply (counted_monotone all i); [simpl in Hlen; lia|done].
  - simpl in Hlen.
    assert (Hstore : exists j0,
              (if cancel_arrives i then snd (Cancel id store) else store) !! id = Some j0
              /\ status j0 = running /\ updates j0 = updates j).
    { destruct (cancel_arrives i).
      - eexists. split; [by apply Cancel_running|]. done.
      - by exists j. }
    destruct Hstore as (j0 & Hj0 & Hr0 & Hu0).
    destruct (cancellation_pending id _).
    + eexists. split; [by apply ObserveCancel_running|]. split; [done|].
      cbn [updates]. rewrite Hu0.
      apply (counted_monotone all i); [lia|done].
    + eapply IH.
      * by apply UpdateProgress_running.
      * done.
      * lia.
      * cbn [updates]. rewrite Hu0. by apply counted_snoc.
Qed.

Lemma started_job (id : string) (k : JobKind) (store : gmap string Job) :
  Start id (Create id k store) !! id
  = Some (mkJob k running no_progress None None false []).
Proof.
  unfold Start, Create. rewrite lookup_alter_eq, lookup_insert_eq. done.
Qed.

Lemma run_bulk_progress (id : string) (worklist : list Episode) (store : gmap string Job) :
  exists j, run_bulk process cancel_arrives id worklist store !! id = Some j
            /\ terminal (status j) = true
            /\ monotone_progress (updates j)
            /\ Forall (fun p => total p = length worklist) (updates j).
Proof.
  unfold run_bulk.
  eapply bulk_loop_counts.
  - apply UpdateProgress_running; [apply started_job|done].
  - done.
  - done.
  - cbn [updates app]. split; repeat constructor.
Qed.

Lemma run_single_progress (id : string) (ep : Episode) (store : gmap string Job) :
  exists j, run_single process id ep store !! id = Some j
            /\ terminal (status j) = true
            /\ monotone_progress (updates j).
Proof.
  unfold run_single.
  pose proof (UpdateProgress_running id _ _ (started_job id SingleDualCreate store)
                (progress_after (ep_title ep) 0 1) eq_refl) as H0.
  assert (Hmono0 : monotone_progress [progress_after (ep_title ep) 0 1]).
  { split; repeat constructor. }
  assert (Hmono1 : monotone_progress
            [progress_after (ep_title ep) 0 1; progress_after (ep_title ep) 1 1]).
  { split; repeat constructor. }
  cbn in H0.
  destruct (process ep).
  - eexists. split.
    + eapply Complete_running;
        [by apply (UpdateProgress_running id _ _ H0)|done].
    + split; [done|]. cbn. exact Hmono1.
  - eexists. split.
    + by apply (Fail_running id _ _ H0).
    + split; [done|]. cbn. exact Hmono0.
  - eexists. split.
    + eapply Complete_running;
        [by apply (UpdateProgress_running id _ _ H0)|done].
    + split; [done|]. cbn. exact Hmono1.
Qed.

(** A single job whose one item does not fail ends completed. *)
Lemma run_single_completes (id : string) (ep : Episode) (store : gmap string Job) :
  (forall err, process ep <> FailedWith err) ->
  status <$> run_single process id ep store !! id = Some completed.
Proof.
  intros Hok. unfold run_single.
  pose proof (UpdateProgress_running id _ _ (started_job id SingleDualCreate store)
                (progress_after (ep_title ep) 0 1) eq_refl) as H0.
  destruct (process ep) as [path|err|why]; [|by destruct (Hok err)|].
  - erewrite Complete_running;
      [done|by apply (UpdateProgress_running id _ _ H0)|done].
  - erewrite Complete_running;
      [done|by apply (UpdateProgress_running id _ _ H0)|done].
Qed.

(** Without a cancellation request a bulk job ends completed, whatever the
    outcomes of its episodes. *)
Lemma bulk_loop_completes (id : string) (all : nat) (worklist : list Episode) :
  (forall i, cancel_arrives i = false) ->
  forall i acc store j,
  store !! id = Some j -> status j = running -> cancel_requested j = false ->
  status <$> bulk_loop process cancel_arrives id all i worklist acc store !! id
  = Some completed.
Proof.
  intros Hno. induction worklist as [|ep rest IH]; intros i acc store j Hj Hr Hc;
    cbn [bulk_loop].
  - by erewrite Complete_running.
  - rewrite Hno. unfold cancellation_pending. rewrite Hj, Hc.
    eapply IH; [by apply UpdateProgress_running|done..].
Qed.

Lemma run_bulk_completes (id : string) (worklist : list Episode)
    (store : gmap string Job) :
  (forall i, cancel_arrives i = false) ->
  status <$> run_bulk process cancel_arrives id worklist store !! id = Some completed.
Proof.
  intros Hno. unfold run_bulk.
  eapply bulk_loop_completes;
    [done|apply UpdateProgress_running; [apply started_job|done]|done..].
Qed.

(** C9: over the lifetime of a job -- a bulk run over any worklist, with
    any episode outcomes and cancellation requests arriving at any
    checkpoint, or a single creation -- the job reaches a terminal state
    and the processed counts of its committed progress updates, in the
    order they were committed, never decrease and never exceed the
    total. *)
Theorem progress_is_monotone (id : string) (worklist : list Episode)
    (ep : Episode) (store : gmap string Job) :
  (exists j, run_bulk process cancel_arrives id worklist store !! id = Some j
             /\ terminal (status j) = true
             /\ StronglySorted (fun p q => processed p <= processed q) (updates j)
             /\ Forall (fun p => processed p <= total p) (updates j)
             /\ Forall (fun p => total p = length worklist) (updates j))
  /\ (exists j, run_single process id ep store !! id = Some j
                /\ terminal (status j) = true
                /\ StronglySorted (fun p q => processed p <= processed q) (updates j)
                /\ Forall (fun p => processed p <= total p) (updates j)).
Proof.
  split.
  - destruct (run_bulk_progress id worklist store) as (j & Hj & Ht & [Hs Hb] & Hall).
    by exists j.
  - destruct (run_single_progress id ep store) as (j & Hj & Ht & [Hs Hb]).
    by exists j.
Qed.
End Orchestrator.

(** Three episodes, the second fails, a cancellation arrives before the
    third: the committed updates count 0, 1 and 2 of 3 and the job ends
    cancelled with the first two episodes in its result. *)
Example cancelled_run :
  let store := run_bulk sample_process cancel_before_third "job-1" three_episodes ∅ in
  (status <$> store !! "job-1") = Some cancelled
  /\ (map processed <$> (updates <$> store !! "job-1")) = Some [0; 1; 2]
  /\ (map total <$> (updates <$> store !! "job-1")) = Some [3; 3; 3].
Proof. vm_compute. done. Qed.

End JobsFacts.

(** ** A failing synchronization inside a job *)

Module OrchestrationFacts.
Import Pipeline PipelineFacts.

Section Degradation.
Variable Media : Type.
Variable tool : Track -> Reference Media -> ToolOutcome.

Lemma failed_sync_merges_originals (cfg : DualSubtitleConfig) (media : Media)
    (A B : Track) :
  valid_request cfg A B -> enable_sync cfg = true ->
  tool_failed (tool A (RefMedia media)) ->
  tool_failed (tool B (RefTrack A)) ->
  exists r, create_dual_subtitle Media tool cfg media A B = inr r
            /\ output r = Merge A B cfg
            /\ sync_warnings (details r) <> [].
Proof.
  intros Hvalid Hsync HfA HfB.
  destruct (create_valid Media tool cfg media A B Hvalid) as [r Hr].
  exists r. split; [done|].
  destruct (create_synced Media tool cfg media A B r Hsync Hr) as (Ho & _ & Hw).
  destruct (Synchronize_fallback Media tool A (RefMedia media) HfA) as [HA HwA].
  rewrite HA in Ho, Hw.
  destruct (Synchronize_fallback Media tool B (RefTrack A) HfB) as [HB HwB].
  rewrite HB in Ho. split; [exact Ho|].
  rewrite Hw. intros [Hnil _]%app_eq_nil. done.
Qed.

Lemma creation_never_fails_the_job (cfg : DualSubtitleConfig) (media : Media)
    (A B : Track) (id path : string) (ep : Jobs.Episode)
    (store : gmap string Jobs.Job) :
  valid_request cfg A B ->
  Jobs.status <$>
    Jobs.run_single
      (fun _ => Jobs.outcome_of_creation path
                  (create_dual_subtitle Media tool cfg media A B))
      id ep store !! id
  = Some Jobs.completed.
Proof.
  intros Hvalid. apply JobsFacts.run_single_completes.
  intros err. destruct (create_valid Media tool cfg media A B Hvalid) as [r ->].
  done.
Qed.

(** C5: when the external tool times out, is missing or exits with an
    error, the adapter returns the track it was given together with a
    warning, not an error; an accepted request is answered with a result
    whatever the tool does, and the single job that runs it ends completed;
    and when the tool fails on both tracks the output is the merge of the
    two tracks as they were given, with the warnings in the result's
    details. *)
Theorem sync_failure_keeps_original_timing (cfg : DualSubtitleConfig)
    (media : Media) (A B target : Track) (ref : Reference Media)
    (id path : string) (ep : Jobs.Episode) (store : gmap string Jobs.Job) :
  tool_failed (tool target ref) ->
  valid_request cfg A B ->
  (fst (Synchronize Media tool target ref) = target
   /\ trace_warnings (snd (Synchronize Media tool target ref)) <> [])
  /\ (exists r, create_dual_subtitle Media tool cfg media A B = inr r)
  /\ Jobs.status <$>
       Jobs.run_single
         (fun _ => Jobs.outcome_of_creation path
                     (create_dual_subtitle Media tool cfg media A B))
         id ep store !! id
     = Some Jobs.completed
  /\ (enable_sync cfg = true ->
      tool_failed (tool A (RefMedia media)) ->
      tool_failed (tool B (RefTrack A)) ->
      exists r, create_dual_subtitle Media tool cfg media A B = inr r
                /\ output r = Merge A B cfg
                /\ sync_warnings (details r) <> []).
Proof.
  intros Hfail Hvalid.
  split; [by apply Synchronize_fallback|].
  split; [by apply create_valid|].
  split; [by apply creation_never_fails_the_job|].
  intros Hsync HfA HfB. by apply failed_sync_merges_originals.
Qed.

End Degradation.

(** The tool times out on every call: the adapter hands the English track
    back, the creation succeeds on the original timing and the job ends
    completed. *)
Lemma sync_failure_keeps_original_timing_witness :
  fst (Synchronize string stuck_tool english_120 (RefMedia "episode.mkv")) = english_120
  /\ exists r,
       create_dual_subtitle string stuck_tool synced_config "episode.mkv"
                            english_120 japanese_118 = inr r.
Proof.
  pose proof (sync_failure_keeps_original_timing string stuck_tool synced_config
                "episode.mkv" english_120 japanese_118 english_120
                (RefMedia "episode.mkv") "job-1" "episode.dual.en-ja.srt"
                (Jobs.mkEpisode "e01" "Pilot") ∅) as H.
  destruct H as [[Hfst _] [Hr _]].
  - exact I.
  - repeat split; discriminate.
  - split; [exact Hfst|exact Hr].
Defined.

(** The bulk scenario: the tool is stuck on every episode, no cancellation
    arrives; the three episodes are processed and the job ends completed. *)
Example stuck_tool_bulk_run :
  let process := fun _ : Jobs.Episode =>
    Jobs.outcome_of_creation "episode.dual.en-ja.srt"
      (create_dual_subtitle string stuck_tool synced_config "episode.mkv"
                            english_120 japanese_118) in
  let store := Jobs.run_bulk process (fun _ => false) "job-1" Jobs.three_episodes ∅ in
  (Jobs.status <$> store !! "job-1") = Some Jobs.completed
  /\ (map Jobs.processed <$> (Jobs.updates <$> store !! "job-1")) = Some [0; 1; 2; 3]
  /\ (length <$> (Jobs.successful <$> (store !! "job-1" ≫= Jobs.result))) = Some 3.
Proof. vm_compute. done. Qed.

End OrchestrationFacts.

(** ** Facts about the table lookups *)

Module LangLookupFacts.
Import Regex RegexFacts Lang LangFacts LangLookup.

(** *** White space and letter case *)

Lemma lower_char_white (c : ascii) : is_white (lower_char c) = is_white c.
Proof. destruct c as [[] [] [] [] [] [] [] []]; reflexivity. Qed.

Lemma toLowerCase_app (a b : string) :
  toLowerCase (a +:+ b) = toLowerCase a +:+ toLowerCase b.
Proof. induction a as [|c a IH]; simpl; [done|]. by rewrite IH. Qed.

Lemma all_white_lower (s : string) : all_white s -> all_white (toLowerCase s).
Proof.
  unfold all_white. induction s as [|c s IH]; simpl; [done|].
  rewrite lower_char_white. intros [-> H]%andb_true_iff. by apply IH.
Qed.

Lemma trimStart_white (w s : string) : all_white w -> trimStart (w +:+ s) = trimStart s.
Proof.
  unfold all_white. induction w as [|c w IH]; simpl; [done|].
  intros [-> H]%andb_true_iff. by apply IH.
Qed.

Lemma trimEnd_white (w : string) : all_white w -> trimEnd w = "".
Proof.
  unfold all_white. induction w as [|c w IH]; simpl; [done|].
  intros [-> H]%andb_true_iff. by rewrite IH.
Qed.

Lemma trimEnd_app_white (s w : string) : all_white w -> trimEnd (s +:+ w) = trimEnd s.
Proof.
  intros Hw. induction s as [|c s IH]; simpl; [by apply trimEnd_white|].
  by rewrite IH.
Qed.

Lemma trimStart_app (s w : string) :
  trimStart (s +:+ w) = trimStart s +:+ w \/ (all_white s /\ trimStart s = "").
Proof.
  unfold all_white. induction s as [|c s IH]; simpl; [by right|].
  destruct (is_white c); [|by left]. destruct IH as [IH|IH]; [by left|by right].
Qed.

Lemma trim_white (pre s post : string) :
  all_white pre -> all_white post -> trim (pre +:+ s +:+ post) = trim s.
Proof.
  intros Hpre Hpost. unfold trim. rewrite trimStart_white by done.
  destruct (trimStart_app s post) as [->|[Hs Hs']].
  - by apply trimEnd_app_white.
  - rewrite trimStart_white by done. rewrite Hs'. simpl.
    apply trimEnd_white. clear -Hpost. unfold all_white in *.
    induction post as [|c p IH]; simpl in *; [done|].
    apply andb_true_iff in Hpost as [Hc Hp]. rewrite Hc. by apply IH.
Qed.

(** *** Exact lookup *)

Lemma getLanguageByCode_table (lang : LanguageInfo) :
  In lang COMPREHENSIVE_LANGUAGES -> getLanguageByCode (code lang) = Some lang.
Proof.
  intros Hin. unfold getLanguageByCode.
  destruct (List.find _ _) as [y|] eqn:Hf.
  - apply find_some in Hf as [Hy Hc%String.eqb_eq].
    f_equal. by apply table_code_inj.
  - pose proof (find_none _ _ Hf lang Hin) as Hn. simpl in Hn.
    by rewrite String.eqb_refl in Hn.
Qed.

(** X1: the exact lookup finds an entry of the table by its code, and
    nothing else. *)
Theorem getLanguageByCode_spec (c : string) (lang : LanguageInfo) :
  getLanguageByCode c = Some lang <-> In lang COMPREHENSIVE_LANGUAGES /\ code lang = c.
Proof.
  split.
  - intros [Hin Hc%String.eqb_eq]%find_some. done.
  - intros [Hin <-]. by apply getLanguageByCode_table.
Qed.

Lemma table_keys_trimmed : keys_trimmed.
Proof. apply (bool_decide_unpack _). vm_compute. reflexivity. Qed.

Lemma key_identifies (lang : LanguageInfo) (key c : string) :
  In lang COMPREHENSIVE_LANGUAGES -> In key (keys lang) ->
  toLowerCase c = toLowerCase key -> getLanguageByCommonCode c = Some lang.
Proof.
  intros Hin Hkey Hc. apply get_spec. split; [done|].
  exists key. split; [done|]. rewrite Hc.
  pose proof table_keys_trimmed as Ht. unfold keys_trimmed in Ht.
  rewrite Forall_forall in Ht. specialize (Ht lang (proj2 (list_elem_of_In _ _) Hin)).
  rewrite Forall_forall in Ht. symmetry. by apply Ht, list_elem_of_In.
Qed.

(** X2: the lookup by common code ignores letter case and the white space
    around the code. *)
Theorem getLanguageByCommonCode_normalises (pre post a b : string) :
  all_white pre -> all_white post -> toLowerCase a = toLowerCase b ->
  getLanguageByCommonCode (pre +:+ a +:+ post) = getLanguageByCommonCode b.
Proof.
  intros Hpre Hpost Hab. unfold getLanguageByCommonCode.
  rewrite !toLowerCase_app, Hab.
  by rewrite trim_white by (by apply all_white_lower).
Qed.

Lemma getLanguageByCommonCode_normalises_witness :
  getLanguageByCommonCode "  ENG " = getLanguageByCommonCode "eng".
Proof.
  apply (getLanguageByCommonCode_normalises "  " " " "ENG" "eng"); reflexivity.
Defined.

(** X3: the lookup by common code extends the exact lookup, and what it
    finds can be found again by its code. *)
Theorem getLanguageByCommonCode_extends (c : string) (lang : LanguageInfo) :
  (getLanguageByCode c = Some lang -> getLanguageByCommonCode c = Some lang)
  /\ (getLanguageByCommonCode c = Some lang -> getLanguageByCode (code lang) = Some lang).
Proof.
  split.
  - intros [Hin Hc%String.eqb_eq]%find_some. subst c.
    apply (key_identifies lang (code lang)); [done|by left|done].
  - intros Hin%get_in_table. by apply getLanguageByCode_table.
Qed.

Lemma getLanguageByCommonCode_extends_witness :
  exists lang, getLanguageByCode "zh-TW" = Some lang
               /\ getLanguageByCommonCode "zh-TW" = Some lang.
Proof.
  eexists. split; [reflexivity|].
  apply (getLanguageByCommonCode_extends "zh-TW"). reflexivity.
Defined.

(** *** The file-name test *)

Lemma common_includes_key (c : string) (lang : LanguageInfo) :
  common_includes c lang = true -> In c (keys lang).
Proof.
  unfold common_includes, keys. destruct (commonCodes lang) as [codes|]; [|done].
  intros (x & Hx & ->%String.eqb_eq)%existsb_exists. by right.
Qed.

(** X4: when the test succeeds, every requested code resolves, by the
    common-code lookup, to a language that a segment of the file name
    resolves to as well. *)
Theorem filenameContainsLanguages_sound (filename : string) (languageCodes : list string) :
  filenameContainsLanguages filename languageCodes = true ->
  forall c, In c languageCodes ->
    exists lang seg,
      getLanguageByCommonCode c = Some lang
      /\ In seg (split_dot filename)
      /\ is_skipped (toLowerCase seg) = false
      /\ getLanguageByCommonCode seg = Some lang.
Proof.
  unfold filenameContainsLanguages. intros H c Hc.
  rewrite forallb_forall in H. specialize (H c Hc).
  assert (exists lang, In lang (extractLanguageFromFilename filename)
                       /\ getLanguageByCommonCode c = Some lang) as (lang & Hl & Hget).
  { apply orb_true_iff in H as [H|H].
    - apply existsb_exists in H as (x & Hx & ->%String.eqb_eq).
      apply in_map_iff in Hx as (lang & <- & Hl). exists lang. split; [done|].
      apply extract_spec in Hl as [Hin _].
      apply (key_identifies lang (code lang)); [done|by left|done].
    - apply existsb_exists in H as (lang & Hl & Hk%common_includes_key).
      exists lang. split; [done|].
      pose proof Hl as [Hin _]%extract_spec.
      apply (key_identifies lang (toLowerCase c)); [done|done|].
      by rewrite toLowerCase_idem. }
  apply extract_spec in Hl as (Hin & seg & Hseg & Hskip & Hid).
  exists lang, seg. repeat split; try done. apply get_spec. done.
Qed.

Lemma filenameContainsLanguages_sound_witness :
  exists lang seg,
    getLanguageByCommonCode "JP" = Some lang
    /\ In seg (split_dot "Show.S01E02.jpn.en.srt")
    /\ is_skipped (toLowerCase seg) = false
    /\ getLanguageByCommonCode seg = Some lang.
Proof.
  apply (filenameContainsLanguages_sound "Show.S01E02.jpn.en.srt" ["JP"; "en"]).
  - vm_compute. reflexivity.
  - simpl. by left.
Defined.

(** *** Detection is complete *)

Lemma table_keys_kept : keys_kept.
Proof. apply (bool_decide_unpack _). vm_compute. reflexivity. Qed.

(** X5: every code and every common code of the table is detected: a file
    name with a segment that equals one of them, letter case aside, yields
    the language of that code. *)
Theorem listed_code_is_detected (filename seg key : string) (lang : LanguageInfo) :
  In lang COMPREHENSIVE_LANGUAGES -> In key (keys lang) ->
  In seg (split_dot filename) -> toLowerCase seg = toLowerCase key ->
  In lang (extractLanguageFromFilename filename).
Proof.
  intros Hlang Hkey Hseg Hlow. apply extract_spec. split; [done|].
  exists seg. split; [done|].
  pose proof table_keys_kept as Hk. unfold keys_kept in Hk.
  rewrite Forall_forall in Hk. specialize (Hk lang (proj2 (list_elem_of_In _ _) Hlang)).
  rewrite Forall_forall in Hk. specialize (Hk key (proj2 (list_elem_of_In _ _) Hkey)).
  split; [by rewrite Hlow|].
  apply get_spec. by apply (key_identifies lang key).
Qed.

Lemma listed_code_is_detected_witness :
  exists lang, In lang (extractLanguageFromFilename "Drama.S02E05.ZH-Hant.ass")
               /\ code lang = "zh-TW".
Proof.
  eexists. split.
  - eapply (listed_code_is_detected _ "ZH-Hant" "zh-hant").
    + do 2 right. left. reflexivity.
    + simpl. do 3 right. left. reflexivity.
    + vm_compute. do 2 right. left. reflexivity.
    + reflexivity.
  - reflexivity.
Defined.

(** *** File names in two parts *)

Lemma split_dot_nonempty (s : string) : split_dot s <> [].
Proof.
  destruct s as [|c s]; simpl; [done|].
  destruct (is_dot c); [done|]. by destruct (split_dot s).
Qed.

Lemma split_dot_app (a b : string) :
  split_dot (a +:+ "." +:+ b) = split_dot a ++ split_dot b.
Proof.
  induction a as [|c a IH]; [done|].
  change (String c a +:+ "." +:+ b) with (String c (a +:+ "." +:+ b)).
  cbn [split_dot]. rewrite IH.
  destruct (is_dot c); [done|].
  pose proof (split_dot_nonempty a) as Hne.
  by destruct (split_dot a).
Qed.

Lemma fold_visit_found (parts : string) (found : list LanguageInfo) :
  fold_left visit_part (split_dot (toLowerCase parts)) found
  = found ++ unseen found (extractLanguageFromFilename parts).
Proof.
  rewrite extract_first_occurrences. unfold identified, candidate_segments.
  by rewrite split_dot_lower, fold_visit.
Qed.

(** X22: the languages of a file name in two parts, [first.second], are
    those of the first part followed by those of the second part that the
    first part does not have; so a subtitle extension at the end changes
    nothing. *)
Theorem extract_of_two_parts (first second : string) :
  extractLanguageFromFilename (first +:+ "." +:+ second)
  = extractLanguageFromFilename first
    ++ unseen (extractLanguageFromFilename first) (extractLanguageFromFilename second)
  /\ (In second skip_words ->
      extractLanguageFromFilename (first +:+ "." +:+ second)
      = extractLanguageFromFilename first).
Proof.
  assert (Htwo : extractLanguageFromFilename (first +:+ "." +:+ second)
                 = extractLanguageFromFilename first
                   ++ unseen (extractLanguageFromFilename first)
                        (extractLanguageFromFilename second)).
  { unfold extractLanguageFromFilename at 1.
    rewrite !toLowerCase_app. change (toLowerCase ".") with ".".
    rewrite split_dot_app, fold_left_app, fold_visit_found. done. }
  split; [exact Htwo|].
  intros Hskip. rewrite Htwo.
  assert (extractLanguageFromFilename second = []) as ->.
  { simpl in Hskip.
    destruct Hskip as [<-|[<-|[<-|[<-|[<-|[<-|[<-|[]]]]]]]]; reflexivity. }
  unfold unseen. simpl. by rewrite app_nil_r.
Qed.

Lemma extract_of_two_parts_witness :
  extractLanguageFromFilename ("Show.S01E02.en.ja" +:+ "." +:+ "ass")
  = extractLanguageFromFilename "Show.S01E02.en.ja".
Proof. apply (extract_of_two_parts "Show.S01E02.en.ja" "ass"). simpl. tauto. Defined.

(** The test is stricter than the lookup on letter case: a language
    without common codes is only found under its exact code. *)
Lemma filenameContainsLanguages_case :
  filenameContainsLanguages "Movie.sv.srt" ["sv"] = true
  /\ filenameContainsLanguages "Movie.sv.srt" ["SV"] = false
  /\ filenameContainsLanguages "Movie.en.srt" ["EN"] = true.
Proof. repeat split; vm_compute; reflexivity. Qed.

End LangLookupFacts.

(** ** More facts about the statistics of the episode-configuration step *)

Module StatsFacts.
Import Bulk BulkFacts.
Local Open Scope Z_scope.

Lemma both_le_primary (pa sa : LanguageAvailability) :
  (length (episodesWithBoth pa sa) <= length (episode_details pa))%nat.
Proof. apply filter_length_le. Qed.

(** X6: the four figures of the episode-configuration step split the
    episodes of the show: when the primary language's count is the length
    of its list and neither language counts more episodes than the show
    has, none of READY, EXISTS, NEEDS ATTENTION and SKIP is negative and
    together they are the total number of episodes. *)
Theorem stats_split_total (a : SubtitleAnalysis) (p s : string) :
  counts_agree a p ->
  available_or_zero (language_availability a !! p) <= total_episodes a ->
  available_or_zero (language_availability a !! s) <= total_episodes a ->
  0 <= ready (stats a p s) /\ 0 <= alreadyExists (stats a p s)
  /\ 0 <= needsAttention (stats a p s) /\ 0 <= willSkip (stats a p s)
  /\ ready (stats a p s) + alreadyExists (stats a p s)
     + needsAttention (stats a p s) + willSkip (stats a p s) = total_episodes a.
Proof.
  unfold counts_agree, stats. intros Hc Hp Hs.
  destruct (language_availability a !! p) as [pa|] eqn:Hpa;
    destruct (language_availability a !! s) as [sa|] eqn:Hsa; simpl in *; try lia.
  specialize (Hc pa eq_refl).
  pose proof (existing_le_both p s pa sa).
  pose proof (both_le_primary pa sa).
  lia.
Qed.

Lemma stats_split_total_witness :
  0 <= ready (stats scenario12 "en" "ja") /\ 0 <= alreadyExists (stats scenario12 "en" "ja")
  /\ 0 <= needsAttention (stats scenario12 "en" "ja") /\ 0 <= willSkip (stats scenario12 "en" "ja")
  /\ ready (stats scenario12 "en" "ja") + alreadyExists (stats scenario12 "en" "ja")
     + needsAttention (stats scenario12 "en" "ja") + willSkip (stats scenario12 "en" "ja") = 12.
Proof.
  apply (stats_split_total scenario12 "en" "ja").
  - intros avail Hav. vm_compute in Hav. injection Hav as <-. reflexivity.
  - vm_compute. discriminate.
  - vm_compute. discriminate.
Defined.

Lemma stats_both_sets (a : SubtitleAnalysis) (p s : string) pa sa :
  language_availability a !! p = Some pa -> language_availability a !! s = Some sa ->
  distinct_episodes a p ->
  Z.of_nat (length (episodesWithBoth pa sa)) = Z.of_nat (size (both_languages a p s)).
Proof.
  unfold distinct_episodes, both_languages, episodes_of, language_details.
  intros -> -> Hnd. by rewrite length_both.
Qed.

(** X7: the figures do not depend on which language is primary: for an
    analysis that lists each episode once per language and whose two lists
    describe an episode alike, swapping the two languages leaves READY,
    EXISTS, NEEDS ATTENTION and SKIP unchanged. *)
Theorem stats_swap (a : SubtitleAnalysis) (p s : string) :
  distinct_episodes a p -> distinct_episodes a s -> records_agree a p s ->
  stats a p s = stats a s p.
Proof.
  intros Hdp Hds Hagree.
  pose proof (stats_existing_sets a p s Hdp) as He1.
  pose proof (stats_existing_sets a s p Hds) as He2.
  rewrite <- (already_dual_swap a p s Hagree) in He2.
  unfold stats in *.
  destruct (language_availability a !! p) as [pa|] eqn:Hpa;
    destruct (language_availability a !! s) as [sa|] eqn:Hsa; simpl in *; try done.
  pose proof (stats_both_sets a p s pa sa Hpa Hsa Hdp) as Hb1.
  pose proof (stats_both_sets a s p sa pa Hsa Hpa Hds) as Hb2.
  unfold both_languages in Hb2. rewrite (comm_L (∩)) in Hb2. fold (both_languages a p s) in Hb2.
  rewrite He1, He2, Hb1, Hb2, (Z.max_comm (episodes_available pa)). done.
Qed.

Lemma stats_swap_witness : stats scenario12 "en" "ja" = stats scenario12 "ja" "en".
Proof.
  apply (stats_swap scenario12 "en" "ja").
  - unfold distinct_episodes. apply (bool_decide_unpack _). vm_compute. reflexivity.
  - unfold distinct_episodes. apply (bool_decide_unpack _). vm_compute. reflexivity.
  - apply (bool_decide_unpack _). vm_compute. reflexivity.
Defined.

End StatsFacts.

(** ** Facts about the language-discovery step *)

Module DiscoveryFacts.
Import Bulk BulkFacts Discovery.
Local Open Scope Z_scope.

(** *** The sort *)

Lemma insert_entry_perm x l : insert_entry x l ≡ₚ x :: l.
Proof.
  induction l as [|y l IH]; simpl; [done|].
  destruct (by_availability y x <? 0); [|done].
  rewrite IH. apply Permutation_swap.
Qed.

Lemma sort_entries_perm l : sort_entries l ≡ₚ l.
Proof.
  induction l as [|x l IH]; simpl; [done|].
  by rewrite insert_entry_perm, IH.
Qed.

Lemma insert_entry_descending x l : descending l -> descending (insert_entry x l).
Proof.
  unfold descending. induction 1 as [|y l Hl IH Hy]; simpl.
  - repeat constructor.
  - unfold by_availability at 1.
    destruct (Z.ltb_spec (episodes_available (snd x) - episodes_available (snd y)) 0) as [Hlt|Hge].
    + constructor; [done|].
      rewrite Forall_forall. intros z Hz%list_elem_of_In.
      apply (Permutation_in _ (insert_entry_perm x l)) in Hz as [<-|Hz]; [lia|].
      rewrite Forall_forall in Hy. by apply Hy, list_elem_of_In.
    + constructor; [by constructor|].
      constructor; [lia|].
      rewrite Forall_forall in Hy |- *. intros z Hz. specialize (Hy z Hz). simpl in Hy. lia.
Qed.

Lemma sort_entries_descending l : descending (sort_entries l).
Proof.
  induction l as [|x l IH]; simpl; [constructor|].
  by apply insert_entry_descending.
Qed.

Lemma descending_app l1 l2 :
  descending (l1 ++ l2) ->
  descending l1
  /\ forall x y, In x l1 -> In y l2 ->
       episodes_available (snd y) <= episodes_available (snd x).
Proof.
  unfold descending. induction l1 as [|z l1 IH]; simpl.
  - intros _. split; [constructor|]. by intros x y [].
  - intros H. inversion H as [|? ? Hs Hz]; subst.
    destruct (IH Hs) as [IH1 IH2]. split.
    + constructor; [done|].
      rewrite Forall_forall in Hz |- *. intros w Hw. apply Hz.
      apply elem_of_app. by left.
    + intros x y [<-|Hx] Hy; [|by apply IH2].
      rewrite Forall_forall in Hz. apply Hz, elem_of_app. right. by apply list_elem_of_In.
Qed.

Section Entries.

Variable Object_entries :
  gmap string LanguageAvailability -> list (string * LanguageAvailability).
Hypothesis entries_enumerate : enumerates Object_entries.

Lemma sorted_entries_perm (m : gmap string LanguageAvailability) :
  sort_entries (Object_entries m) ≡ₚ map_to_list m.
Proof. by rewrite sort_entries_perm. Qed.

Lemma in_sorted_entries (m : gmap string LanguageAvailability) k v :
  In (k, v) (sort_entries (Object_entries m)) <-> m !! k = Some v.
Proof.
  rewrite <- elem_of_map_to_list, <- list_elem_of_In.
  by rewrite (sorted_entries_perm m).
Qed.

Lemma sorted_entries_nodup (m : gmap string LanguageAvailability) :
  NoDup (map fst (sort_entries (Object_entries m))).
Proof.
  change (NoDup (fst <$> sort_entries (Object_entries m))).
  rewrite (sorted_entries_perm m). apply NoDup_fst_map_to_list.
Qed.

Lemma in_take {A} (n : nat) (l : list A) (x : A) : In x (take n l) -> In x l.
Proof.
  intros H. rewrite <- (take_drop n l). apply in_or_app. by left.
Qed.

(** X8: the chips show at most six languages of the analysis, each once,
    the most available first, and no language left out is available in
    more episodes than one that is shown. *)
Theorem sortedLanguages_most_available (a : SubtitleAnalysis) :
  let shown := sortedLanguages Object_entries (Some a) in
  length shown = Nat.min 6 (size (language_availability a))
  /\ NoDup (map fst shown)
  /\ (forall k v, In (k, v) shown -> language_availability a !! k = Some v)
  /\ descending shown
  /\ (forall k v k' v',
        In (k, v) shown -> language_availability a !! k' = Some v' ->
        ~ In (k', v') shown ->
        episodes_available v' <= episodes_available v).
Proof.
  cbv zeta. unfold sortedLanguages. set (m := language_availability a).
  set (L := sort_entries (Object_entries m)).
  pose proof (sort_entries_descending (Object_entries m)) as Hd. fold L in Hd.
  rewrite <- (take_drop 6 L) in Hd. apply descending_app in Hd as [Hd1 Hd2].
  split; [|split; [|split; [|split]]].
  - rewrite length_take. unfold L.
    by rewrite (Permutation_length (sorted_entries_perm m)), length_map_to_list.
  - change (NoDup (fst <$> take 6 L)). rewrite fmap_take.
    apply (sublist_NoDup (take 6 (fst <$> L)) (fst <$> L)); [|apply sublist_take].
    apply sorted_entries_nodup.
  - intros k v Hin%in_take. by apply in_sorted_entries.
  - done.
  - intros k v k' v' Hin Hk' Hout.
    apply in_sorted_entries in Hk'. fold L in Hk'.
    rewrite <- (take_drop 6 L) in Hk'. apply in_app_or in Hk' as [Hk'|Hk']; [done|].
    apply (Hd2 (k, v) (k', v') Hin Hk').
Qed.

(** The two entries that the sort puts first. *)
Lemma sorted_first_two (m : gmap string LanguageAvailability) :
  (2 <= size m)%nat ->
  exists k1 v1 k2 v2 rest,
    sort_entries (Object_entries m) = (k1, v1) :: (k2, v2) :: rest
    /\ k1 <> k2 /\ m !! k1 = Some v1 /\ m !! k2 = Some v2
    /\ (forall k v, m !! k = Some v -> episodes_available v <= episodes_available v1)
    /\ (forall k v, m !! k = Some v -> k <> k1 ->
          episodes_available v <= episodes_available v2).
Proof.
  intros Hsize.
  pose proof (sorted_entries_nodup m) as Hnd.
  pose proof (sort_entries_descending (Object_entries m)) as Hd.
  pose proof (in_sorted_entries m) as Hin.
  pose proof (Permutation_length (sorted_entries_perm m)) as Hlen.
  rewrite length_map_to_list in Hlen.
  destruct (sort_entries (Object_entries m)) as [|[k1 v1] [|[k2 v2] rest]];
    simpl in Hlen; [lia..|].
  exists k1, v1, k2, v2, rest. split; [done|].
  simpl in Hnd. inversion Hnd as [|? ? Hk1 Hnd']; subst.
  inversion Hd as [|? ? Hd' H1]; subst. inversion Hd' as [|? ? _ H2]; subst.
  rewrite Forall_forall in H1, H2.
  split; [intros ->; apply Hk1; by left|].
  split; [apply Hin; by left|]. split; [apply Hin; right; by left|]. split.
  - intros k v [Heq|Hkv]%Hin.
    + injection Heq as <- <-. lia.
    + apply (H1 (k, v)). by apply list_elem_of_In.
  - intros k v [Heq|[Heq|Hkv]]%Hin Hne.
    + injection Heq as <- <-. done.
    + injection Heq as <- <-. lia.
    + apply (H2 (k, v)). by apply list_elem_of_In.
Qed.

Lemma autoSelect_first_two (a : SubtitleAnalysis) (st : Selection) k1 v1 k2 v2 rest :
  sort_entries (Object_entries (language_availability a)) = (k1, v1) :: (k2, v2) :: rest ->
  primaryLanguage st = "" -> secondaryLanguage st = "" ->
  autoSelect Object_entries (Some a) st = mkSelection k1 k2.
Proof.
  intros Hsort Hp Hs. unfold autoSelect, sortedLanguages. by rewrite Hsort, Hp, Hs.
Qed.

(** X9: with nothing selected and at least two languages in the analysis,
    the effect selects two different languages of the analysis: as primary
    one that no language exceeds in availability, as secondary one that no
    other language exceeds. *)
Theorem autoSelect_most_available (a : SubtitleAnalysis) (st : Selection) :
  (2 <= size (language_availability a))%nat ->
  primaryLanguage st = "" -> secondaryLanguage st = "" ->
  let st' := autoSelect Object_entries (Some a) st in
  primaryLanguage st' <> secondaryLanguage st'
  /\ exists pa sa,
       language_availability a !! primaryLanguage st' = Some pa
       /\ language_availability a !! secondaryLanguage st' = Some sa
       /\ (forall k v, language_availability a !! k = Some v ->
             episodes_available v <= episodes_available pa)
       /\ (forall k v, language_availability a !! k = Some v ->
             k <> primaryLanguage st' ->
             episodes_available v <= episodes_available sa).
Proof.
  intros Hsize Hp Hs. cbv zeta.
  destruct (sorted_first_two (language_availability a) Hsize)
    as (k1 & v1 & k2 & v2 & rest & Hsort & Hne & H1 & H2 & Hmax1 & Hmax2).
  rewrite (autoSelect_first_two a st k1 v1 k2 v2 rest Hsort Hp Hs). simpl.
  split; [done|]. by exists v1, v2.
Qed.

End Entries.

Lemma map_to_list_enumerates : enumerates map_to_list.
Proof. by intros m. Qed.

Lemma sortedLanguages_most_available_witness :
  length (sortedLanguages map_to_list (Some scenario12)) = 2%nat
  /\ descending (sortedLanguages map_to_list (Some scenario12)).
Proof.
  pose proof (sortedLanguages_most_available map_to_list map_to_list_enumerates scenario12)
    as (Hlen & _ & _ & Hd & _).
  split; [exact Hlen|exact Hd].
Defined.

Lemma autoSelect_most_available_witness :
  primaryLanguage (autoSelect map_to_list (Some scenario12) (mkSelection "" ""))
  <> secondaryLanguage (autoSelect map_to_list (Some scenario12) (mkSelection "" "")).
Proof.
  apply (autoSelect_most_available map_to_list map_to_list_enumerates scenario12
           (mkSelection "" "")).
  - vm_compute. lia.
  - reflexivity.
  - reflexivity.
Defined.

(** *** The preview of the discovery step against the configuration step *)

Lemma both_at_most_compatible (a : SubtitleAnalysis) (p s : string) pa sa :
  language_availability a !! p = Some pa -> language_availability a !! s = Some sa ->
  distinct_episodes a p -> distinct_episodes a s ->
  counts_agree a p -> counts_agree a s ->
  Z.of_nat (length (episodesWithBoth pa sa)) <= compatible a p s.
Proof.
  intros Hpa Hsa Hdp Hds Hcp Hcs.
  rewrite (compatible_sets a p s Hdp Hds Hcp Hcs).
  unfold distinct_episodes, language_details in Hdp. rewrite Hpa in Hdp.
  rewrite (length_both pa sa Hdp).
  unfold episodes_of, language_details. rewrite Hpa, Hsa.
  set (P := detail_ids (episode_details pa)). set (Q := detail_ids (episode_details sa)).
  assert (HlP : P ∩ Q ⊆ P) by apply intersection_subseteq_l.
  assert (HlQ : P ∩ Q ⊆ Q) by apply intersection_subseteq_r.
  pose proof (subseteq_size _ _ HlP). pose proof (subseteq_size _ _ HlQ). lia.
Qed.

(** X10: for two selected languages of an analysis that lists each episode
    once per language with counts equal to the lengths of the lists, the
    preview of the discovery step shows its three figures (no language is
    missing when they are read), READY, PARTIAL and SKIP add up to the
    number of episodes, SKIP is the SKIP figure of the configuration step,
    and PARTIAL is at most its NEEDS ATTENTION figure. *)
Theorem preview_figures (a : SubtitleAnalysis) (st : Selection) (d : PreviewData) :
  distinct_episodes a (primaryLanguage st) -> distinct_episodes a (secondaryLanguage st) ->
  counts_agree a (primaryLanguage st) -> counts_agree a (secondaryLanguage st) ->
  available (Some a) (primaryLanguage st) = true ->
  available (Some a) (secondaryLanguage st) = true ->
  previewData a st = Some d ->
  exists partial skip,
    partial_figure d = Some partial /\ skip_figure a d = Some skip
    /\ compatible_count d + partial + skip = total_episodes a
    /\ 0 <= partial
    /\ skip = willSkip (stats a (primaryLanguage st) (secondaryLanguage st))
    /\ partial <= needsAttention (stats a (primaryLanguage st) (secondaryLanguage st)).
Proof.
  intros Hdp Hds Hcp Hcs Hp Hs Hd.
  unfold available in Hp, Hs.
  apply bool_decide_eq_true in Hp as [pa Hpa], Hs as [sa Hsa].
  pose proof (both_at_most_compatible a _ _ pa sa Hpa Hsa Hdp Hds Hcp Hcs) as Hboth.
  unfold previewData in Hd.
  destruct (negb _ && negb _); [|done]. injection Hd as <-.
  unfold partial_figure, skip_figure, stats. simpl. rewrite Hpa, Hsa.
  eexists _, _. split; [done|]. split; [done|].
  unfold compatible in *. rewrite Hpa, Hsa in *. simpl in *. lia.
Qed.

Lemma preview_figures_witness :
  exists partial skip,
    partial_figure (mkPreviewData (language_availability scenario12 !! "en")
                                  (language_availability scenario12 !! "ja")
                                  (compatible scenario12 "en" "ja")) = Some partial
    /\ skip_figure scenario12
         (mkPreviewData (language_availability scenario12 !! "en")
                        (language_availability scenario12 !! "ja")
                        (compatible scenario12 "en" "ja")) = Some skip
    /\ 10 + partial + skip = 12
    /\ 0 <= partial
    /\ skip = willSkip (stats scenario12 "en" "ja")
    /\ partial <= needsAttention (stats scenario12 "en" "ja").
Proof.
  apply (preview_figures scenario12 (mkSelection "en" "ja")).
  - unfold distinct_episodes. apply (bool_decide_unpack _). vm_compute. reflexivity.
  - unfold distinct_episodes. apply (bool_decide_unpack _). vm_compute. reflexivity.
  - intros avail Hav. vm_compute in Hav. injection Hav as <-. reflexivity.
  - intros avail Hav. vm_compute in Hav. injection Hav as <-. reflexivity.
  - vm_compute. reflexivity.
  - vm_compute. reflexivity.
  - reflexivity.
Defined.

End DiscoveryFacts.

(** ** Facts about the bulk wizard *)

Module WizardFacts.
Import Bulk BulkFacts Wizard.

Lemma readyCount_nonneg (analysis : option SubtitleAnalysis) (p s : string) :
  (0 <= readyCount analysis p s)%Z.
Proof.
  unfold readyCount. destruct analysis as [a|]; [|done].
  destruct (String.eqb p "" || String.eqb s ""); [done|].
  destruct (language_availability a !! p) as [pa|]; [|done].
  destruct (language_availability a !! s) as [sa|]; [|done].
  pose proof (existing_le_both p s pa sa). lia.
Qed.

Lemma available_some (a : SubtitleAnalysis) (language : string) :
  Discovery.available (Some a) language = true
  <-> is_Some (language_availability a !! language).
Proof. unfold Discovery.available. apply bool_decide_eq_true. Qed.

Lemma available_loaded (analysis : option SubtitleAnalysis) (language : string) :
  Discovery.available analysis language = true ->
  exists a, analysis = Some a /\ is_Some (language_availability a !! language).
Proof.
  destruct analysis as [a|]; [|done]. intros H%available_some. by exists a.
Qed.

(** CONTINUE is enabled only when [handleContinue] hands over two
    languages, and these are then chosen well. *)
Lemma canContinue_chosen (analysis : option SubtitleAnalysis) (sel : Discovery.Selection) :
  Discovery.canContinue analysis sel = true ->
  Discovery.handleContinue sel
    = Some (Discovery.primaryLanguage sel, Discovery.secondaryLanguage sel)
  /\ exists a, analysis = Some a
       /\ Discovery.primaryLanguage sel <> "" /\ Discovery.secondaryLanguage sel <> ""
       /\ Discovery.primaryLanguage sel <> Discovery.secondaryLanguage sel
       /\ is_Some (language_availability a !! Discovery.primaryLanguage sel)
       /\ is_Some (language_availability a !! Discovery.secondaryLanguage sel).
Proof.
  unfold Discovery.canContinue, Discovery.handleContinue.
  rewrite !andb_true_iff. intros [[Hguard Hp] Hs].
  rewrite (proj2 (andb_true_iff _ _) (conj (proj2 (andb_true_iff _ _) (proj1 Hguard)) (proj2 Hguard))).
  destruct Hguard as [[Hne1 Hne2] Hne3].
  apply negb_true_iff, String.eqb_neq in Hne1, Hne2, Hne3.
  split; [done|].
  apply available_loaded in Hp as (a & -> & Hp).
  apply available_some in Hs. by exists a.
Qed.

Lemma clickChip_fields (c : string) (sel : Discovery.Selection) :
  (Discovery.primaryLanguage (Discovery.clickChip c sel) = c
   \/ Discovery.primaryLanguage (Discovery.clickChip c sel) = ""
   \/ Discovery.primaryLanguage (Discovery.clickChip c sel) = Discovery.primaryLanguage sel)
  /\ (Discovery.secondaryLanguage (Discovery.clickChip c sel) = c
      \/ Discovery.secondaryLanguage (Discovery.clickChip c sel) = ""
      \/ Discovery.secondaryLanguage (Discovery.clickChip c sel)
         = Discovery.secondaryLanguage sel).
Proof.
  unfold Discovery.clickChip.
  repeat (match goal with |- context [if ?b then _ else _] => destruct b end);
    simpl; auto.
Qed.

Section Entries.

Variable Object_entries :
  gmap string LanguageAvailability -> list (string * LanguageAvailability).
Hypothesis entries_enumerate : Discovery.enumerates Object_entries.

Lemma sortedLanguages_available (analysis : option SubtitleAnalysis) (k : string) :
  In k (map fst (Discovery.sortedLanguages Object_entries analysis)) ->
  Discovery.available analysis k = true.
Proof.
  destruct analysis as [a|]; [|done]. simpl.
  intros ([k' v] & <- & Hin)%in_map_iff. simpl.
  apply DiscoveryFacts.in_take in Hin.
  apply (DiscoveryFacts.in_sorted_entries Object_entries entries_enumerate) in Hin.
  apply bool_decide_eq_true. by exists v.
Qed.

Lemma autoSelect_fields (analysis : option SubtitleAnalysis) (sel : Discovery.Selection) :
  let sel' := Discovery.autoSelect Object_entries analysis sel in
  (Discovery.available analysis (Discovery.primaryLanguage sel') = true
   \/ Discovery.primaryLanguage sel' = Discovery.primaryLanguage sel)
  /\ (Discovery.available analysis (Discovery.secondaryLanguage sel') = true
      \/ Discovery.secondaryLanguage sel' = Discovery.secondaryLanguage sel).
Proof.
  cbv zeta. unfold Discovery.autoSelect.
  pose proof (sortedLanguages_available analysis) as Hav.
  destruct (Discovery.sortedLanguages Object_entries analysis)
    as [|[k1 v1] [|[k2 v2] rest]]; [by auto..|].
  destruct (_ && _); [|by auto]. simpl. split; left; apply Hav; simpl; auto.
Qed.

(** The consistency of the wizard is kept by every event. *)
Lemma handle_consistent (w : State) (e : Event) :
  consistent w -> enabled Object_entries w e = true ->
  consistent (handle Object_entries w e).
Proof.
  intros [Hch Hreq Hjob [Hsp Hss]] Hen. destruct e; simpl in Hen |- *.
  - (* AnalysisLoaded *)
    apply andb_true_iff in Hen as [Hstep%bool_decide_eq_true Hnone%bool_decide_eq_true].
    destruct Hch as [(a' & Ha' & _)|(Hd & Hr & Hu & Hp)]; [congruence|].
    split; simpl.
    + right. done.
    + rewrite Hr. constructor.
    + done.
    + unfold selectable in *. simpl. rewrite Hnone in Hsp, Hss. simpl in *.
      split; [destruct Hsp as [->|?]; [by left|done]
             |destruct Hss as [->|?]; [by left|done]].
  - (* AutoSelect *)
    split; simpl; try done.
    destruct (autoSelect_fields (analysis w) (selection w)) as [H1 H2].
    unfold selectable in *. simpl.
    split; [destruct H1 as [H1| ->]; [by right|done]
           |destruct H2 as [H2| ->]; [by right|done]].
  - (* SelectPrimary *)
    apply andb_true_iff in Hen as [_ Hv]. apply orb_true_iff in Hv.
    split; simpl; try done. unfold selectable in *. simpl. split; [|done].
    destruct Hv as [->%String.eqb_eq|Hv]; [by left|by right].
  - (* SelectSecondary *)
    apply andb_true_iff in Hen as [_ Hv]. apply orb_true_iff in Hv.
    split; simpl; try done. unfold selectable in *. simpl. split; [done|].
    destruct Hv as [->%String.eqb_eq|[Hv _]%andb_true_iff]; [by left|by right].
  - (* ClickChip *)
    apply andb_true_iff in Hen as [_ Hc].
    apply existsb_exists in Hc as (k & Hk & ->%String.eqb_eq).
    apply sortedLanguages_available in Hk.
    split; simpl; try done.
    destruct (clickChip_fields k (selection w)) as [H1 H2].
    unfold selectable in *. simpl.
    split; [destruct H1 as [->|[->| ->]]; [by right|by left|done]
           |destruct H2 as [->|[->| ->]]; [by right|by left|done]].
  - (* Continue *)
    apply andb_true_iff in Hen as [Hstep%bool_decide_eq_true Hc].
    apply canContinue_chosen in Hc as [-> (a & Ha & Hp & Hs & Hps & Hap & Has)].
    split; simpl; try done.
    + left. exists a. simpl. done.
    + intros Hj. specialize (Hjob Hj). congruence.
  - (* Back *)
    unfold canGoBack in Hen. unfold handleBack.
    destruct (currentStep w) eqn:Hstep; simpl in Hen; try done.
    + (* preview: the discovery step is mounted again *)
      destruct Hch as [Hch|(Hd & _)]; [|congruence].
      split; simpl; try done.
      * by left.
      * intros Hj. specialize (Hjob Hj). congruence.
      * destruct Hch as (a & Ha & _ & _ & _ & Hap & Has).
        unfold selectable. simpl. rewrite Ha.
        split; right; by apply available_some.
    + (* processing *)
      destruct Hch as [Hch|(Hd & _)]; [|congruence].
      split; simpl; try done.
      * by left.
      * intros Hj. specialize (Hjob Hj). congruence.
  - (* StartProcessing *)
    apply andb_true_iff in Hen as [Hstep%bool_decide_eq_true Hready%negb_true_iff%Z.eqb_neq].
    unfold footer_count in Hready.
    destruct Hch as [Hch|(Hd & _)]; [|congruence].
    split; simpl; try done.
    + by left.
    + constructor; [|done].
      destruct Hch as (a & Ha & _ & _ & Hps & _).
      exists a. split; [exact Ha|]. split; [exact Hps|].
      change (0 < readyCount (Some a) (primaryLanguage w) (secondaryLanguage w))%Z.
      rewrite Ha in Hready.
      pose proof (readyCount_nonneg (Some a) (primaryLanguage w) (secondaryLanguage w)). lia.
    + intros Hj. specialize (Hjob Hj). congruence.
  - (* JobIdReceived *)
    apply Nat.ltb_lt in Hen.
    destruct Hch as [Hch|(_ & _ & Hu & _)]; [|lia].
    split; simpl; try done. by left.
  - (* RequestFailed *)
    apply Nat.ltb_lt in Hen.
    destruct Hch as [Hch|(_ & _ & Hu & _)]; [|lia].
    split; simpl; try done. by left.
  - (* ProcessingComplete *)
    apply Nat.ltb_lt in Hen.
    destruct Hch as [Hch|(_ & _ & _ & Hp)]; [|lia].
    split; simpl; try done. by left.
  - (* RetryFailed *)
    apply andb_true_iff in Hen as [[Hstep%bool_decide_eq_true Hj%String.eqb_eq]%andb_true_iff _].
    destruct Hch as [Hch|(Hd & _)]; [|congruence].
    split; simpl; try done. by left.
Qed.

Lemma initial_consistent : consistent initial.
Proof.
  split; simpl.
  - by right.
  - constructor.
  - done.
  - split; by left.
Qed.

Lemma run_consistent (events : list Event) (w w' : State) :
  consistent w -> run Object_entries w events = Some w' -> consistent w'.
Proof.
  revert w. induction events as [|e events IH]; simpl; intros w Hw Hrun.
  - by injection Hrun as <-.
  - destruct (enabled Object_entries w e) eqn:Hen; [|done].
    eapply IH; [|done]. by apply handle_consistent.
Qed.

(** X11: the wizard leaves the discovery step only with two chosen
    languages. *)
Theorem wizard_languages_chosen (events : list Event) (w : State) :
  run Object_entries initial events = Some w ->
  currentStep w <> discovery ->
  chosen w.
Proof.
  intros Hrun Hstep.
  destruct (run_consistent events initial w initial_consistent Hrun)
    as [[Hch|(Hd & _)] _ _ _]; [done|congruence].
Qed.

(** X12: every request for a bulk job names two different languages of the
    analysis for which at least one episode is ready. *)
Theorem wizard_requests_ready (events : list Event) (w : State) (p s : string) :
  run Object_entries initial events = Some w ->
  In (p, s) (requests w) ->
  p <> s /\ (0 < readyCount (analysis w) p s)%Z.
Proof.
  intros Hrun Hin.
  destruct (run_consistent events initial w initial_consistent Hrun) as [_ Hreq _ _].
  rewrite Forall_forall in Hreq.
  destruct (Hreq (p, s) (proj2 (list_elem_of_In _ _) Hin)) as (a & -> & Hps & Hready).
  done.
Qed.

(** X13: once a job identifier is known the wizard stays in its last step:
    the back arrow is not shown, and no event leads elsewhere. *)
Theorem wizard_job_is_final (events : list Event) (w : State) :
  run Object_entries initial events = Some w ->
  jobId w <> "" ->
  currentStep w = results
  /\ canGoBack w = false
  /\ forall e, enabled Object_entries w e = true ->
        currentStep (handle Object_entries w e) = results.
Proof.
  intros Hrun Hj.
  destruct (run_consistent events initial w initial_consistent Hrun) as [_ _ Hjob _].
  specialize (Hjob Hj). split; [done|]. split.
  - unfold canGoBack. rewrite Hjob. done.
  - intros e Hen. destruct e; simpl in Hen |- *; try done;
      try (by rewrite Hjob in Hen).
    + unfold canGoBack in Hen. by rewrite Hjob in Hen.
    + unfold showFooter in Hen. by rewrite Hjob in Hen.
    + apply andb_true_iff in Hen as [[_ Hj'%String.eqb_eq]%andb_true_iff _]. done.
Qed.

(** X14: the preview of the discovery step never reads a language that the
    analysis lacks: whenever the preview is shown, its PARTIAL and SKIP
    figures exist. *)
Theorem discovery_preview_defined (events : list Event) (w : State)
    (a : SubtitleAnalysis) (d : Discovery.PreviewData) :
  run Object_entries initial events = Some w ->
  analysis w = Some a ->
  Discovery.previewData a (selection w) = Some d ->
  is_Some (Discovery.partial_figure d) /\ is_Some (Discovery.skip_figure a d).
Proof.
  intros Hrun Ha Hd.
  destruct (run_consistent events initial w initial_consistent Hrun) as [_ _ _ [Hp Hs]].
  unfold selectable in Hp, Hs. rewrite Ha in Hp, Hs.
  unfold Discovery.previewData in Hd.
  destruct (String.eqb_spec (Discovery.primaryLanguage (selection w)) "") as [|Hp'];
    [done|].
  destruct (String.eqb_spec (Discovery.secondaryLanguage (selection w)) "") as [|Hs'];
    [done|].
  simpl in Hd. injection Hd as <-.
  destruct Hp as [|[pa Hpa]%available_some]; [done|].
  destruct Hs as [|[sa Hsa]%available_some]; [done|].
  unfold Discovery.partial_figure, Discovery.skip_figure. simpl. rewrite Hpa, Hsa.
  split; eexists; done.
Qed.

(** X15: in the configuration step the footer counts what the step shows
    as READY, and both are computed from the records of two languages of
    the analysis. *)
Theorem footer_agrees_with_preview (events : list Event) (w : State) :
  run Object_entries initial events = Some w ->
  currentStep w = preview ->
  exists a,
    analysis w = Some a
    /\ is_Some (language_availability a !! primaryLanguage w)
    /\ is_Some (language_availability a !! secondaryLanguage w)
    /\ footer_count w = ready (stats a (primaryLanguage w) (secondaryLanguage w)).
Proof.
  intros Hrun Hstep.
  destruct (run_consistent events initial w initial_consistent Hrun)
    as [[Hch|(Hd & _)] _ _ _]; [|congruence].
  destruct Hch as (a & Ha & Hp & Hs & _ & Hap & Has).
  exists a. split; [done|]. split; [done|]. split; [done|].
  unfold footer_count. rewrite Ha. by apply readyCount_stats.
Qed.

(** X16: the automatic selection can always be continued with: when the
    analysis has at least two languages, none of them named by the empty
    string, then once it is loaded and the effect has run, CONTINUE is
    enabled and leads to the configuration step with the two selected
    languages. *)
Theorem automatic_selection_continues (a : SubtitleAnalysis) :
  (2 <= size (language_availability a))%nat ->
  language_availability a !! "" = None ->
  exists w,
    run Object_entries initial [AnalysisLoaded a; AutoSelect; Continue] = Some w
    /\ currentStep w = preview
    /\ Discovery.mkSelection (primaryLanguage w) (secondaryLanguage w)
       = Discovery.autoSelect Object_entries (Some a) (Discovery.mkSelection "" "")
    /\ chosen w.
Proof.
  intros Hsize Hempty.
  destruct (DiscoveryFacts.sorted_first_two Object_entries entries_enumerate
              (language_availability a) Hsize)
    as (k1 & pa & k2 & sa & rest & Hsort & Hne & Hpa & Hsa & _).
  pose proof (DiscoveryFacts.autoSelect_first_two Object_entries a
                (Discovery.mkSelection "" "") k1 pa k2 sa rest Hsort eq_refl eq_refl)
    as Hsel.
  assert (Hp : k1 <> "") by (intros ->; congruence).
  assert (Hs : k2 <> "") by (intros ->; congruence).
  assert (Hcan : Discovery.canContinue (Some a) (Discovery.mkSelection k1 k2) = true).
  { unfold Discovery.canContinue.
    cbn [Discovery.primaryLanguage Discovery.secondaryLanguage].
    rewrite (proj2 (String.eqb_neq _ _) Hp), (proj2 (String.eqb_neq _ _) Hs),
      (proj2 (String.eqb_neq _ _) Hne).
    rewrite !(proj2 (available_some _ _)) by (by eexists). done. }
  destruct (canContinue_chosen _ _ Hcan) as [Hh _].
  cbn [run]. change (enabled Object_entries initial (AnalysisLoaded a)) with true.
  cbn [handle].
  change (enabled Object_entries (setAnalysis a initial) AutoSelect) with true.
  cbn [handle].
  change (analysis (setAnalysis a initial)) with (Some a).
  change (selection (setAnalysis a initial)) with (Discovery.mkSelection "" "").
  rewrite Hsel.
  set (w1 := with_selection _ _).
  assert (Hen : enabled Object_entries w1 Continue = true) by exact Hcan.
  rewrite Hen. eexists. split; [reflexivity|].
  cbn [handle]. change (selection w1) with (Discovery.mkSelection k1 k2). rewrite Hh.
  split; [done|]. split; [done|].
  exists a. simpl. split; [done|]. split; [done|]. split; [done|]. split; [done|].
  split; by eexists.
Qed.

End Entries.

Lemma footer_agrees_with_preview_witness :
  exists w a,
    run map_to_list initial [AnalysisLoaded scenario12; AutoSelect; Continue] = Some w
    /\ analysis w = Some a
    /\ footer_count w = ready (stats a (primaryLanguage w) (secondaryLanguage w)).
Proof.
  edestruct (footer_agrees_with_preview map_to_list DiscoveryFacts.map_to_list_enumerates
               [AnalysisLoaded scenario12; AutoSelect; Continue])
    as (a & Ha & _ & _ & Hfoot); [vm_compute; reflexivity|reflexivity|].
  eexists _, a. split; [vm_compute; reflexivity|]. split; [exact Ha|exact Hfoot].
Defined.

Lemma automatic_selection_continues_witness :
  exists w,
    run map_to_list initial [AnalysisLoaded scenario12; AutoSelect; Continue] = Some w
    /\ currentStep w = preview.
Proof.
  destruct (automatic_selection_continues map_to_list
              DiscoveryFacts.map_to_list_enumerates scenario12)
    as (w & Hrun & Hstep & _); [vm_compute; lia|reflexivity|].
  exists w. split; [exact Hrun|exact Hstep].
Defined.

Lemma wizard_languages_chosen_witness :
  exists w, run map_to_list initial started_run = Some w
            /\ currentStep w = results /\ chosen w.
Proof.
  eexists. split; [vm_compute; reflexivity|]. split; [reflexivity|].
  apply (wizard_languages_chosen map_to_list DiscoveryFacts.map_to_list_enumerates
           started_run).
  - vm_compute. reflexivity.
  - discriminate.
Defined.

Lemma wizard_requests_ready_witness :
  exists w p s, run map_to_list initial started_run = Some w
                /\ requests w = [(p, s)]
                /\ p <> s /\ (0 < readyCount (analysis w) p s)%Z.
Proof.
  eexists _, _, _. split; [vm_compute; reflexivity|]. split; [reflexivity|].
  apply (wizard_requests_ready map_to_list DiscoveryFacts.map_to_list_enumerates
           started_run).
  - vm_compute. reflexivity.
  - left. reflexivity.
Defined.

Lemma wizard_job_is_final_witness :
  exists w, run map_to_list initial started_run = Some w
            /\ currentStep w = results /\ canGoBack w = false.
Proof.
  eexists. split; [vm_compute; reflexivity|].
  edestruct (wizard_job_is_final map_to_list DiscoveryFacts.map_to_list_enumerates
               started_run) as (Hstep & Hback & _);
    [vm_compute; reflexivity|discriminate|split; [exact Hstep|exact Hback]].
Defined.

Lemma discovery_preview_defined_witness :
  exists w d, run map_to_list initial revised_run = Some w
              /\ Discovery.previewData scenario12 (selection w) = Some d
              /\ is_Some (Discovery.partial_figure d)
              /\ is_Some (Discovery.skip_figure scenario12 d).
Proof.
  eexists _, _. split; [vm_compute; reflexivity|]. split; [reflexivity|].
  eapply (discovery_preview_defined map_to_list DiscoveryFacts.map_to_list_enumerates
            revised_run).
  - vm_compute. reflexivity.
  - reflexivity.
  - reflexivity.
Defined.

(** The chips can select one language twice; CONTINUE is then disabled. *)
Lemma chips_can_select_twice :
  exists w, run map_to_list initial revised_run = Some w
            /\ selection w = Discovery.mkSelection "en" "en"
            /\ enabled map_to_list w Continue = false.
Proof.
  eexists. split; [vm_compute; reflexivity|]. split; vm_compute; reflexivity.
Qed.

End WizardFacts.

(** ** Facts about the parser's answers and the subtitle list *)

Module ManagerFacts.
Import Regex RegexFacts DualName DualNameFacts Manager.

(** *** What the parser returns *)

(** A pattern without groups hands the captures on unchanged. *)
Lemma exec_groupless (r : regex) :
  groupless r = true ->
  forall s cs k res,
  exec r s cs k = Some res ->
  exists w s', s = w ++ s' /\ matches r w s' /\ k s' cs = Some res.
Proof.
  induction r as [|c|cl lo hi|r1 IH1 r2 IH2|r1 IH1 r2 IH2|r1 IH1|i r1 IH1|];
    simpl; intros Hg s cs k res H.
  - by exists [], s.
  - destruct s as [|c' s]; [done|].
    destruct (Ascii.eqb c c') eqn:Hc; [|done]. apply Ascii.eqb_eq in Hc as <-.
    by exists [c], s.
  - apply rep_sound in H as (w & s' & -> & Hall & Hlo & Hhi & Hk).
    exists w, s'. auto.
  - apply andb_true_iff in Hg as [Hg1 Hg2].
    apply (IH1 Hg1) in H as (w1 & s1 & -> & Hm1 & H).
    apply (IH2 Hg2) in H as (w2 & s2 & -> & Hm2 & H).
    exists (w1 ++ w2), s2. rewrite <- app_assoc. split; [done|]. split; [|done].
    by exists w1, w2.
  - apply andb_true_iff in Hg as [Hg1 Hg2].
    destruct (exec r1 s cs k) as [res'|] eqn:H1; simpl in H.
    + injection H as ->. apply (IH1 Hg1) in H1 as (w & s' & -> & Hm & Hk).
      exists w, s'. auto.
    + apply (IH2 Hg2) in H as (w & s' & -> & Hm & Hk).
      exists w, s'. auto.
  - destruct (exec r1 s cs k) as [res'|] eqn:H1; simpl in H.
    + injection H as ->. apply (IH1 Hg) in H1 as (w & s' & -> & Hm & Hk).
      exists w, s'. auto.
    + exists [], s. auto.
  - done.
  - destruct s; [|done]. exists [], []. auto.
Qed.

Lemma exec_word (w0 : chars) (r : regex) (s : chars) (cs : captures) k res :
  exec (word w0 r) s cs k = Some res ->
  exists s1, s = w0 ++ s1 /\ exec r s1 cs k = Some res.
Proof.
  revert s. induction w0 as [|c w0 IH]; intros s; cbn [word].
  - intros H. by exists s.
  - cbn [exec]. destruct s as [|c' s]; [done|].
    destruct (Ascii.eqb c c') eqn:Hc; [|done]. apply Ascii.eqb_eq in Hc as <-.
    intros (s1 & -> & H)%IH. by exists s1.
Qed.

Lemma split_hyphen_alpha (a : chars) :
  forallb is_alpha a = true ->
  split_hyphen a = (a, None)
  /\ forall r, split_hyphen (a ++ "-"%char :: r) = (a, Some r).
Proof.
  induction a as [|c a IH]; simpl.
  - intros _. split; [done|]. done.
  - intros [Hc Ha]%andb_true_iff. destruct (IH Ha) as [IH1 IH2].
    assert (Ascii.eqb c "-" = false) as ->.
    { rewrite Ascii.eqb_sym. by apply alpha_not_hyphen. }
    rewrite IH1. split; [done|]. intros r. by rewrite IH2.
Qed.

(** What the pattern of one code consumes is a language code. *)
Lemma matches_code_lang (w rest : chars) :
  matches code_re w rest -> is_lang_code (string_of_list_ascii w) = true.
Proof.
  cbn [matches code_re region_re].
  intros (a & o & -> & (Ha & Hlo & Hhi) & Ho).
  change (forallb is_alpha a = true) in Ha.
  unfold is_lang_code. rewrite list_ascii_of_string_of_list_ascii.
  destruct (split_hyphen_alpha a Ha) as [H1 H2].
  destruct Ho as [->|(h & r & -> & -> & (Hr & Hrlo & Hrhi))];
    [|change (forallb is_alpha r = true) in Hr].
  - cbn [within] in Hhi.
    rewrite app_nil_r, H1. unfold letters.
    by rewrite Ha, Hhi, (proj2 (Nat.leb_le _ _) Hlo).
  - cbn [within] in Hhi, Hrhi. cbn [app].
    rewrite H2. unfold letters.
    by rewrite Ha, Hr, Hhi, Hrhi, (proj2 (Nat.leb_le _ _) Hlo),
      (proj2 (Nat.leb_le _ _) Hrlo).
Qed.

(** The shape of a match and of its groups. *)
Lemma match_start_dual (t : chars) (m : captures) :
  match_start dual_re t = Some m ->
  exists w1 w2 e,
    t = list_ascii_of_string ".dual." ++ w1 ++ "-"%char :: w2 ++ "."%char :: e
    /\ is_lang_code (string_of_list_ascii w1) = true
    /\ is_lang_code (string_of_list_ascii w2) = true
    /\ forallb (fun c => negb (is_dot c)) e = true /\ 1 <= length e
    /\ m = [(2, w2); (1, w1)].
Proof.
  unfold match_start, dual_re, lit.
  intros (t1 & -> & H)%exec_word.
  cbn [exec] in H.
  apply (exec_groupless code_re eq_refl) in H as (w1 & s1 & -> & Hm1 & H).
  rewrite take_prefix in H.
  cbn [exec second_re] in H.
  destruct s1 as [|c t2]; [done|].
  destruct (Ascii.eqb "-" c) eqn:Hc; [|done]. apply Ascii.eqb_eq in Hc as <-.
  apply (exec_groupless code_re eq_refl) in H as (w2 & s2 & -> & Hm2 & H).
  rewrite take_prefix in H.
  apply (exec_groupless tail_re eq_refl) in H as (w & s' & -> & Hm & H).
  injection H as <-.
  cbn [matches tail_re] in Hm.
  destruct Hm as (d & e' & -> & -> & e & e0 & -> & (He & Hlen & _) & -> & ->).
  exists w1, w2, e. rewrite !app_nil_r.
  split; [done|].
  split; [by eapply matches_code_lang|].
  split; [by eapply matches_code_lang|]. done.
Qed.

(** X17: whatever the parser returns is written in the file name: the
    name is [<base>.dual.<first>-<second>.<ext>] for some base and some
    extension without a dot, and the two answers have the shape of a
    language code.  The answer is moreover a pair that reads back: every
    file name composed from it by the convention parses to it again. *)
Theorem parseDualLanguages_sound (fileName first second : string) :
  parseDualLanguages fileName = Some (first, second) ->
  is_lang_code first = true /\ is_lang_code second = true
  /\ (exists base ext,
        is_extension ext = true
        /\ fileName = dual_filename base first second ext)
  /\ unambiguous first second = true
  /\ (forall base ext, is_extension ext = true ->
        parseDualLanguages (dual_filename base first second ext) = Some (first, second)).
Proof.
  intros Hparse. pose proof Hparse as Hfound. unfold parseDualLanguages in Hfound.
  destruct (search dual_re (list_ascii_of_string fileName)) as [m|] eqn:Hs; [|done].
  apply search_inv in Hs as (pre & t & Hsplit & Hm).
  apply match_start_dual in Hm as (w1 & w2 & e & -> & H1 & H2 & He & Hlen & ->).
  unfold group in Hfound. cbn [capture Nat.eqb] in Hfound.
  injection Hfound as <- <-.
  assert (Hext : is_extension (string_of_list_ascii e) = true).
  { unfold is_extension.
    by rewrite list_ascii_of_string_of_list_ascii, He, (proj2 (Nat.leb_le _ _) Hlen). }
  assert (Hname : fileName
                  = dual_filename (string_of_list_ascii pre) (string_of_list_ascii w1)
                      (string_of_list_ascii w2) (string_of_list_ascii e)).
  { apply LangFacts.chars_inj.
    by rewrite dual_filename_chars, !list_ascii_of_string_of_list_ascii. }
  assert (Hun : unambiguous (string_of_list_ascii w1) (string_of_list_ascii w2) = true).
  { destruct (unambiguous _ _) eqn:Hun; [done|]. exfalso.
    apply (parse_ambiguous (string_of_list_ascii pre) _ _ _ H1 H2 Hext Hun).
    by rewrite <- Hname. }
  split; [done|]. split; [done|]. split; [by eexists _, _|]. split; [done|].
  intros base ext Hext'. by apply parse_unambiguous.
Qed.

Lemma parseDualLanguages_sound_witness :
  is_lang_code "en-zh" = true /\ is_lang_code "TW" = true
  /\ (exists base ext,
        is_extension ext = true
        /\ "Movie.dual.en-zh-TW.srt" = dual_filename base "en-zh" "TW" ext)
  /\ unambiguous "en-zh" "TW" = true
  /\ (forall base ext, is_extension ext = true ->
        parseDualLanguages (dual_filename base "en-zh" "TW" ext) = Some ("en-zh", "TW")).
Proof.
  apply (parseDualLanguages_sound "Movie.dual.en-zh-TW.srt" "en-zh" "TW").
  vm_compute. reflexivity.
Defined.

(** *** The caption of a file in the list *)

Lemma prefix_app (needle s : string) :
  String.prefix needle s = true <-> exists post, s = needle +:+ post.
Proof.
  revert s. induction needle as [|c n IH]; intros s.
  - split; [by exists s|by destruct s].
  - destruct s as [|c' s]; simpl; [split; [done|by intros [post H]]|].
    destruct (Ascii.ascii_dec c c') as [<-|Hne].
    + rewrite IH. split; intros [post H]; exists post; [by rewrite H|by injection H].
    + split; [done|]. intros [post H]. by injection H.
Qed.

Lemma includes_marker (s : string) : includes s ".dual." = true <-> has_marker s.
Proof.
  unfold has_marker. induction s as [|c s IH]; cbn [includes].
  - rewrite orb_false_r, prefix_app. split.
    + intros [post H]. by exists "", post.
    + intros (pre & post & H). destruct pre; discriminate H.
  - rewrite orb_true_iff, prefix_app, IH. split.
    + intros [[post H]|(pre & post & H)].
      * by exists "", post.
      * exists (String c pre), post. by rewrite H.
    + intros (pre & post & H). destruct pre as [|c' pre].
      * left. by exists post.
      * right. exists pre, post. by injection H.
Qed.

Lemma dualLanguages_parse (sub : ExternalSubtitle) :
  dualLanguages sub = parseDualLanguages (file_name sub).
Proof.
  unfold dualLanguages. destruct (isDual sub) eqn:Hd; [done|].
  assert (Hno : ~ has_marker (file_name sub)).
  { intros Hm%includes_marker. unfold isDual in Hd. congruence. }
  by rewrite (parse_needs_marker _ Hno).
Qed.

Lemma caption_parse (sub : ExternalSubtitle) :
  caption sub
  = match parseDualLanguages (file_name sub) with
    | Some (first, second) => first +:+ " + " +:+ second
    | None => language_or_unknown sub
    end.
Proof.
  unfold caption. rewrite dualLanguages_parse.
  destruct (parseDualLanguages (file_name sub)) as [[a b]|] eqn:Hp.
  - destruct (isDual sub) eqn:Hd; [done|].
    pose proof (dualLanguages_parse sub) as H. unfold dualLanguages in H.
    rewrite Hd in H. congruence.
  - by destruct (isDual sub).
Qed.

(** X18: the caption follows the parser alone: a file is captioned with two
    languages exactly when its name parses, and the test for [.dual.] in
    front of the parser never hides a name that parses. *)
Theorem caption_follows_parser (sub : ExternalSubtitle) :
  dualLanguages sub = parseDualLanguages (file_name sub)
  /\ caption sub
     = match parseDualLanguages (file_name sub) with
       | Some (first, second) => first +:+ " + " +:+ second
       | None => language_or_unknown sub
       end.
Proof. split; [apply dualLanguages_parse|apply caption_parse]. Qed.

(** X19: a file named by the convention, with codes that read back, is
    captioned with its two codes in the order of the name. *)
Theorem caption_of_dual_filename (sub : ExternalSubtitle) (base p s ext : string) :
  is_lang_code p = true -> is_lang_code s = true -> is_extension ext = true ->
  unambiguous p s = true ->
  file_name sub = dual_filename base p s ext ->
  isDual sub = true /\ caption sub = p +:+ " + " +:+ s.
Proof.
  intros Hp Hs Hext Hun Hname.
  pose proof (parse_unambiguous base p s ext Hp Hs Hext Hun) as Hparse.
  assert (Hd : isDual sub = true).
  { unfold isDual. apply includes_marker. rewrite Hname.
    exists base, (p +:+ "-" +:+ s +:+ "." +:+ ext). done. }
  split; [done|].
  rewrite (caption_parse sub), Hname, Hparse. done.
Qed.

Lemma caption_of_dual_filename_witness :
  isDual (mkExternalSubtitle "/tv/Show/S01E02.dual.zh-TW-en.srt" "S01E02.dual.zh-TW-en.srt"
            None "srt" (Some true) (Some ["zh-TW"; "en"])) = true
  /\ caption (mkExternalSubtitle "/tv/Show/S01E02.dual.zh-TW-en.srt"
                "S01E02.dual.zh-TW-en.srt" None "srt" (Some true) (Some ["zh-TW"; "en"]))
     = "zh-TW + en".
Proof.
  apply (caption_of_dual_filename _ "S01E02" "zh-TW" "en" "srt"); reflexivity.
Defined.

End ManagerFacts.

(** ** Facts about the creation form *)

Module CreatorFacts.
Import Creator.

Lemma Number_toString_inj (n m : nat) : Number_toString n = Number_toString m -> n = m.
Proof.
  unfold Number_toString. intros H.
  apply (f_equal NilEmpty.uint_of_string) in H. rewrite !NilEmpty.usu in H.
  injection H as H. apply (f_equal Nat.of_uint) in H.
  by rewrite !Unsigned.of_to in H.
Qed.

Lemma append_inj (a b c : string) : a +:+ b = a +:+ c -> b = c.
Proof. induction a as [|x a IH]; simpl; [done|]. intros [= H]. by apply IH. Qed.

(** The identifiers of the options are pairwise different when the
    streams have different indices. *)
Lemma option_ids_distinct externalSubtitles embeddedSubtitles :
  NoDup (map Manager.stream_index embeddedSubtitles) ->
  NoDup (map id (subtitleOptions externalSubtitles embeddedSubtitles)).
Proof.
  intros Hnd. unfold subtitleOptions. rewrite map_app. apply NoDup_app. split; [|split].
  - apply NoDup_alt. intros i j x Hi Hj.
    change (map id ?l) with (id <$> l) in Hi, Hj.
    rewrite list_lookup_fmap, list_lookup_imap in Hi, Hj.
    destruct (externalSubtitles !! i) as [si|]; [|done].
    destruct (externalSubtitles !! j) as [sj|]; [|done].
    simpl in Hi, Hj. injection Hi as <-. injection Hj as Hj.
    by apply append_inj, Number_toString_inj in Hj.
  - intros x Hx Hy.
    apply list_elem_of_In, in_map_iff in Hx as (o1 & <- & Ho1).
    apply list_elem_of_In, in_map_iff in Hy as (o2 & Heq & Ho2).
    apply list_elem_of_In, elem_of_lookup_imap in Ho1 as (i & s1 & -> & _).
    apply in_map_iff in Ho2 as (s2 & <- & _).
    discriminate Heq.
  - rewrite map_map.
    rewrite <- (map_map Manager.stream_index
                  (fun k => "embedded_" +:+ Number_toString k)).
    assert (Inj (=) (=) (fun k => "embedded_" +:+ Number_toString k)) as Hinj.
    { intros a b H. by apply append_inj, Number_toString_inj in H. }
    by apply (NoDup_fmap_2 _).
Qed.

Lemma find_by_id (options : list SubtitleOption) (o : SubtitleOption) :
  NoDup (map id options) -> In o options -> find_option options (id o) = Some o.
Proof.
  unfold find_option. induction options as [|x l IH]; simpl; [done|].
  intros Hnd%NoDup_cons [<-|Hin].
  - by rewrite String.eqb_refl.
  - destruct Hnd as [Hx Hnd]. destruct (String.eqb_spec (id x) (id o)) as [Heq|_].
    + exfalso. apply Hx. rewrite Heq. apply list_elem_of_In, in_map. done.
    + by apply IH.
Qed.

(** X20: with streams of different indices, every option of the two lists
    is found again by its identifier: what the user selects is what the
    form works with. *)
Theorem selected_option_found externalSubtitles embeddedSubtitles (o : SubtitleOption) :
  NoDup (map Manager.stream_index embeddedSubtitles) ->
  In o (subtitleOptions externalSubtitles embeddedSubtitles) ->
  find_option (subtitleOptions externalSubtitles embeddedSubtitles) (id o) = Some o.
Proof. intros Hnd Hin. apply find_by_id; [by apply option_ids_distinct|done]. Qed.

Lemma selected_option_found_witness :
  find_option (subtitleOptions episode_files episode_streams) "embedded_3"
  = Some (mkSubtitleOption "embedded_3" "Signs" (Some "Japanese") embedded None (Some 3)
            (Some "ass")).
Proof.
  apply (selected_option_found episode_files episode_streams
           (mkSubtitleOption "embedded_3" "Signs" (Some "Japanese") embedded None (Some 3)
              (Some "ass"))).
  - apply (bool_decide_unpack _). vm_compute. reflexivity.
  - vm_compute. do 3 right. left. reflexivity.
Defined.

Lemma in_options externalSubtitles embeddedSubtitles (o : SubtitleOption) :
  In o (subtitleOptions externalSubtitles embeddedSubtitles) ->
  (exists i sub, externalSubtitles !! i = Some sub /\ o = external_option i sub)
  \/ (exists sub, In sub embeddedSubtitles /\ o = embedded_option sub).
Proof.
  unfold subtitleOptions. intros [Hin|Hin]%in_app_or.
  - left. apply list_elem_of_In, elem_of_lookup_imap in Hin as (i & sub & -> & Hi).
    by exists i, sub.
  - right. apply in_map_iff in Hin as (sub & <- & Hin). by exists sub.
Qed.

(** The source that the request names for an option. *)
Lemma source_key_external (i : nat) (sub : Manager.ExternalSubtitle) (language : string) :
  Manager.file_path sub <> "" ->
  source_key (source_of (Some (external_option i sub)) (id (external_option i sub)) language)
  = (external, Manager.file_path sub, None).
Proof.
  intros Hp%String.eqb_neq. unfold source_key, source_of. simpl. by rewrite Hp.
Qed.

Lemma source_key_embedded (sub : Manager.EmbeddedSubtitle) (language : string) :
  source_key (source_of (Some (embedded_option sub)) (id (embedded_option sub)) language)
  = (embedded, id (embedded_option sub), Some (Manager.stream_index sub)).
Proof. done. Qed.

(** X21: when the buttons are shown and the two selections come from the
    lists, the request names two different subtitles: two files with
    different paths, two streams with different indices, or a file and a
    stream. *)
Theorem request_sources_differ externalSubtitles embeddedSubtitles (config : Config) :
  well_listed externalSubtitles embeddedSubtitles ->
  canProceed config = true ->
  In (primary_subtitle config)
     (map id (subtitleOptions externalSubtitles embeddedSubtitles)) ->
  In (secondary_subtitle config)
     (map id (subtitleOptions externalSubtitles embeddedSubtitles)) ->
  let request :=
    buildRequestData (subtitleOptions externalSubtitles embeddedSubtitles) config in
  source_key (primary request) <> source_key (secondary request).
Proof.
  intros (Hpaths & Hnonempty & Hstreams) Hcan Hp Hs. cbv zeta.
  unfold canProceed in Hcan.
  apply andb_true_iff in Hcan as [_ Hne%negb_true_iff%String.eqb_neq].
  apply in_map_iff in Hp as (o1 & Hid1 & Ho1), Hs as (o2 & Hid2 & Ho2).
  unfold buildRequestData. cbn [primary secondary].
  rewrite <- Hid1, <- Hid2 in Hne |- *.
  rewrite !(find_by_id _ _ (option_ids_distinct _ _ Hstreams)) by done.
  rewrite Forall_forall in Hnonempty.
  apply in_options in Ho1 as [(i & s1 & Hi & ->)|(s1 & Hin1 & ->)];
    apply in_options in Ho2 as [(j & s2 & Hj & ->)|(s2 & Hin2 & ->)].
  - rewrite !source_key_external
      by (apply Hnonempty; by eapply list_elem_of_lookup_2).
    intros [= Heq]. apply Hne.
    assert (i = j) as <-.
    { eapply NoDup_lookup; [exact Hpaths| |].
      - change (map ?f ?l) with (f <$> l). by rewrite list_lookup_fmap, Hi.
      - change (map ?f ?l) with (f <$> l). by rewrite list_lookup_fmap, Hj, Heq. }
    done.
  - rewrite source_key_external
      by (apply Hnonempty; by eapply list_elem_of_lookup_2).
    rewrite source_key_embedded. discriminate.
  - rewrite source_key_external
      by (apply Hnonempty; by eapply list_elem_of_lookup_2).
    rewrite source_key_embedded. discriminate.
  - rewrite !source_key_embedded. intros Heq. apply Hne.
    exact (f_equal (fun k => k.1.2) Heq).
Qed.

Lemma request_sources_differ_witness :
  source_key (primary (buildRequestData (subtitleOptions episode_files episode_streams)
                         file_over_stream))
  <> source_key (secondary (buildRequestData (subtitleOptions episode_files episode_streams)
                              file_over_stream)).
Proof.
  apply (request_sources_differ episode_files episode_streams file_over_stream).
  - split; [|split].
    + apply (bool_decide_unpack _). vm_compute. reflexivity.
    + repeat constructor; discriminate.
    + apply (bool_decide_unpack _). vm_compute. reflexivity.
  - reflexivity.
  - vm_compute. right. left. reflexivity.
  - vm_compute. do 2 right. left. reflexivity.
Defined.

End CreatorFacts.
